(** * Scene registry of the Directus3D runtime (Runtime/Core/Scene.cpp)

    A shallow embedding of [Directus::Scene]: the registry of game objects,
    the resolution of the renderer-facing caches, removal along the transform
    hierarchy, scene persistence and mouse picking; and of the mip-chain
    descriptions of [D3D11Texture] (Graphics/D3D11/D3D11Texture.cpp).

    Representation choices.
    - A [GameObject*] is an address; [nullptr] is [None].  Objects live in a
      heap [gmap addr GameObject]; dereferencing an address that is not live
      is undefined behaviour and makes the embedded function return [None].
    - A [Transform*] is represented by the address of the game object that
      owns the transform (every game object owns exactly one).
    - [float] is IEEE-754 binary32, given by the parametric operations of
      [SpecFloat] at precision 24 and maximal exponent 128. *)

From Stdlib Require Import ZArith Bool List.
From Stdlib Require Import Floats.SpecFloat.
From stdpp Require Import base option list gmap strings.

Open Scope string_scope.
Open Scope list_scope.

(** ** binary32 arithmetic *)

Module F32.

Definition prec : Z := 24.
Definition emax : Z := 128.

Definition float : Type := spec_float.

Definition add : float -> float -> float := SFadd prec emax.
Definition sub : float -> float -> float := SFsub prec emax.
Definition mul : float -> float -> float := SFmul prec emax.
Definition div : float -> float -> float := SFdiv prec emax.
Definition sqrt : float -> float := SFsqrt prec emax.
Definition ltb : float -> float -> bool := SFltb.
Definition leb : float -> float -> bool := SFleb.
Definition eqb : float -> float -> bool := SFeqb.
Definition abs : float -> float := SFabs.

(** Conversion of an integer literal, as in [float minDistance = 1000]. *)
Definition of_Z (z : Z) : float := binary_normalize prec emax z 0 false.

(** [std::max(a, b)] is [(a < b) ? b : a]. *)
Definition max (a b : float) : float := if ltb a b then b else a.

(** [pow(x, 2.0f)]: the square of [x], rounded once. *)
Definition pow2 (x : float) : float := mul x x.

Definition zero : float := S754_zero false.
Definition one : float := Eval vm_compute in of_Z 1.
Definition two : float := Eval vm_compute in of_Z 2.
Definition four : float := Eval vm_compute in of_Z 4.
Definition thousand : float := Eval vm_compute in of_Z 1000.

End F32.

Abbreviation float := F32.float.

(** ** Math types *)

(** Modelled from the spec: [Vector2] and [Vector3] of the math library
    (Math/ is not among the sources), as their [float] components. *)
Record Vector2 := mkVector2 { v2x : float; v2y : float }.
Record Vector3 := mkVector3 { vx : float; vy : float; vz : float }.

Definition Vector3_Zero : Vector3 := mkVector3 F32.zero F32.zero F32.zero.
Definition Vector3_Forward : Vector3 := mkVector3 F32.zero F32.zero F32.one.

(** Modelled from the spec: [Vector3::operator-] (Math/ is not among the
    sources), componentwise. *)
Definition Vector3_sub (a b : Vector3) : Vector3 :=
  mkVector3 (F32.sub (vx a) (vx b)) (F32.sub (vy a) (vy b)) (F32.sub (vz a) (vz b)).

(** ** Components and game objects *)

(** Modelled from the spec: [LightType] (Light.h is not among the sources).
    [Directional] and [Point] are the enumerators the scene tests for;
    [OtherLight] stands for any further enumerator. *)
Inductive LightType := Directional | Point | OtherLight.

(** Modelled from the spec: the components of a game object other than its
    transform (the component headers are not among the sources), each with
    the data the scene reads: the planes of a camera, the extent of the
    bounding box of a mesh filter, the type of a light, the path of a
    script. *)
Inductive Component :=
  | Camera (nearPlane farPlane : float)
  | Skybox
  | MeshRenderer
  | MeshFilter (boundingBox : Vector3)
  | Light (lightType : LightType)
  | LineRenderer
  | Script (path : string).

Definition addr := nat.

(** A pointer: [None] is [nullptr]. *)
Abbreviation ptr := (option addr).
Abbreviation nullptr := (@None addr).

(** Modelled from the spec: [Transform] (Transform.h is not among the
    sources): the world position and the forward vector as [GetPosition]
    and [GetForward] return them, the parent reference and the child
    references. *)
Record Transform := mkTransform {
  t_position : Vector3;
  t_forward : Vector3;
  t_parent : ptr;
  t_children : list addr
}.

(** Modelled from the spec: [GameObject] (GameObject.h is not among the
    sources): identifier, name, hierarchy-visibility flag, the attached
    components in order, and the one transform. *)
Record GameObject := mkGameObject {
  m_ID : string;
  m_name : string;
  m_hierarchyVisibility : bool;
  m_components : list Component;
  m_transform : Transform
}.

Definition isCamera (c : Component) : bool :=
  match c with Camera _ _ => true | _ => false end.
Definition isSkybox (c : Component) : bool :=
  match c with Skybox => true | _ => false end.
Definition isMeshRenderer (c : Component) : bool :=
  match c with MeshRenderer => true | _ => false end.
Definition isMeshFilter (c : Component) : bool :=
  match c with MeshFilter _ => true | _ => false end.
Definition isLight (c : Component) : bool :=
  match c with Light _ => true | _ => false end.

(** Modelled from the spec: [GameObject::HasComponent<T>()] (GameObject.h
    is not among the sources), with [T] given by its recogniser. *)
Definition HasComponent (T : Component -> bool) (g : GameObject) : bool :=
  existsb T (m_components g).

(** Modelled from the spec: [GameObject::GetComponent<T>()] (GameObject.h
    is not among the sources): the first attached component of the type,
    [None] for a null result. *)
Definition GetComponent (T : Component -> bool) (g : GameObject) : option Component :=
  find T (m_components g).

(** Modelled from the spec: [Light::GetLightType] (Light.h is not among the
    sources). *)
Definition GetLightType (c : Component) : LightType :=
  match c with Light t => t | _ => OtherLight end.

Definition LightType_eqb (a b : LightType) : bool :=
  match a, b with
  | Directional, Directional | Point, Point | OtherLight, OtherLight => true
  | _, _ => false
  end.

(** Modelled from the spec: [Transform::IsRoot()] (Transform.h is not
    among the sources): the parent reference is null. *)
Definition IsRoot (t : Transform) : bool :=
  match t_parent t with None => true | Some _ => false end.

(** ** The scene *)

Record Scene := mkScene {
  (** live game objects, by address *)
  mem : gmap addr GameObject;
  (** [std::vector<GameObject*> m_gameObjects] *)
  m_gameObjects : list addr;
  m_renderables : list addr;
  m_lightsDirectional : list addr;
  m_lightsPoint : list addr;
  m_mainCamera : ptr;
  m_skybox : ptr
}.

(** The state right after [Scene::Scene]. *)
Definition Scene_new : Scene := mkScene ∅ [] [] [] [] nullptr nullptr.

(** The five derived caches. *)
Record Caches := mkCaches {
  c_renderables : list addr;
  c_lightsDirectional : list addr;
  c_lightsPoint : list addr;
  c_mainCamera : ptr;
  c_skybox : ptr
}.

Definition caches_of (s : Scene) : Caches :=
  mkCaches (m_renderables s) (m_lightsDirectional s) (m_lightsPoint s)
           (m_mainCamera s) (m_skybox s).

Definition set_caches (s : Scene) (c : Caches) : Scene :=
  mkScene (mem s) (m_gameObjects s) (c_renderables c) (c_lightsDirectional c)
          (c_lightsPoint c) (c_mainCamera c) (c_skybox c).

Definition Caches_empty : Caches := mkCaches [] [] [] nullptr nullptr.

(** One iteration of the loop of [Scene::Resolve] on the object [g] at
    address [a]. *)
Definition Resolve_step (a : addr) (g : GameObject) (c : Caches) : Caches :=
  let c1 := if HasComponent isCamera g
            then mkCaches (c_renderables c) (c_lightsDirectional c) (c_lightsPoint c)
                          (Some a) (c_skybox c)
            else c in
  let c2 := if HasComponent isSkybox g
            then mkCaches (c_renderables c1) (c_lightsDirectional c1) (c_lightsPoint c1)
                          (c_mainCamera c1) (Some a)
            else c1 in
  let c3 := if HasComponent isMeshRenderer g && HasComponent isMeshFilter g
            then mkCaches (c_renderables c2 ++ [a]) (c_lightsDirectional c2)
                          (c_lightsPoint c2) (c_mainCamera c2) (c_skybox c2)
            else c2 in
  match GetComponent isLight g with
  | Some l =>
      if LightType_eqb (GetLightType l) Directional
      then mkCaches (c_renderables c3) (c_lightsDirectional c3 ++ [a])
                    (c_lightsPoint c3) (c_mainCamera c3) (c_skybox c3)
      else if LightType_eqb (GetLightType l) Point
      then mkCaches (c_renderables c3) (c_lightsDirectional c3)
                    (c_lightsPoint c3 ++ [a]) (c_mainCamera c3) (c_skybox c3)
      else c3
  | None => c3
  end.

(** The range-for of [Scene::Resolve] over [m_gameObjects]. *)
Fixpoint Resolve_loop (h : gmap addr GameObject) (l : list addr) (c : Caches)
  : option Caches :=
  match l with
  | [] => Some c
  | a :: l' => g ← h !! a; Resolve_loop h l' (Resolve_step a g c)
  end.

(** [Scene::Resolve]: the caches are cleared, then rebuilt. *)
Definition Resolve (s : Scene) : option Scene :=
  c ← Resolve_loop (mem s) (m_gameObjects s) Caches_empty;
  Some (set_caches s c).

(** ** Registry operations *)

(** A loop whose body may hit undefined behaviour. *)
Fixpoint for_each {St A : Type} (body : St -> A -> option St) (s : St) (l : list A)
  : option St :=
  match l with
  | [] => Some s
  | x :: l' => s' ← body s x; for_each body s' l'
  end.

(** Modelled from the spec: the constructor of [GameObject] (GameObject.cpp
    is not among the sources).  The factory assigns the identifier and
    attaches the default transform; [guid] is the identifier the generator
    hands out. *)
Definition GameObject_new (guid : string) : GameObject :=
  mkGameObject guid "GameObject" true []
               (mkTransform Vector3_Zero Vector3_Forward nullptr []).

(** [new GameObject]: any address that is not live. *)
Definition alloc (h : gmap addr GameObject) : addr := fresh (dom h).

(** [Scene::CreateGameObject]. *)
Definition CreateGameObject (guid : string) (s : Scene) : option (Scene * addr) :=
  let gameObject := alloc (mem s) in
  s' ← Resolve (mkScene (<[gameObject := GameObject_new guid]> (mem s))
                        (m_gameObjects s ++ [gameObject])
                        (m_renderables s) (m_lightsDirectional s) (m_lightsPoint s)
                        (m_mainCamera s) (m_skybox s));
  Some (s', gameObject).

(** [Scene::GetRootGameObjects]. *)
Fixpoint GetRootGameObjects_loop (h : gmap addr GameObject) (l : list addr)
  : option (list addr) :=
  match l with
  | [] => Some []
  | a :: l' =>
      g ← h !! a;
      roots ← GetRootGameObjects_loop h l';
      Some (if IsRoot (m_transform g) then a :: roots else roots)
  end.

Definition GetRootGameObjects (s : Scene) : option (list addr) :=
  GetRootGameObjects_loop (mem s) (m_gameObjects s).

(** [Scene::GetGameObjectByName]. *)
Fixpoint GetGameObjectByName_loop (h : gmap addr GameObject) (l : list addr)
    (name : string) : option ptr :=
  match l with
  | [] => Some nullptr
  | a :: l' =>
      g ← h !! a;
      if decide (m_name g = name) then Some (Some a)
      else GetGameObjectByName_loop h l' name
  end.

Definition GetGameObjectByName (s : Scene) (name : string) : option ptr :=
  GetGameObjectByName_loop (mem s) (m_gameObjects s) name.

(** [Scene::GetGameObjectByID]. *)
Fixpoint GetGameObjectByID_loop (h : gmap addr GameObject) (l : list addr)
    (ID : string) : option ptr :=
  match l with
  | [] => Some nullptr
  | a :: l' =>
      g ← h !! a;
      if decide (m_ID g = ID) then Some (Some a)
      else GetGameObjectByID_loop h l' ID
  end.

Definition GetGameObjectByID (s : Scene) (ID : string) : option ptr :=
  GetGameObjectByID_loop (mem s) (m_gameObjects s) ID.

(** [Scene::GameObjectExists]. *)
Definition GameObjectExists (s : Scene) (gameObject : ptr) : option bool :=
  match gameObject with
  | None => Some false
  | Some p =>
      g ← mem s !! p;
      r ← GetGameObjectByID s (m_ID g);
      Some (match r with Some _ => true | None => false end)
  end.

(** The iterator loop of [Scene::RemoveSingleGameObject]: [done] are the
    entries already passed, [rest] the ones from [it] on. *)
Fixpoint RemoveSingleGameObject_loop (s : Scene) (p : addr)
    (done rest : list addr) : option Scene :=
  match rest with
  | [] => Some s
  | temp :: rest' =>
      t ← mem s !! temp;
      g ← mem s !! p;
      if decide (m_ID t = m_ID g) then
        Resolve (mkScene (delete temp (mem s)) (done ++ rest')
                         (m_renderables s) (m_lightsDirectional s)
                         (m_lightsPoint s) (m_mainCamera s) (m_skybox s))
      else RemoveSingleGameObject_loop s p (done ++ [temp]) rest'
  end.

(** [Scene::RemoveSingleGameObject]. *)
Definition RemoveSingleGameObject (s : Scene) (gameObject : ptr) : option Scene :=
  match gameObject with
  | None => Some s
  | Some p => RemoveSingleGameObject_loop s p [] (m_gameObjects s)
  end.

(** Modelled from the spec: [Transform::GetDescendants] (Transform.cpp is
    not among the sources), the recursive pre-order collection of the
    descendants of a transform.  [fuel] bounds the depth of the recursion. *)
Fixpoint GetDescendants (fuel : nat) (h : gmap addr GameObject) (t : addr)
  : option (list addr) :=
  match fuel with
  | 0 => None
  | S fuel' =>
      g ← h !! t;
      dss ← mapM (fun child => ds ← GetDescendants fuel' h child; Some (child :: ds))
                 (t_children (m_transform g));
      Some (concat dss)
  end.

Definition set_children (cs : list addr) (g : GameObject) : GameObject :=
  mkGameObject (m_ID g) (m_name g) (m_hierarchyVisibility g) (m_components g)
    (mkTransform (t_position (m_transform g)) (t_forward (m_transform g))
                 (t_parent (m_transform g)) cs).

Definition push_child (child : addr) (g : GameObject) : GameObject :=
  set_children (t_children (m_transform g) ++ [child]) g.

(** Modelled from the spec: [Transform::ResolveChildrenRecursively]
    (Transform.cpp is not among the sources) rebuilds the child set of the
    transform [t] from the parent references of the registered game objects
    and does the same for every child found.  [fuel] bounds the depth of
    the recursion. *)
Fixpoint ResolveChildrenRecursively (fuel : nat) (gameObjects : list addr)
    (h : gmap addr GameObject) (t : addr) : option (gmap addr GameObject) :=
  match fuel with
  | 0 => None
  | S fuel' =>
      _ ← h !! t;
      for_each
        (fun h' possibleChild =>
           g ← h' !! possibleChild;
           match t_parent (m_transform g) with
           | None => Some h'
           | Some q =>
               if decide (q = t)
               then ResolveChildrenRecursively fuel' gameObjects
                      (alter (push_child possibleChild) t h') possibleChild
               else Some h'
           end)
        (alter (set_children []) t h) gameObjects
  end.

Definition set_mem (s : Scene) (h : gmap addr GameObject) : Scene :=
  mkScene h (m_gameObjects s) (m_renderables s) (m_lightsDirectional s)
          (m_lightsPoint s) (m_mainCamera s) (m_skybox s).

(** [Scene::RemoveGameObject]: removes a game object and all of its
    descendants. *)
Definition RemoveGameObject (fuel : nat) (s : Scene) (gameObject : ptr)
  : option Scene :=
  match gameObject with
  | None => Some s
  | Some p =>
      descendants ← GetDescendants fuel (mem s) p;
      s1 ← for_each (fun s' descendant =>
                       _ ← mem s' !! descendant;
                       RemoveSingleGameObject s' (Some descendant))
                    s descendants;
      g ← mem s1 !! p;
      let parent := t_parent (m_transform g) in
      s2 ← RemoveSingleGameObject s1 (Some p);
      match parent with
      | None => Some s2
      | Some q =>
          h ← ResolveChildrenRecursively fuel (m_gameObjects s2) (mem s2) q;
          Some (set_mem s2 h)
      end
  end.

(** ** Views used to state the properties *)

(** The registry with every pointer dereferenced, in registry order. *)
Definition registry_objects (s : Scene) : option (list (addr * GameObject)) :=
  mapM (fun a => g ← mem s !! a; Some (a, g)) (m_gameObjects s).

Definition isRenderable (g : GameObject) : bool :=
  HasComponent isMeshRenderer g && HasComponent isMeshFilter g.

Definition hasLightOfType (t : LightType) (g : GameObject) : bool :=
  match GetComponent isLight g with
  | Some l => LightType_eqb (GetLightType l) t
  | None => false
  end.

(** The addresses of the objects that satisfy [P], in the order of [objs]. *)
Definition select (P : GameObject -> bool) (objs : list (addr * GameObject))
  : list addr :=
  map fst (List.filter (fun ag => P (snd ag)) objs).

(** The classification of a list of objects, from scratch. *)
Definition classify (objs : list (addr * GameObject)) : Caches :=
  mkCaches (select isRenderable objs)
           (select (hasLightOfType Directional) objs)
           (select (hasLightOfType Point) objs)
           (last (select (HasComponent isCamera) objs))
           (last (select (HasComponent isSkybox) objs)).

(** The caches [c] extended by the caches [d] of a later part of the registry. *)
Definition Caches_app (c d : Caches) : Caches :=
  mkCaches (c_renderables c ++ c_renderables d)
           (c_lightsDirectional c ++ c_lightsDirectional d)
           (c_lightsPoint c ++ c_lightsPoint d)
           (match c_mainCamera d with Some a => Some a | None => c_mainCamera c end)
           (match c_skybox d with Some a => Some a | None => c_skybox c end).

(** Heaps that agree on everything but the child lists of the transforms. *)
Definition same_but_children (h h' : gmap addr GameObject) : Prop :=
  forall a, set_children [] <$> h !! a = set_children [] <$> h' !! a.

(** The caches of [s] are what a resolution would compute. *)
Definition caches_resolved (s : Scene) : Prop := Resolve s = Some s.

(** Structural operations on the registry. *)
Inductive Op :=
  | OpCreate (guid : string)
  | OpRemove (fuel : nat) (gameObject : ptr).

Definition step (s : Scene) (op : Op) : option Scene :=
  match op with
  | OpCreate guid => fst <$> CreateGameObject guid s
  | OpRemove fuel gameObject => RemoveGameObject fuel s gameObject
  end.

(** The states reached from [s0] by create and remove operations. *)
Inductive reachable (s0 : Scene) : Scene -> Prop :=
  | reachable_refl : reachable s0 s0
  | reachable_step s op s' :
      reachable s0 s -> step s op = Some s' -> reachable s0 s'.

(** [run s ops]: the operations of [ops] in turn, starting from [s]. *)
Definition run : Scene -> list Op -> option Scene := for_each step.

(** ** Example scenes *)

Definition transform_at (parent : ptr) (children : list addr) : Transform :=
  mkTransform Vector3_Zero Vector3_Forward parent children.

Definition unit_box : Vector3 := mkVector3 F32.one F32.one F32.one.

(** A scene with two cameras and two skyboxes: camera, skybox, directional
    light, second camera, a mesh below the light, second skybox, point
    light. *)
Definition demo_camera : GameObject :=
  mkGameObject "id-cam" "Camera" true
    [Camera F32.one F32.thousand; Script "MouseLook.as"] (transform_at nullptr []).
Definition demo_skybox : GameObject :=
  mkGameObject "id-sky" "Skybox" false [LineRenderer; Skybox]
    (transform_at nullptr []).
Definition demo_sun : GameObject :=
  mkGameObject "id-sun" "DirectionalLight" true [Light Directional]
    (transform_at nullptr [5]).
Definition demo_camera2 : GameObject :=
  mkGameObject "id-cam2" "Camera" true [Camera F32.one F32.thousand]
    (transform_at nullptr []).
Definition demo_mesh : GameObject :=
  mkGameObject "id-mesh" "Cube" true [MeshFilter unit_box; MeshRenderer]
    (transform_at (Some 3) [7]).
Definition demo_skybox2 : GameObject :=
  mkGameObject "id-sky2" "Skybox" false [Skybox] (transform_at nullptr []).
Definition demo_lamp : GameObject :=
  mkGameObject "id-lamp" "Lamp" true [Light Point] (transform_at (Some 5) []).

Definition demo_mem : gmap addr GameObject :=
  <[1 := demo_camera]> (<[2 := demo_skybox]> (<[3 := demo_sun]>
  (<[4 := demo_camera2]> (<[5 := demo_mesh]> (<[6 := demo_skybox2]>
  (<[7 := demo_lamp]> ∅)))))).

Definition demo_objects : list (addr * GameObject) :=
  [(1, demo_camera); (2, demo_skybox); (3, demo_sun); (4, demo_camera2);
   (5, demo_mesh); (6, demo_skybox2); (7, demo_lamp)].

Definition demo_unresolved : Scene :=
  mkScene demo_mem [1; 2; 3; 4; 5; 6; 7] [7] [] [1] (Some 2) nullptr.

Definition demo : Scene :=
  mkScene demo_mem [1; 2; 3; 4; 5; 6; 7] [5] [3] [7] (Some 4) (Some 6).

Definition demo_ops : list Op :=
  [OpCreate "id-new"; OpRemove 4 (Some 3); OpRemove 4 nullptr; OpCreate "id-sky"].

(** ** Well-formed scenes *)

(** Every registered pointer is live, no game object is registered twice,
    and identifiers are unique among the registered game objects. *)
Record wf (s : Scene) : Prop := mk_wf {
  wf_live : forall a, a ∈ m_gameObjects s -> is_Some (mem s !! a);
  wf_nodup : NoDup (m_gameObjects s);
  wf_ids : forall a b ga gb,
      a ∈ m_gameObjects s -> b ∈ m_gameObjects s ->
      mem s !! a = Some ga -> mem s !! b = Some gb ->
      m_ID ga = m_ID gb -> a = b
}.

(** [s'] is [s] with the game objects at the addresses [k] deleted and
    erased from the registry. *)
Definition removed (k : list addr) (s s' : Scene) : Prop :=
  m_gameObjects s' = list_difference (m_gameObjects s) k /\
  forall a, mem s' !! a = if decide (a ∈ k) then None else mem s !! a.

(** The parent reference of the object at [a] is [t]. *)
Definition parent_is (h : gmap addr GameObject) (t a : addr) : bool :=
  match h !! a with
  | Some g => bool_decide (t_parent (m_transform g) = Some t)
  | None => false
  end.

(** [rank] decreases from every parent to its children: the parent
    references of the objects of [l] form no cycle. *)
Definition ranked (rank : addr -> nat) (l : list addr)
    (h : gmap addr GameObject) : Prop :=
  forall a g q, a ∈ l -> h !! a = Some g ->
                t_parent (m_transform g) = Some q -> rank a < rank q.

(** The child list of the transform at [t]. *)
Definition children_of (h : gmap addr GameObject) (t : addr) : option (list addr) :=
  g ← h !! t; Some (t_children (m_transform g)).


(** The game object [g] at [E] can be removed from [s] with recursion depth
    [fuel]: [E] is registered, its descendants [ds] are registered game
    objects, distinct from each other and from [E], the parent references
    form no cycle, and the parent of [E], if any, is registered and is not
    below [E]. *)
Record removable (fuel : nat) (rank : addr -> nat) (s : Scene)
    (E : addr) (g : GameObject) (ds : list addr) : Prop := mk_removable {
  rm_registered : E ∈ m_gameObjects s;
  rm_object : mem s !! E = Some g;
  rm_descendants : GetDescendants fuel (mem s) E = Some ds;
  rm_distinct : NoDup (E :: ds);
  rm_descendants_registered : forall d, d ∈ ds -> d ∈ m_gameObjects s;
  rm_acyclic : ranked rank (m_gameObjects s) (mem s);
  rm_parent : forall q, t_parent (m_transform g) = Some q ->
      q ∈ m_gameObjects s /\ (q ∉ E :: ds) /\ rank q < fuel
}.

(** Depth ranks for the example scene: the light, the mesh below it, the
    lamp below the mesh. *)
Definition demo_rank (a : addr) : nat :=
  match a with
  | 3 => 2
  | 5 => 1
  | _ => 0
  end.


(** ** Picking *)

(** [Scene::RaySphereIntersect]: the sphere is centred at the origin. *)
Definition RaySphereIntersect (rayOrigin rayDirection : Vector3) (radius : float)
  : bool :=
  let a := F32.add (F32.add (F32.mul (vx rayDirection) (vx rayDirection))
                            (F32.mul (vy rayDirection) (vy rayDirection)))
                   (F32.mul (vz rayDirection) (vz rayDirection)) in
  let b := F32.mul (F32.add (F32.add (F32.mul (vx rayDirection) (vx rayOrigin))
                                     (F32.mul (vy rayDirection) (vy rayOrigin)))
                            (F32.mul (vz rayDirection) (vz rayOrigin)))
                   F32.two in
  let c := F32.sub (F32.add (F32.add (F32.mul (vx rayOrigin) (vx rayOrigin))
                                     (F32.mul (vy rayOrigin) (vy rayOrigin)))
                            (F32.mul (vz rayOrigin) (vz rayOrigin)))
                   (F32.mul radius radius) in
  let discriminant := F32.sub (F32.pow2 b) (F32.mul (F32.mul F32.four a) c) in
  if F32.ltb discriminant F32.zero then false else true.

(** The radius of the bounding sphere: the largest absolute extent. *)
Definition bounding_radius (extent : Vector3) : float :=
  F32.max (F32.max (F32.abs (vx extent)) (F32.abs (vy extent)))
          (F32.abs (vz extent)).

(** Modelled from the spec: [MeshFilter::GetBoundingBox] (MeshFilter.h is
    not among the sources), the extent of the bounding box. *)
Definition GetBoundingBox (c : Component) : Vector3 :=
  match c with MeshFilter b => b | _ => Vector3_Zero end.

(** Modelled from the spec: [Camera::GetNearPlane] and
    [Camera::GetFarPlane] (Camera.h is not among the sources). *)
Definition GetNearPlane (c : Component) : float :=
  match c with Camera n _ => n | _ => F32.zero end.
Definition GetFarPlane (c : Component) : float :=
  match c with Camera _ f => f | _ => F32.zero end.

(** The straight-line distance computed by the selection loop of
    [Scene::MousePick]. *)
Definition distance (posA posB : Vector3) : float :=
  F32.sqrt (F32.add (F32.add (F32.pow2 (F32.sub (vx posB) (vx posA)))
                             (F32.pow2 (F32.sub (vy posB) (vy posA))))
                    (F32.pow2 (F32.sub (vz posB) (vz posA)))).

(** Modelled from the spec: [Transform::GetPosition] and
    [Transform::GetForward] (Transform.h is not among the sources), through
    the transform of the game object. *)
Definition GetPosition (g : GameObject) : Vector3 := t_position (m_transform g).
Definition GetForward (g : GameObject) : Vector3 := t_forward (m_transform g).

(** The intersection test of one renderable [g]: hit by the pick ray, and
    not hit by the ray from the camera position along its forward vector. *)
Definition pick_candidate (rayOrigin rayDirection : Vector3) (camera : GameObject)
    (radius : float) : bool :=
  if RaySphereIntersect rayOrigin rayDirection radius
  then if negb (RaySphereIntersect (GetPosition camera) (GetForward camera) radius)
       then true else false
  else false.

(** The first loop of [Scene::MousePick], over [m_renderables]. *)
Fixpoint MousePick_intersect (h : gmap addr GameObject)
    (rayOrigin rayDirection : Vector3) (camera : GameObject) (l : list addr)
  : option (list addr) :=
  match l with
  | [] => Some []
  | gameObject :: l' =>
      g ← h !! gameObject;
      if HasComponent isSkybox g
      then MousePick_intersect h rayOrigin rayDirection camera l'
      else
        meshFilter ← GetComponent isMeshFilter g;
        let radius := bounding_radius (GetBoundingBox meshFilter) in
        rest ← MousePick_intersect h rayOrigin rayDirection camera l';
        Some (if pick_candidate rayOrigin rayDirection camera radius
              then gameObject :: rest else rest)
  end.

(** The second loop of [Scene::MousePick]: the closest of the intersected
    game objects, starting from [minDistance] and [clostestGameObject]. *)
Fixpoint MousePick_closest (h : gmap addr GameObject) (camera : GameObject)
    (l : list addr) (minDistance : float) (clostestGameObject : ptr)
  : option ptr :=
  match l with
  | [] => Some clostestGameObject
  | gameObject :: l' =>
      g ← h !! gameObject;
      let d := distance (GetPosition g) (GetPosition camera) in
      if F32.ltb d minDistance
      then MousePick_closest h camera l' d (Some gameObject)
      else MousePick_closest h camera l' minDistance clostestGameObject
  end.

Section Picking.

(** What [Scene::MousePick] takes from code that is not among the
    sources: the output resolution, converted to [float]; the product of
    a vector with the inverse view-projection matrix of the camera held
    by a game object; the normalisation of a vector. *)
Variable RESOLUTION_WIDTH RESOLUTION_HEIGHT : float.
Variable TransformByViewProjectionInv : GameObject -> Vector3 -> Vector3.
Variable Normalized : Vector3 -> Vector3.

(** The mouse position in normalised device coordinates. *)
Definition MousePick_ndc (mousePos : Vector2) : Vector2 :=
  mkVector2
    (F32.sub (F32.div (F32.mul F32.two (v2x mousePos)) RESOLUTION_WIDTH) F32.one)
    (F32.mul (F32.sub (F32.div (F32.mul F32.two (v2y mousePos)) RESOLUTION_HEIGHT)
                      F32.one)
             (SFopp F32.one)).

(** The world-space pick ray: origin and direction. *)
Definition MousePick_ray (camera : GameObject) (cameraComponent : Component)
    (mousePos : Vector2) : Vector3 * Vector3 :=
  let ndc := MousePick_ndc mousePos in
  let rayOrigin :=
    TransformByViewProjectionInv camera
      (mkVector3 (v2x ndc) (v2y ndc) (GetNearPlane cameraComponent)) in
  let rayEnd :=
    TransformByViewProjectionInv camera
      (mkVector3 (v2x ndc) (v2y ndc) (GetFarPlane cameraComponent)) in
  (rayOrigin, Normalized (Vector3_sub rayEnd rayOrigin)).

(** The game objects that reach the selection loop. *)
Definition MousePick_candidates (s : Scene) (mousePos : Vector2)
  : option (list addr) :=
  mainCamera ← m_mainCamera s;
  camera ← mem s !! mainCamera;
  cameraComponent ← GetComponent isCamera camera;
  let ray := MousePick_ray camera cameraComponent mousePos in
  MousePick_intersect (mem s) (fst ray) (snd ray) camera (m_renderables s).

(** [Scene::MousePick]: the picked game object, and [mousePos] as the
    call leaves it. *)
Definition MousePick (s : Scene) (mousePos : Vector2) : option (ptr * Vector2) :=
  mainCamera ← m_mainCamera s;
  camera ← mem s !! mainCamera;
  cameraComponent ← GetComponent isCamera camera;
  let ray := MousePick_ray camera cameraComponent mousePos in
  intersectedGameObjects ←
    MousePick_intersect (mem s) (fst ray) (snd ray) camera (m_renderables s);
  clostestGameObject ←
    MousePick_closest (mem s) camera intersectedGameObjects F32.thousand nullptr;
  Some (clostestGameObject, MousePick_ndc mousePos).

End Picking.


(** ** The order of binary32 values *)

(** A key whose lexicographic order is the order of the floats that are not
    NaN: class, then exponent, then mantissa, mirrored for negative values. *)
Definition float_key (x : float) : option (Z * Z * Z) :=
  match x with
  | S754_nan => None
  | S754_infinity true => Some (-2, 0, 0)%Z
  | S754_finite true m e => Some (-1, - e, Zneg m)%Z
  | S754_zero _ => Some (0, 0, 0)%Z
  | S754_finite false m e => Some (1, e, Zpos m)%Z
  | S754_infinity false => Some (2, 0, 0)%Z
  end.

Definition key_lt (k1 k2 : Z * Z * Z) : Prop :=
  let '(a1, b1, c1) := k1 in
  let '(a2, b2, c2) := k2 in
  (a1 < a2 \/ (a1 = a2 /\ (b1 < b2 \/ (b1 = b2 /\ c1 < c2))))%Z.


(** The distance from the camera that the selection loop computes for the
    game object at [a]. *)
Definition pick_distance (h : gmap addr GameObject) (camera : GameObject)
    (a : addr) : float :=
  match h !! a with
  | Some g => distance (GetPosition g) (GetPosition camera)
  | None => S754_nan
  end.

(** The renderable at [a] passes the intersection tests of [MousePick]. *)
Definition is_candidate (h : gmap addr GameObject)
    (rayOrigin rayDirection : Vector3) (camera : GameObject) (a : addr) : bool :=
  match h !! a with
  | Some g =>
      if HasComponent isSkybox g then false
      else match GetComponent isMeshFilter g with
           | Some meshFilter =>
               pick_candidate rayOrigin rayDirection camera
                 (bounding_radius (GetBoundingBox meshFilter))
           | None => false
           end
  | None => false
  end.

(** [r] is the selection among [cands]: nothing when no candidate is below
    1000; otherwise a candidate below 1000 that no candidate is closer
    than, and the first one at its distance. *)
Definition is_closest (h : gmap addr GameObject) (camera : GameObject)
    (cands : list addr) (r : ptr) : Prop :=
  match r with
  | None =>
      forall b, b ∈ cands ->
                F32.ltb (pick_distance h camera b) F32.thousand = false
  | Some a =>
      F32.ltb (pick_distance h camera a) F32.thousand = true /\
      (forall b, b ∈ cands ->
         F32.ltb (pick_distance h camera b) (pick_distance h camera a) = false) /\
      exists pre post,
        cands = pre ++ a :: post /\
        forall b, b ∈ pre ->
          F32.eqb (pick_distance h camera b) (pick_distance h camera a) = false
  end.


(** The radius of the bounding sphere that [MousePick] tests for the
    renderable at [a]; none for a skybox. *)
Definition sphere_radius (h : gmap addr GameObject) (a : addr) : option float :=
  g ← h !! a;
  if HasComponent isSkybox g then None
  else meshFilter ← GetComponent isMeshFilter g;
       Some (bounding_radius (GetBoundingBox meshFilter)).

(** The ray from [origin] along [direction] intersects the bounding sphere
    of the renderable at [a]. *)
Definition hit_by (origin direction : Vector3) (h : gmap addr GameObject)
    (a : addr) : bool :=
  match sphere_radius h a with
  | Some radius => RaySphereIntersect origin direction radius
  | None => false
  end.

(** ** Example scenes for picking *)

Definition Vector3_add (a b : Vector3) : Vector3 :=
  mkVector3 (F32.add (vx a) (vx b)) (F32.add (vy a) (vy b)) (F32.add (vz a) (vz b)).

(** A camera without rotation and with the identity projection: the
    inverse view-projection is the translation by the camera position. *)
Definition translate_by_camera (camera : GameObject) (v : Vector3) : Vector3 :=
  Vector3_add (GetPosition camera) v.

(** The vector divided by its length. *)
Definition normalize (v : Vector3) : Vector3 :=
  let len := F32.sqrt (F32.add (F32.add (F32.mul (vx v) (vx v))
                                        (F32.mul (vy v) (vy v)))
                               (F32.mul (vz v) (vz v))) in
  mkVector3 (F32.div (vx v) len) (F32.div (vy v) len) (F32.div (vz v) len).

Definition f32 (z : Z) : float := F32.of_Z z.
Definition half : float := F32.div F32.one F32.two.

Definition pick_camera : GameObject :=
  mkGameObject "id-cam" "Camera" true [Camera F32.one F32.thousand]
    (mkTransform (mkVector3 (f32 1) (f32 0) (f32 (-5))) Vector3_Forward nullptr []).

Definition cube_at (ID : string) (position : Vector3) : GameObject :=
  mkGameObject ID "Cube" true
    [MeshFilter (mkVector3 half half half); MeshRenderer]
    (mkTransform position Vector3_Forward nullptr []).

(** One cube at the origin, seen from the camera at (1, 0, -5). *)
Definition pick_scene : Scene :=
  mkScene (<[1 := pick_camera]> (<[2 := cube_at "id-cube" Vector3_Zero]> ∅))
          [1; 2] [2] [] [] (Some 1) nullptr.

(** The same, with the cube 2000 units down the z axis. *)
Definition far_scene : Scene :=
  mkScene (<[1 := pick_camera]>
           (<[2 := cube_at "id-cube" (mkVector3 (f32 0) (f32 0) (f32 2000))]> ∅))
          [1; 2] [2] [] [] (Some 1) nullptr.

(** Three cubes: two at the same distance from the camera and one far. *)
Definition tie_scene : Scene :=
  mkScene (<[1 := pick_camera]>
           (<[2 := cube_at "id-far" (mkVector3 (f32 0) (f32 0) (f32 2000))]>
           (<[3 := cube_at "id-left" Vector3_Zero]>
           (<[4 := cube_at "id-right" (mkVector3 (f32 2) (f32 0) (f32 0))]> ∅))))
          [1; 2; 3; 4] [2; 3; 4] [] [] (Some 1) nullptr.

(** The left edge of a 1920 x 1080 viewport, at half height. *)
Definition pick_left : Vector2 := mkVector2 (f32 0) (f32 540).


(** ** Persistence *)

(** *** The serializer *)

(** Modelled from the spec: the stream of [Serializer] (IO/Serializer.cpp is
    not among the sources), a sequential binary stream of signed 32-bit
    counts, length-prefixed strings and component fields.  A stream is the
    sequence of the values written. *)
Inductive Token :=
  | TInt (z : Z)
  | TStr (s : string)
  | TBool (b : bool)
  | TFloat (f : float).

(** The conversion [(int)] of a size. *)
Definition int32 (z : Z) : Z := ((z + 2 ^ 31) mod 2 ^ 32 - 2 ^ 31)%Z.

(** Modelled from the spec: the write operations of [Serializer], each as
    the values it appends to the stream; a vector of strings is its count
    followed by the strings. *)
Definition WriteInt (z : Z) : list Token := [TInt z].
Definition WriteSTR (s : string) : list Token := [TStr s].
Definition WriteBool (b : bool) : list Token := [TBool b].
Definition WriteFloat (f : float) : list Token := [TFloat f].
Definition WriteVector3 (v : Vector3) : list Token :=
  WriteFloat (vx v) ++ WriteFloat (vy v) ++ WriteFloat (vz v).
Definition WriteVectorSTR (v : list string) : list Token :=
  WriteInt (int32 (Z.of_nat (length v))) ++ concat (map WriteSTR v).

(** Modelled from the spec: the read operations of [Serializer], each
    giving the value read and the rest of the stream.  A read that does not
    find a value of the kind it asks for is outside the model and gives
    [None]. *)
Definition ReadInt (st : list Token) : option (Z * list Token) :=
  match st with TInt z :: st' => Some (z, st') | _ => None end.
Definition ReadSTR (st : list Token) : option (string * list Token) :=
  match st with TStr s :: st' => Some (s, st') | _ => None end.
Definition ReadBool (st : list Token) : option (bool * list Token) :=
  match st with TBool b :: st' => Some (b, st') | _ => None end.
Definition ReadFloat (st : list Token) : option (float * list Token) :=
  match st with TFloat f :: st' => Some (f, st') | _ => None end.
Definition ReadVector3 (st : list Token) : option (Vector3 * list Token) :=
  '(x, st1) ← ReadFloat st;
  '(y, st2) ← ReadFloat st1;
  '(z, st3) ← ReadFloat st2;
  Some (mkVector3 x y z, st3).

(** [n] reads of [read] in a row. *)
Fixpoint read_many {A : Type} (read : list Token -> option (A * list Token))
    (n : nat) (st : list Token) : option (list A * list Token) :=
  match n with
  | 0 => Some ([], st)
  | S n' =>
      '(x, st1) ← read st;
      '(xs, st2) ← read_many read n' st1;
      Some (x :: xs, st2)
  end.

(** Modelled from the spec: [Serializer::ReadVectorSTR], the count and
    then that many strings. *)
Definition ReadVectorSTR (st : list Token) : option (list string * list Token) :=
  '(n, st1) ← ReadInt st;
  read_many ReadSTR (Z.to_nat n) st1.

(** *** Game objects in the stream *)

(** Modelled from the spec: the field layout of the components (the
    component sources are not among the sources): a component writes its
    type and then its own fields. *)
Definition LightType_code (t : LightType) : Z :=
  match t with Directional => 0 | Point => 1 | OtherLight => 2 end.

Definition LightType_of_code (z : Z) : LightType :=
  if (z =? 0)%Z then Directional else if (z =? 1)%Z then Point else OtherLight.

Definition Component_Serialize (c : Component) : list Token :=
  match c with
  | Camera n f => WriteSTR "Camera" ++ WriteFloat n ++ WriteFloat f
  | Skybox => WriteSTR "Skybox"
  | MeshRenderer => WriteSTR "MeshRenderer"
  | MeshFilter b => WriteSTR "MeshFilter" ++ WriteVector3 b
  | Light t => WriteSTR "Light" ++ WriteInt (LightType_code t)
  | LineRenderer => WriteSTR "LineRenderer"
  | Script path => WriteSTR "Script" ++ WriteSTR path
  end.

Definition Component_Deserialize (st : list Token) : option (Component * list Token) :=
  '(type, st1) ← ReadSTR st;
  if decide (type = "Camera") then
    '(n, st2) ← ReadFloat st1; '(f, st3) ← ReadFloat st2; Some (Camera n f, st3)
  else if decide (type = "Skybox") then Some (Skybox, st1)
  else if decide (type = "MeshRenderer") then Some (MeshRenderer, st1)
  else if decide (type = "MeshFilter") then
    '(b, st2) ← ReadVector3 st1; Some (MeshFilter b, st2)
  else if decide (type = "Light") then
    '(t, st2) ← ReadInt st1; Some (Light (LightType_of_code t), st2)
  else if decide (type = "LineRenderer") then Some (LineRenderer, st1)
  else if decide (type = "Script") then
    '(path, st2) ← ReadSTR st1; Some (Script path, st2)
  else None.

(** Modelled from the spec: [GameObject::Serialize] (GameObject.cpp is not
    among the sources).  A game object writes its identifier, name,
    visibility flag, transform and components, then its children, each as
    a recursive record.  [fuel] bounds the depth of the recursion. *)
Fixpoint GameObject_Serialize (fuel : nat) (h : gmap addr GameObject) (a : addr)
  : option (list Token) :=
  match fuel with
  | 0 => None
  | S fuel' =>
      g ← h !! a;
      children ← mapM (GameObject_Serialize fuel' h) (t_children (m_transform g));
      Some (WriteSTR (m_ID g) ++ WriteSTR (m_name g)
            ++ WriteBool (m_hierarchyVisibility g)
            ++ WriteVector3 (t_position (m_transform g))
            ++ WriteVector3 (t_forward (m_transform g))
            ++ WriteInt (int32 (Z.of_nat (length (m_components g))))
            ++ concat (map Component_Serialize (m_components g))
            ++ WriteInt (int32 (Z.of_nat (length (t_children (m_transform g)))))
            ++ concat children)
  end.

(** [count] times [body], threading the state. *)
Fixpoint repeat_n {St : Type} (body : St -> option St) (count : nat) (s : St)
  : option St :=
  match count with
  | 0 => Some s
  | S count' => s' ← body s; repeat_n body count' s'
  end.

Definition set_registry (s : Scene) (h : gmap addr GameObject) (l : list addr)
  : Scene :=
  mkScene h l (m_renderables s) (m_lightsDirectional s) (m_lightsPoint s)
          (m_mainCamera s) (m_skybox s).

(** Modelled from the spec: [GameObject::Deserialize] (GameObject.cpp is
    not among the sources) reads a record into the game object at [a],
    with [parent] as the parent of its transform, and creates the children
    through the scene, which appends them to the registry.  [fuel] bounds
    the depth of the recursion. *)
Fixpoint GameObject_Deserialize (fuel : nat) (a : addr) (parent : ptr)
    (sst : Scene * list Token) : option (Scene * list Token) :=
  match fuel with
  | 0 => None
  | S fuel' =>
      let '(s, st) := sst in
      _ ← mem s !! a;
      '(ID, st1) ← ReadSTR st;
      '(name, st2) ← ReadSTR st1;
      '(visible, st3) ← ReadBool st2;
      '(position, st4) ← ReadVector3 st3;
      '(forward, st5) ← ReadVector3 st4;
      '(componentCount, st6) ← ReadInt st5;
      '(components, st7) ← read_many Component_Deserialize (Z.to_nat componentCount) st6;
      '(childrenCount, st8) ← ReadInt st7;
      let g := mkGameObject ID name visible components
                 (mkTransform position forward parent []) in
      repeat_n
        (fun sst' =>
           let '(s', st') := sst' in
           let child := alloc (mem s') in
           '(s'', st'') ←
             GameObject_Deserialize fuel' child (Some a)
               (set_registry s' (<[child := GameObject_new ""]> (mem s'))
                             (m_gameObjects s' ++ [child]), st');
           Some (set_mem s'' (alter (push_child child) a (mem s'')), st''))
        (Z.to_nat childrenCount)
        (set_mem s (<[a := g]> (mem s)), st8)
  end.


(** *** The context: resource cache, files and subsystems *)

(** Modelled from the spec: the kinds of resource the loader infers from
    the file extension (ResourceManager.h is not among the sources). *)
Inductive ResourceKind := MeshResource | MaterialResource | TextureResource.

(** Calls into subsystems whose state the scene does not read back. *)
Inductive Call :=
  | ResourceManager_SaveResourceMetadata
  | ResourceManager_Unload
  | Scripting_Reset
  | Physics_Reset
  | Renderer_Clear
  | LOG_ERROR (message : string).

(** Modelled from the spec: what the scene reaches through [m_context]
    (Context.h and the subsystems are not among the sources): the resource
    cache, the files, and the subsystem calls made so far.  [ctx_faults]
    schedules the stream-open failures: each attempt to open a stream
    consumes one entry, and [true] makes the attempt fail. *)
Record Context := mkContext {
  ctx_resources : list (ResourceKind * string);
  ctx_files : gmap string (list Token);
  ctx_faults : list bool;
  ctx_calls : list Call
}.

Definition call (c : Call) (ctx : Context) : Context :=
  mkContext (ctx_resources ctx) (ctx_files ctx) (ctx_faults ctx) (ctx_calls ctx ++ [c]).

(** Modelled from the spec: [ResourceManager::GetResourceFilePaths], the
    paths of the loaded resources. *)
Definition GetResourceFilePaths (ctx : Context) : list string :=
  map snd (ctx_resources ctx).

(** Modelled from the spec: [ResourceManager::Load<T>] adds the resource
    to the cache. *)
Definition Load (kind : ResourceKind) (path : string) (ctx : Context) : Context :=
  mkContext (ctx_resources ctx ++ [(kind, path)]) (ctx_files ctx) (ctx_faults ctx)
            (ctx_calls ctx).

(** Modelled from the spec: [ResourceManager::Unload] releases the
    resource cache. *)
Definition Unload (ctx : Context) : Context :=
  call ResourceManager_Unload
       (mkContext [] (ctx_files ctx) (ctx_faults ctx) (ctx_calls ctx)).

(** Modelled from the spec: [FileSystem::FileExists] (FileSystem.h is not
    among the sources). *)
Definition FileExists (ctx : Context) (path : string) : bool :=
  match ctx_files ctx !! path with Some _ => true | None => false end.

(** One attempt to open a stream: whether it succeeds, and the context
    with the fault schedule advanced. *)
Definition open_stream (ctx : Context) : bool * Context :=
  match ctx_faults ctx with
  | [] => (true, ctx)
  | fault :: faults =>
      (negb fault,
       mkContext (ctx_resources ctx) (ctx_files ctx) faults (ctx_calls ctx))
  end.

(** Modelled from the spec: [Serializer::StartReading]: the content of
    the file when the stream opens. *)
Definition StartReading (ctx : Context) (path : string)
  : option (list Token) * Context :=
  let '(ok, ctx') := open_stream ctx in
  (if ok then ctx_files ctx !! path else None, ctx').

(** Modelled from the spec: [Serializer::StartWriting]. *)
Definition StartWriting (ctx : Context) : bool * Context := open_stream ctx.

(** Modelled from the spec: [Serializer::StopWriting]: the file holds
    what was written. *)
Definition StopWriting (ctx : Context) (path : string) (out : list Token) : Context :=
  mkContext (ctx_resources ctx) (<[path := out]> (ctx_files ctx)) (ctx_faults ctx)
            (ctx_calls ctx).

(** [Scene::Clear]. *)
Definition Clear (ctx : Context) (s : Scene) : option (Context * Scene) :=
  h ← for_each (fun h gameObject => _ ← h !! gameObject; Some (delete gameObject h))
               (mem s) (m_gameObjects s);
  Some (call Renderer_Clear (call Physics_Reset (call Scripting_Reset (Unload ctx))),
        mkScene h [] [] [] [] nullptr nullptr).

Section Persistence.

(** From the file-system helpers, which are not among the sources: the
    scene file extension, the extension of a path, and the tests for the
    supported resource files. *)
Variable SCENE_EXTENSION : string.
Variable GetExtensionFromPath : string -> string.
Variable IsSupportedMeshFile IsSupportedMaterialFile IsSupportedImageFile
  : string -> bool.

(** The path [Scene::SaveToFile] writes to. *)
Definition scene_file_path (filePathIn : string) : string :=
  if decide (GetExtensionFromPath filePathIn = SCENE_EXTENSION)
  then filePathIn else filePathIn ++ SCENE_EXTENSION.

(** The game-object part of the stream of [Scene::SaveToFile]: the root
    count, the identifiers of the roots, then the roots. *)
Definition SaveToFile_objects (fuel : nat) (s : Scene) : option (list Token) :=
  rootGameObjects ← GetRootGameObjects s;
  IDs ← mapM (fun root => g ← mem s !! root; Some (WriteSTR (m_ID g)))
             rootGameObjects;
  records ← mapM (GameObject_Serialize fuel (mem s)) rootGameObjects;
  Some (WriteInt (int32 (Z.of_nat (length rootGameObjects)))
        ++ concat IDs ++ concat records).

(** What [Scene::SaveToFile] writes between opening and closing the
    stream: the resource paths, then the game objects. *)
Definition SaveToFile_stream (fuel : nat) (ctx : Context) (s : Scene)
  : option (list Token) :=
  objects ← SaveToFile_objects fuel s;
  Some (WriteVectorSTR (GetResourceFilePaths ctx) ++ objects).

(** [Scene::SaveToFile]. *)
Definition SaveToFile (fuel : nat) (ctx : Context) (s : Scene) (filePathIn : string)
  : option (bool * Context) :=
  let filePath := scene_file_path filePathIn in
  let '(ok, ctx1) := StartWriting (call ResourceManager_SaveResourceMetadata ctx) in
  if negb ok then Some (false, ctx1)
  else
    out ← SaveToFile_stream fuel ctx1 s;
    Some (true, StopWriting ctx1 filePath out).

(** One iteration of the resource loop of [Scene::LoadFromFile]. *)
Definition load_resource (ctx : Context) (resourcePath : string) : Context :=
  if IsSupportedMeshFile resourcePath then Load MeshResource resourcePath ctx
  else if IsSupportedMaterialFile resourcePath
  then Load MaterialResource resourcePath ctx
  else if IsSupportedImageFile resourcePath
  then Load TextureResource resourcePath ctx
  else ctx.

(** The part of [Scene::LoadFromFile] that reads the game objects from the
    reopened stream and resolves. *)
Definition LoadFromFile_objects (fuel : nat) (s : Scene) (st : list Token)
  : option Scene :=
  '(_, st1) ← ReadVectorSTR st;
  '(rootGameObjectCount, st2) ← ReadInt st1;
  sst ← repeat_n
          (fun sst' : Scene * list Token =>
             let '(s', st') := sst' in
             let gameObject := alloc (mem s') in
             '(ID, st'') ← ReadSTR st';
             Some (set_registry s' (<[gameObject := GameObject_new ID]> (mem s'))
                                (m_gameObjects s' ++ [gameObject]), st''))
          (Z.to_nat rootGameObjectCount) (s, st2);
  sst' ← for_each
           (fun (sst' : Scene * list Token) (i : nat) =>
              gameObject ← m_gameObjects (fst sst') !! i;
              GameObject_Deserialize fuel gameObject nullptr sst')
           sst (seq 0 (Z.to_nat rootGameObjectCount));
  Resolve (fst sst').

(** [Scene::LoadFromFile]. *)
Definition LoadFromFile (fuel : nat) (ctx : Context) (s : Scene) (filePath : string)
  : option (bool * Context * Scene) :=
  if negb (FileExists ctx filePath)
  then Some (false, call (LOG_ERROR (filePath ++ " was not found.")) ctx, s)
  else
    '(ctx1, s1) ← Clear ctx s;
    let '(stream, ctx2) := StartReading ctx1 filePath in
    match stream with
    | None => Some (false, ctx2, s1)
    | Some st =>
        '(resourcePaths, _) ← ReadVectorSTR st;
        let ctx3 := fold_left load_resource resourcePaths ctx2 in
        let '(stream', ctx4) := StartReading ctx3 filePath in
        match stream' with
        | None => Some (false, ctx4, s1)
        | Some st' =>
            s2 ← LoadFromFile_objects fuel s1 st';
            Some (true, ctx4, s2)
        end
    end.

End Persistence.

(** *** The scene of the round trip: [A] with a camera and [B] with a
    directional light are roots, [C] with a mesh renderer and a mesh filter
    is a child of [B].  [reg] is the order of the registry. *)
Record EntityData := mkEntityData {
  e_ID : string;
  e_name : string;
  e_visible : bool;
  e_position : Vector3;
  e_forward : Vector3
}.

Definition entity (e : EntityData) (components : list Component)
    (parent : ptr) (children : list addr) : GameObject :=
  mkGameObject (e_ID e) (e_name e) (e_visible e) components
    (mkTransform (e_position e) (e_forward e) parent children).

Definition ABC_mem (A B C : EntityData) (near far : float) (box : Vector3)
  : gmap addr GameObject :=
  <[1 := entity A [Camera near far] nullptr []]>
  (<[2 := entity B [Light Directional] nullptr [3]]>
  (<[3 := entity C [MeshRenderer; MeshFilter box] (Some 2) []]> ∅)).

Definition ABC_scene (reg : list addr) (A B C : EntityData) (near far : float)
    (box : Vector3) : Scene :=
  mkScene (ABC_mem A B C near far box) reg [3] [2] [] (Some 1) nullptr.

(** *** Address-independent views *)

Definition ID_at (h : gmap addr GameObject) (a : addr) : option string :=
  g ← h !! a; Some (m_ID g).

(** An entity as its identifier, name, flag, components, position and
    forward vector, and the identifiers of its parent and children. *)
Definition entity_view (h : gmap addr GameObject) (a : addr)
  : option (string * string * bool * list Component * Vector3 * Vector3
            * option string * list string) :=
  g ← h !! a;
  parent ← match t_parent (m_transform g) with
           | None => Some None
           | Some p => ID ← ID_at h p; Some (Some ID)
           end;
  children ← mapM (ID_at h) (t_children (m_transform g));
  Some (m_ID g, m_name g, m_hierarchyVisibility g, m_components g,
        t_position (m_transform g), t_forward (m_transform g), parent, children).

Definition entities_view (s : Scene) :=
  mapM (entity_view (mem s)) (m_gameObjects s).

(** The caches, by identifier: active camera, skybox, renderables,
    directional lights, point lights. *)
Definition caches_view (s : Scene) :=
  (m_mainCamera s ≫= ID_at (mem s), m_skybox s ≫= ID_at (mem s),
   mapM (ID_at (mem s)) (m_renderables s),
   mapM (ID_at (mem s)) (m_lightsDirectional s),
   mapM (ID_at (mem s)) (m_lightsPoint s)).


(** *** A file-system instance for the examples *)

(** The suffix of [path] from its last dot, empty when there is none. *)
Fixpoint last_dot_suffix (path : string) : option string :=
  match path with
  | EmptyString => None
  | String c rest =>
      match last_dot_suffix rest with
      | Some e => Some e
      | None => if decide (String c EmptyString = ".") then Some path else None
      end
  end.

Definition extension_of (path : string) : string :=
  match last_dot_suffix path with Some e => e | None => "" end.

Definition is_mesh_file (path : string) : bool :=
  bool_decide (extension_of path = ".obj").
Definition is_material_file (path : string) : bool :=
  bool_decide (extension_of path = ".mat").
Definition is_image_file (path : string) : bool :=
  bool_decide (extension_of path = ".png").

(** A context with one loaded mesh, no files and no stream faults. *)
Definition fresh_context : Context :=
  mkContext [(MeshResource, "cube.obj")] ∅ [] [].

(** A context that holds a scene file with one resource path and no game
    object, and a schedule of stream faults. *)
Definition context_with_file (faults : list bool) : Context :=
  mkContext [] {[ "scene.directus" := WriteVectorSTR ["cube.obj"] ++ WriteInt 0 ]}
            faults [].


(** The transform hierarchy of [s] is a forest over the registry: the
    children of a registered game object are registered, distinct, and
    refer back to it as their parent; the parent of a registered game
    object is registered; and [rank] decreases from parent to child, so the
    parent references form no cycle. *)
Record hierarchy_wf (rank : addr -> nat) (s : Scene) : Prop := mk_hierarchy_wf {
  hw_children : forall a g c,
      a ∈ m_gameObjects s -> mem s !! a = Some g ->
      c ∈ t_children (m_transform g) ->
      c ∈ m_gameObjects s /\ parent_is (mem s) a c = true;
  hw_children_nodup : forall a g,
      a ∈ m_gameObjects s -> mem s !! a = Some g ->
      NoDup (t_children (m_transform g));
  hw_parent : forall a g q,
      a ∈ m_gameObjects s -> mem s !! a = Some g ->
      t_parent (m_transform g) = Some q ->
      q ∈ m_gameObjects s /\ rank a < rank q
}.

(** Executable check of [hierarchy_wf]. *)
Definition hierarchy_wfb (rank : addr -> nat) (s : Scene) : bool :=
  forallb
    (fun a =>
       match mem s !! a with
       | None => true
       | Some g =>
           forallb (fun c => bool_decide (c ∈ m_gameObjects s)
                             && parent_is (mem s) a c)
                   (t_children (m_transform g))
           && bool_decide (NoDup (t_children (m_transform g)))
           && match t_parent (m_transform g) with
              | None => true
              | Some q => bool_decide (q ∈ m_gameObjects s)
                          && Nat.ltb (rank a) (rank q)
              end
       end)
    (m_gameObjects s).

(** The [k]-th ancestor of [x] along the parent references. *)
Fixpoint ancestor (h : gmap addr GameObject) (k : nat) (x : addr) : option addr :=
  match k with
  | 0 => Some x
  | S k' => g ← h !! x; p ← t_parent (m_transform g); ancestor h k' p
  end.

(** ** Roots, and further views of the registry *)

(** Every registered pointer is live. *)
Definition live (s : Scene) : Prop :=
  forall a, a ∈ m_gameObjects s -> is_Some (mem s !! a).

(** The object at [a] is live and its transform has no parent. *)
Definition is_root (h : gmap addr GameObject) (a : addr) : bool :=
  match h !! a with
  | Some g => IsRoot (m_transform g)
  | None => false
  end.

(** Modelled from the spec: [Transform::GetRoot] (Transform.cpp is not
    among the sources) walks up the parent references until a transform
    without parent.  [fuel] bounds the length of the walk. *)
Fixpoint GetRoot (fuel : nat) (h : gmap addr GameObject) (t : addr) : option addr :=
  match fuel with
  | 0 => None
  | S fuel' =>
      g ← h !! t;
      match t_parent (m_transform g) with
      | None => Some t
      | Some parent => GetRoot fuel' h parent
      end
  end.

(** [Scene::GetGameObjectRoot]. *)
Definition GetGameObjectRoot (fuel : nat) (s : Scene) (gameObject : ptr)
  : option ptr :=
  match gameObject with
  | None => Some nullptr
  | Some p => root ← GetRoot fuel (mem s) p; Some (Some root)
  end.

(** Two game objects that carry the same identifier. *)
Definition twin_scene : Scene :=
  mkScene (<[1 := cube_at "id-twin" Vector3_Zero]>
           (<[2 := cube_at "id-twin" Vector3_Zero]> ∅))
          [1; 2] [1; 2] [] [] nullptr nullptr.

Section ResourceKinds.

Variable IsSupportedMeshFile IsSupportedMaterialFile IsSupportedImageFile
  : string -> bool.

(** The kind under which the resource loop of [Scene::LoadFromFile] loads
    a path: the first of mesh, material and image whose test accepts the
    path; none when no test does. *)
Definition resource_kind (resourcePath : string) : option ResourceKind :=
  if IsSupportedMeshFile resourcePath then Some MeshResource
  else if IsSupportedMaterialFile resourcePath then Some MaterialResource
  else if IsSupportedImageFile resourcePath then Some TextureResource
  else None.

End ResourceKinds.

(** ** Textures (Directus3D/Graphics/D3D11/D3D11Texture.cpp) *)

(** [int] has 32 bits; an [int] multiplication that overflows is undefined
    behaviour and gives [None]. *)
Definition INT_MIN : Z := (- 2 ^ 31)%Z.
Definition INT_MAX : Z := (2 ^ 31 - 1)%Z.

Definition int_mul (a b : Z) : option Z :=
  let r := (a * b)%Z in
  if (INT_MIN <=? r)%Z && (r <=? INT_MAX)%Z then Some r else None.

(** [std::max(a, b)] is [(a < b) ? b : a]. *)
Definition int_max (a b : Z) : Z := if (a <? b)%Z then b else a.

(** The conversion to [UINT]; a pitch gets there through [size_t]. *)
Definition to_UINT (z : Z) : Z := (z mod 2 ^ 32)%Z.

(** The Direct3D 11 structures, with the members the texture code sets
    (d3d11.h is not among the sources). *)
Inductive DXGI_FORMAT := DXGI_FORMAT_R8G8B8A8_UNORM.
Inductive D3D11_USAGE := D3D11_USAGE_DEFAULT | D3D11_USAGE_IMMUTABLE.
Inductive D3D11_BIND_FLAG := D3D11_BIND_SHADER_RESOURCE | D3D11_BIND_RENDER_TARGET.
Inductive D3D11_RESOURCE_MISC_FLAG := D3D11_RESOURCE_MISC_GENERATE_MIPS.

Record D3D11_SUBRESOURCE_DATA := mkSubresourceData {
  pSysMem : list Byte.byte;
  SysMemPitch : Z;
  SysMemSlicePitch : Z
}.

Record D3D11_TEXTURE2D_DESC := mkTexture2DDesc {
  Width : Z;
  Height : Z;
  MipLevels : Z;
  ArraySize : Z;
  Format : DXGI_FORMAT;
  SampleDesc_Count : Z;
  SampleDesc_Quality : Z;
  Usage : D3D11_USAGE;
  BindFlags : list D3D11_BIND_FLAG;
  MiscFlags : list D3D11_RESOURCE_MISC_FLAG;
  CPUAccessFlags : Z
}.

(** The view description; its dimension is always
    [D3D11_SRV_DIMENSION_TEXTURE2D]. *)
Record D3D11_SHADER_RESOURCE_VIEW_DESC := mkShaderResourceViewDesc {
  srv_Format : DXGI_FORMAT;
  Texture2D_MostDetailedMip : Z;
  Texture2D_MipLevels : Z
}.

(** The loop of [D3D11Texture::CreateFromMipchain]: one subresource and one
    texture description per level of the chain, the extent halved from
    level to level. *)
Fixpoint CreateFromMipchain_loop (m_mipLevels : Z) (m_format : DXGI_FORMAT)
    (width height channels : Z) (mipchain : list (list Byte.byte))
  : option (list D3D11_SUBRESOURCE_DATA * list D3D11_TEXTURE2D_DESC) :=
  match mipchain with
  | [] => Some ([], [])
  | mipLevel :: rest =>
      pitch ← int_mul width channels;
      area ← int_mul width height;
      slicePitch ← int_mul area channels;
      '(subresourceData, textureDescs) ←
        CreateFromMipchain_loop m_mipLevels m_format
          (int_max (Z.quot width 2) 1) (int_max (Z.quot height 2) 1) channels rest;
      Some (mkSubresourceData mipLevel (to_UINT pitch) (to_UINT slicePitch)
              :: subresourceData,
            mkTexture2DDesc (to_UINT width) (to_UINT height) m_mipLevels 1 m_format
              1 0 D3D11_USAGE_IMMUTABLE [D3D11_BIND_SHADER_RESOURCE] [] 0
              :: textureDescs)
  end.

Section Texture.

(** The device, which is not among the sources: what it creates, or [None]
    for a result that [FAILED] accepts. *)
Variable ID3D11Texture2D ID3D11ShaderResourceView : Type.
Variable CreateTexture2D :
  D3D11_TEXTURE2D_DESC -> option (list D3D11_SUBRESOURCE_DATA) ->
  option ID3D11Texture2D.
Variable CreateShaderResourceView :
  ID3D11Texture2D -> D3D11_SHADER_RESOURCE_VIEW_DESC ->
  option ID3D11ShaderResourceView.

Record D3D11Texture := mkD3D11Texture {
  m_shaderResourceView : option ID3D11ShaderResourceView;
  m_format : DXGI_FORMAT;
  m_mipLevels : Z
}.

(** The two device calls that end each of the creation functions: the
    result, the texture object afterwards, and the errors logged. *)
Definition create_view (this : D3D11Texture) (mipLevels : Z)
    (texture : option ID3D11Texture2D) : bool * D3D11Texture * list string :=
  match texture with
  | None =>
      (false, mkD3D11Texture (m_shaderResourceView this) (m_format this) mipLevels,
       ["Failed to create ID3D11Texture2D. Invalid CreateTexture2D() parameters."])
  | Some texture =>
      match CreateShaderResourceView texture
              (mkShaderResourceViewDesc (m_format this) 0 mipLevels) with
      | None =>
          (false,
           mkD3D11Texture (m_shaderResourceView this) (m_format this) mipLevels,
           ["Failed to create the ID3D11ShaderResourceView."])
      | Some view =>
          (true, mkD3D11Texture (Some view) (m_format this) mipLevels, [])
      end
  end.

(** [D3D11Texture::Create]: a texture without mipchain. *)
Definition D3D11Texture_Create (this : D3D11Texture) (width height channels : Z)
    (data : list Byte.byte) : option (bool * D3D11Texture * list string) :=
  pitch ← int_mul width channels;
  area ← int_mul width height;
  slicePitch ← int_mul area channels;
  let subresource := mkSubresourceData data (to_UINT pitch) (to_UINT slicePitch) in
  let textureDesc :=
    mkTexture2DDesc (to_UINT width) (to_UINT height) 1 1 (m_format this) 1 0
      D3D11_USAGE_IMMUTABLE [D3D11_BIND_SHADER_RESOURCE] [] 0 in
  Some (create_view this 1 (CreateTexture2D textureDesc (Some [subresource]))).

(** [D3D11Texture::CreateFromMipchain]: the first description and all the
    subresources go to the device; [&textureDescs[0]] of an empty vector is
    undefined behaviour. *)
Definition D3D11Texture_CreateFromMipchain (this : D3D11Texture)
    (width height channels : Z) (mipchain : list (list Byte.byte))
  : option (bool * D3D11Texture * list string) :=
  let mipLevels := to_UINT (Z.of_nat (length mipchain)) in
  '(subresourceData, textureDescs) ←
    CreateFromMipchain_loop mipLevels (m_format this) width height channels mipchain;
  textureDesc ← textureDescs !! 0;
  _ ← subresourceData !! 0;
  Some (create_view this mipLevels
          (CreateTexture2D textureDesc (Some subresourceData))).

End Texture.

(** The extent of mip level [level] of a texture of extent [size]. *)
Definition mip_extent (size : Z) (level : nat) : Z :=
  Z.max (size / 2 ^ Z.of_nat level) 1.

(* ===================================================================== *)
(** * Properties *)
(* ===================================================================== *)

(** ** Resolution *)

#[local] Arguments Resolve : simpl never.

Lemma Caches_app_empty_l d : Caches_app Caches_empty d = d.
Proof. destruct d as [r ld lp [c|] [k|]]; reflexivity. Qed.

Lemma last_cons_or {A} (x : A) (l : list A) :
  last (x :: l) = match last l with Some y => Some y | None => Some x end.
Proof. rewrite last_cons. destruct (last l); reflexivity. Qed.

Lemma classify_cons a g objs :
  Caches_app (Resolve_step a g Caches_empty) (classify objs)
  = classify ((a, g) :: objs).
Proof.
  unfold classify, select, Resolve_step, isRenderable, hasLightOfType, Caches_app.
  cbn [List.filter snd].
  destruct (HasComponent isCamera g), (HasComponent isSkybox g),
    (HasComponent isMeshRenderer g), (HasComponent isMeshFilter g),
    (GetComponent isLight g) as [l|];
    cbn [andb map fst c_renderables c_lightsDirectional c_lightsPoint
         c_mainCamera c_skybox Caches_empty app];
    try (destruct (GetLightType l));
    cbn [LightType_eqb andb map fst c_renderables c_lightsDirectional c_lightsPoint
         c_mainCamera c_skybox Caches_empty app];
    rewrite ?last_cons_or;
    repeat match goal with
           | |- context [match last ?l with _ => _ end] => destruct (last l)
           end;
    reflexivity.
Qed.

Lemma Resolve_step_app a g c :
  Resolve_step a g c = Caches_app c (Resolve_step a g Caches_empty).
Proof.
  destruct c as [r ld lp cam sky].
  unfold Resolve_step, Caches_app.
  destruct (HasComponent isCamera g), (HasComponent isSkybox g),
    (HasComponent isMeshRenderer g && HasComponent isMeshFilter g),
    (GetComponent isLight g) as [l|];
    cbn [c_renderables c_lightsDirectional c_lightsPoint c_mainCamera c_skybox
         Caches_empty app];
    try (destruct (LightType_eqb (GetLightType l) Directional),
           (LightType_eqb (GetLightType l) Point));
    cbn [c_renderables c_lightsDirectional c_lightsPoint c_mainCamera c_skybox
         Caches_empty app];
    rewrite ?app_nil_r; reflexivity.
Qed.

Lemma Caches_app_assoc c d e :
  Caches_app (Caches_app c d) e = Caches_app c (Caches_app d e).
Proof.
  destruct c, d, e; unfold Caches_app; cbn.
  rewrite <- !app_assoc.
  destruct c_mainCamera2, c_skybox2; reflexivity.
Qed.

Lemma Resolve_loop_classify h l objs c :
  mapM (fun a => g ← h !! a; Some (a, g)) l = Some objs ->
  Resolve_loop h l c = Some (Caches_app c (classify objs)).
Proof.
  revert objs c. induction l as [|a l IH]; intros objs c H.
  - cbn in H. injection H as <-. cbn.
    destruct c; unfold Caches_app, classify, select; cbn.
    rewrite !app_nil_r. reflexivity.
  - cbn in H. destruct (h !! a) as [g|] eqn:Ha; [|discriminate].
    cbn in H.
    destruct (mapM (fun a => g ← h !! a; Some (a, g)) l) as [objs'|] eqn:Hl;
      [|discriminate].
    cbn in H. injection H as <-.
    cbn. rewrite Ha. cbn.
    rewrite (IH objs' _ eq_refl).
    rewrite Resolve_step_app, Caches_app_assoc, classify_cons. reflexivity.
Qed.

Lemma Resolve_classify s objs :
  registry_objects s = Some objs ->
  Resolve s = Some (set_caches s (classify objs)).
Proof.
  intros H. unfold Resolve.
  rewrite (Resolve_loop_classify _ _ objs _ H), Caches_app_empty_l.
  reflexivity.
Qed.

Lemma Resolve_resolved s s1 : Resolve s = Some s1 -> caches_resolved s1.
Proof.
  unfold caches_resolved, Resolve. intros H.
  destruct (Resolve_loop (mem s) (m_gameObjects s) Caches_empty) as [c|] eqn:Hc;
    [|discriminate].
  cbn in H. injection H as <-. cbn. rewrite Hc. reflexivity.
Qed.


Lemma same_but_children_refl h : same_but_children h h.
Proof. intros a. reflexivity. Qed.

Lemma same_but_children_trans h1 h2 h3 :
  same_but_children h1 h2 -> same_but_children h2 h3 -> same_but_children h1 h3.
Proof. intros H12 H23 a. rewrite H12. apply H23. Qed.

Lemma same_but_children_alter cs t h :
  same_but_children h (alter (set_children cs) t h).
Proof.
  intros a. destruct (decide (t = a)) as [->|Hne].
  - rewrite lookup_alter_eq. destruct (h !! a); reflexivity.
  - rewrite lookup_alter_ne by assumption. reflexivity.
Qed.

Lemma same_but_children_push c t h :
  same_but_children h (alter (push_child c) t h).
Proof.
  intros a. destruct (decide (t = a)) as [->|Hne].
  - rewrite lookup_alter_eq. destruct (h !! a); reflexivity.
  - rewrite lookup_alter_ne by assumption. reflexivity.
Qed.

Lemma for_each_inv {St A : Type} (I : St -> Prop) (body : St -> A -> option St) l :
  (forall s x s', In x l -> I s -> body s x = Some s' -> I s') ->
  forall s s', I s -> for_each body s l = Some s' -> I s'.
Proof.
  induction l as [|x l IH]; intros Hbody s s' Hs H; cbn in H.
  - injection H as <-. assumption.
  - destruct (body s x) as [s1|] eqn:Hb; [|discriminate]. cbn in H.
    eapply IH; [| |exact H].
    + intros; eapply Hbody; eauto. right; assumption.
    + eapply Hbody; eauto. left; reflexivity.
Qed.

Lemma ResolveChildrenRecursively_same fuel l h t h' :
  ResolveChildrenRecursively fuel l h t = Some h' -> same_but_children h h'.
Proof.
  revert h t h'. induction fuel as [|fuel IH]; intros h t h' H; [discriminate|].
  cbn in H. destruct (h !! t) as [g0|]; [|discriminate]. cbn in H.
  eapply (for_each_inv (same_but_children h)); [| |exact H].
  - intros h1 x h2 _ H1 Hb. cbv beta in Hb.
    destruct (h1 !! x) as [g|]; [|discriminate]. cbn in Hb.
    destruct (t_parent (m_transform g)) as [q|].
    + destruct (decide (q = t)).
      * apply IH in Hb.
        eapply same_but_children_trans; [exact H1|].
        eapply same_but_children_trans; [|exact Hb].
        apply same_but_children_push.
      * injection Hb as <-. assumption.
    + injection Hb as <-. assumption.
  - apply same_but_children_alter.
Qed.

Lemma Resolve_step_ext a g g' c :
  m_components g = m_components g' -> Resolve_step a g c = Resolve_step a g' c.
Proof.
  intros H. unfold Resolve_step, HasComponent, GetComponent. rewrite H. reflexivity.
Qed.

Lemma Resolve_loop_same h h' l c :
  same_but_children h h' -> Resolve_loop h l c = Resolve_loop h' l c.
Proof.
  intros Hs. revert c. induction l as [|a l IH]; intros c; [reflexivity|].
  cbn. specialize (Hs a).
  destruct (h !! a) as [g|], (h' !! a) as [g'|]; cbn in Hs; try discriminate;
    [|reflexivity].
  cbn. rewrite (Resolve_step_ext a g g' c); [apply IH|].
  injection Hs. auto.
Qed.

Lemma caches_resolved_same s h :
  same_but_children (mem s) h -> caches_resolved s -> caches_resolved (set_mem s h).
Proof.
  unfold caches_resolved, Resolve. intros Hs H. cbn.
  rewrite <- (Resolve_loop_same _ _ _ _ Hs).
  destruct (Resolve_loop (mem s) (m_gameObjects s) Caches_empty) as [c|];
    [|discriminate].
  cbn in *. injection H as H. destruct s. unfold set_caches, set_mem in *.
  cbn in *. injection H as H1 H2 H3 H4 H5.
  rewrite H1, H2, H3, H4, H5. reflexivity.
Qed.

Lemma RemoveSingleGameObject_loop_resolved s p done rest s' :
  caches_resolved s ->
  RemoveSingleGameObject_loop s p done rest = Some s' -> caches_resolved s'.
Proof.
  intros Hs. revert done. induction rest as [|temp rest IH]; intros done H; cbn in H.
  - injection H as <-. assumption.
  - destruct (mem s !! temp) as [t|]; [|discriminate]. cbn in H.
    destruct (mem s !! p) as [g|]; [|discriminate]. cbn in H.
    destruct (decide (m_ID t = m_ID g)).
    + eapply Resolve_resolved; eassumption.
    + eapply IH; eassumption.
Qed.

Lemma RemoveSingleGameObject_resolved s p s' :
  caches_resolved s -> RemoveSingleGameObject s p = Some s' -> caches_resolved s'.
Proof.
  destruct p as [p|]; cbn; intros Hs H.
  - eapply RemoveSingleGameObject_loop_resolved; eassumption.
  - injection H as <-. assumption.
Qed.

Lemma RemoveGameObject_resolved fuel s p s' :
  caches_resolved s -> RemoveGameObject fuel s p = Some s' -> caches_resolved s'.
Proof.
  destruct p as [p|]; cbn; intros Hs H; [|injection H as <-; assumption].
  destruct (GetDescendants fuel (mem s) p) as [ds|]; [|discriminate]. cbn in H.
  match type of H with
  | context [for_each ?b s ds] => destruct (for_each b s ds) as [s1|] eqn:H1
  end; [|discriminate].
  cbn in H.
  assert (caches_resolved s1) as Hs1.
  { eapply (for_each_inv caches_resolved); [|exact Hs|exact H1].
    intros s0 d s0' _ H0 Hb. cbv beta in Hb.
    destruct (mem s0 !! d); [|discriminate]. cbn in Hb.
    eapply RemoveSingleGameObject_loop_resolved; eassumption. }
  destruct (mem s1 !! p) as [g|]; [|discriminate]. cbn in H.
  destruct (RemoveSingleGameObject_loop s1 p [] (m_gameObjects s1)) as [s2|] eqn:H2;
    [|discriminate].
  cbn in H.
  assert (caches_resolved s2) as Hs2
    by (eapply RemoveSingleGameObject_loop_resolved; eassumption).
  destruct (t_parent (m_transform g)) as [q|]; [|injection H as <-; assumption].
  destruct (ResolveChildrenRecursively fuel (m_gameObjects s2) (mem s2) q)
    as [h|] eqn:Hr; [|discriminate].
  cbn in H. injection H as <-.
  apply caches_resolved_same; [|assumption].
  eapply ResolveChildrenRecursively_same; eassumption.
Qed.

Lemma step_resolved s op s' :
  caches_resolved s -> step s op = Some s' -> caches_resolved s'.
Proof.
  destruct op as [guid|fuel p]; cbn; intros Hs H.
  - unfold CreateGameObject in H.
    match type of H with
    | context [Resolve ?x] => destruct (Resolve x) as [s1|] eqn:H1
    end; [|discriminate].
    cbn in H. injection H as <-. eapply Resolve_resolved; eassumption.
  - eapply RemoveGameObject_resolved; eassumption.
Qed.

Lemma Resolve_loop_objects h l c c' :
  Resolve_loop h l c = Some c' ->
  exists objs, mapM (fun a => g ← h !! a; Some (a, g)) l = Some objs.
Proof.
  revert c. induction l as [|a l IH]; intros c H; cbn in *.
  - eexists; reflexivity.
  - destruct (h !! a) as [g|]; [|discriminate]. cbn in *.
    destruct (IH _ H) as [objs ->]. eexists; reflexivity.
Qed.

Lemma caches_resolved_classify s :
  caches_resolved s <->
  exists objs, registry_objects s = Some objs /\ caches_of s = classify objs.
Proof.
  unfold caches_resolved. split.
  - intros H. pose proof H as H'. unfold Resolve in H'.
    destruct (Resolve_loop (mem s) (m_gameObjects s) Caches_empty) as [c|] eqn:Hc;
      [|discriminate].
    destruct (Resolve_loop_objects _ _ _ _ Hc) as [objs Hobjs].
    exists objs. split; [exact Hobjs|].
    rewrite (Resolve_classify s objs Hobjs) in H.
    injection H as H. rewrite <- H at 1. reflexivity.
  - intros (objs & Hobjs & Hc). rewrite (Resolve_classify s objs Hobjs).
    rewrite <- Hc. destruct s; reflexivity.
Qed.

Lemma reachable_resolved s0 s :
  caches_resolved s0 -> reachable s0 s -> caches_resolved s.
Proof.
  intros H0 Hr. induction Hr as [|s op s' _ IH Hstep]; [assumption|].
  eapply step_resolved; eassumption.
Qed.

(** C2.  [Resolve] discards whatever the caches held and rebuilds them in
    one pass over the registry, in registry order: the renderables and the
    two light lists are the matching entities in that order, and the active
    camera (skybox) is the last entity of the registry that has a camera
    (skybox) component, so that at most one of each is tracked. *)
Theorem Resolve_last_match_wins (s : Scene) (objs : list (addr * GameObject)) :
  registry_objects s = Some objs ->
  Resolve s =
    Some (mkScene (mem s) (m_gameObjects s)
            (select isRenderable objs)
            (select (hasLightOfType Directional) objs)
            (select (hasLightOfType Point) objs)
            (last (select (HasComponent isCamera) objs))
            (last (select (HasComponent isSkybox) objs))).
Proof. intros H. rewrite (Resolve_classify s objs H). reflexivity. Qed.

Lemma Resolve_last_match_wins_witness :
  Resolve demo_unresolved = Some demo.
Proof.
  rewrite (Resolve_last_match_wins demo_unresolved
             demo_objects).
  - vm_compute. reflexivity.
  - vm_compute. reflexivity.
Defined.

Lemma run_reachable ops s s' : run s ops = Some s' -> reachable s s'.
Proof.
  revert s'. induction ops as [|op ops IH] using rev_ind; intros s' H.
  - cbn in H. injection H as <-. constructor.
  - unfold run in *.
    assert (forall l1 l2 (x : Scene),
               for_each step x (l1 ++ l2)
               = x' ← for_each step x l1; for_each step x' l2) as Happ.
    { induction l1 as [|y l1 IHl]; intros l2 x; cbn; [reflexivity|].
      destruct (step x y); cbn; [apply IHl|reflexivity]. }
    rewrite Happ in H.
    destruct (for_each step s ops) as [s1|]; [|discriminate].
    cbn in H. destruct (step s1 op) as [s2|] eqn:Hs; [|discriminate].
    cbn in H. injection H as <-.
    econstructor; [apply IH; reflexivity|exact Hs].
Qed.

Lemma live_Resolve s :
  (forall a, a ∈ m_gameObjects s -> is_Some (mem s !! a)) -> is_Some (Resolve s).
Proof.
  intros Hlive.
  assert (is_Some (registry_objects s)) as [objs Hobjs].
  { apply (mapM_is_Some_2 (fun a => g ← mem s !! a; Some (a, g))).
    apply Forall_forall. intros a Ha. destruct (Hlive a Ha) as [g Hg].
    cbn. rewrite Hg. eexists. reflexivity. }
  rewrite (Resolve_classify s objs Hobjs). eexists. reflexivity.
Qed.

Lemma CreateGameObject_returns guid s :
  (forall a, a ∈ m_gameObjects s -> is_Some (mem s !! a)) ->
  is_Some (CreateGameObject guid s).
Proof.
  intros Hlive. unfold CreateGameObject.
  match goal with
  | |- context [Resolve ?x] => destruct (live_Resolve x) as [s' Hs']
  end.
  - cbn. intros a Ha. apply elem_of_app in Ha as [Ha|Ha].
    + destruct (Hlive a Ha) as [g Hg].
      destruct (decide (alloc (mem s) = a)) as [->|Hne].
      * rewrite lookup_insert_eq. eexists. reflexivity.
      * rewrite lookup_insert_ne by assumption. eexists. exact Hg.
    + apply list_elem_of_singleton in Ha as ->.
      rewrite lookup_insert_eq. eexists. reflexivity.
  - rewrite Hs'. eexists. reflexivity.
Qed.

(** C3.  Starting from a scene whose caches are resolved (the freshly
    constructed scene is one), after every operation of any sequence of
    [CreateGameObject] and [RemoveGameObject] calls the five caches are
    exactly the classification of the current registry computed from
    scratch; resolving twice in a row gives the same scene as resolving
    once; and [CreateGameObject] returns whenever the registered pointers
    are live. *)
Theorem caches_follow_registry :
  caches_resolved Scene_new /\
  (forall s0 s, caches_resolved s0 -> reachable s0 s ->
     exists objs, registry_objects s = Some objs /\ caches_of s = classify objs) /\
  (forall t t1, Resolve t = Some t1 -> Resolve t1 = Some t1) /\
  (forall s guid,
     (forall a, a ∈ m_gameObjects s -> is_Some (mem s !! a)) ->
     is_Some (CreateGameObject guid s)).
Proof.
  split; [reflexivity|]. split; [|split].
  - intros s0 s H0 Hr. apply caches_resolved_classify.
    eapply reachable_resolved; eassumption.
  - intros t t1 H. exact (Resolve_resolved t t1 H).
  - intros s guid Hlive. apply CreateGameObject_returns. exact Hlive.
Qed.

Lemma caches_follow_registry_witness :
  (exists s objs, run demo demo_ops = Some s /\
     registry_objects s = Some objs /\ caches_of s = classify objs) /\
  Resolve demo = Some demo /\
  is_Some (CreateGameObject "id-new" demo).
Proof.
  assert (is_Some (run demo demo_ops)) as [s Hs]
    by (vm_compute; eexists; reflexivity).
  destruct caches_follow_registry as (_ & Hinv & Hidem & Hcreate).
  split; [|split].
  - destruct (Hinv demo s) as (objs & Ho & Hc).
    + vm_compute. reflexivity.
    + apply run_reachable with (ops := demo_ops). exact Hs.
    + exists s, objs. auto.
  - apply (Hidem demo_unresolved demo). vm_compute. reflexivity.
  - apply Hcreate. intros a Ha.
    apply (bool_decide_unpack _). revert a Ha. apply Forall_forall.
    apply (bool_decide_unpack _). vm_compute. exact I.
Defined.

(** ** Lookup *)

Lemma GetGameObjectByID_loop_find h l objs ID :
  mapM (fun a => g ← h !! a; Some (a, g)) l = Some objs ->
  GetGameObjectByID_loop h l ID
  = Some (fst <$> List.find (fun ag => bool_decide (m_ID (snd ag) = ID)) objs).
Proof.
  revert objs. induction l as [|a l IH]; intros objs H; cbn in H.
  - injection H as <-. reflexivity.
  - destruct (h !! a) as [g|] eqn:Ha; [|discriminate]. cbn in H.
    destruct (mapM (fun a => g ← h !! a; Some (a, g)) l) as [objs'|];
      [|discriminate].
    cbn in H. injection H as <-. cbn. rewrite Ha. cbn.
    destruct (decide (m_ID g = ID)) as [Heq|Hne].
    + rewrite bool_decide_eq_true_2 by assumption. reflexivity.
    + rewrite bool_decide_eq_false_2 by assumption. apply IH. reflexivity.
Qed.

Lemma find_ID_None (objs : list (addr * GameObject)) ID :
  List.find (fun ag => bool_decide (m_ID (snd ag) = ID)) objs = None <->
  forall a g, In (a, g) objs -> m_ID g <> ID.
Proof.
  split.
  - intros H a g Hin Heq.
    apply (find_none _ _ H) in Hin. cbn in Hin.
    apply bool_decide_eq_false in Hin. contradiction.
  - intros H. destruct (List.find _ objs) as [[a g]|] eqn:Hf; [|reflexivity].
    apply find_some in Hf as [Hin Hb]. cbn in Hb.
    apply bool_decide_eq_true in Hb. destruct (H a g Hin Hb).
Qed.

(** C9.  [GetGameObjectByID] scans the registry in order and returns the
    first entity whose identifier matches, and the null pointer exactly
    when no registered entity has the identifier; [GameObjectExists] is
    false for the null pointer and, for a pointer to a live game object,
    true exactly when the registry holds an entity with that object's
    identifier. *)
Theorem lookup_by_identifier (s : Scene) (objs : list (addr * GameObject)) :
  registry_objects s = Some objs ->
  (forall ID,
     GetGameObjectByID s ID
     = Some (fst <$> List.find (fun ag => bool_decide (m_ID (snd ag) = ID)) objs)) /\
  (forall ID,
     GetGameObjectByID s ID = Some nullptr <->
     forall a g, In (a, g) objs -> m_ID g <> ID) /\
  GameObjectExists s nullptr = Some false /\
  (forall p g, mem s !! p = Some g ->
     exists b, GameObjectExists s (Some p) = Some b /\
       (b = true <-> exists a g', In (a, g') objs /\ m_ID g' = m_ID g)).
Proof.
  intros H.
  assert (forall ID,
     GetGameObjectByID s ID
     = Some (fst <$> List.find (fun ag => bool_decide (m_ID (snd ag) = ID)) objs))
    as Hfind by (intros ID; apply GetGameObjectByID_loop_find; exact H).
  split; [exact Hfind|]. split; [|split; [reflexivity|]].
  - intros ID. rewrite Hfind, <- find_ID_None.
    destruct (List.find _ objs); cbn; split; congruence.
  - intros p g Hp. unfold GameObjectExists. rewrite Hp. cbn.
    rewrite Hfind. cbn.
    destruct (List.find _ objs) as [[a g']|] eqn:Hf; cbn.
    + exists true. split; [reflexivity|]. split; [|reflexivity]. intros _.
      apply find_some in Hf as [Hin Hb]. cbn in Hb.
      apply bool_decide_eq_true in Hb. eauto.
    + exists false. split; [reflexivity|]. split; [discriminate|].
      intros (a & g' & Hin & Heq). exfalso.
      apply (proj1 (find_ID_None objs (m_ID g)) Hf a g' Hin Heq).
Qed.

Lemma lookup_by_identifier_witness :
  GetGameObjectByID demo "id-sun" = Some (Some 3) /\
  GetGameObjectByID demo "id-none" = Some nullptr /\
  GameObjectExists demo nullptr = Some false.
Proof.
  destruct (lookup_by_identifier demo
              demo_objects)
    as (Hfind & Hnull & Hex & _).
  - vm_compute. reflexivity.
  - split; [|split].
    + rewrite Hfind. vm_compute. reflexivity.
    + rewrite Hfind. vm_compute. reflexivity.
    + exact Hex.
Defined.

(** ** Removal *)

Lemma list_difference_app (l1 l2 k : list addr) :
  list_difference (l1 ++ l2) k = list_difference l1 k ++ list_difference l2 k.
Proof.
  induction l1 as [|x l1 IH]; cbn; [reflexivity|].
  destruct (decide_rel elem_of x k); cbn; rewrite IH; reflexivity.
Qed.

Lemma list_difference_id (l k : list addr) :
  (forall x, x ∈ l -> x ∉ k) -> list_difference l k = l.
Proof.
  induction l as [|x l IH]; intros H; cbn; [reflexivity|].
  destruct (decide_rel elem_of x k) as [Hin|_].
  - destruct (H x); [left|assumption].
  - rewrite IH; [reflexivity|]. intros y Hy. apply H. right. assumption.
Qed.

Lemma list_difference_ext (l k k' : list addr) :
  (forall x, x ∈ k <-> x ∈ k') -> list_difference l k = list_difference l k'.
Proof.
  intros H. induction l as [|x l IH]; cbn; [reflexivity|].
  rewrite IH.
  destruct (decide_rel elem_of x k) as [Hin|Hnin],
           (decide_rel elem_of x k') as [Hin'|Hnin']; try reflexivity.
  - destruct Hnin'. apply H. assumption.
  - destruct Hnin. apply H. assumption.
Qed.

Lemma list_difference_twice (l k k' : list addr) :
  list_difference (list_difference l k) k' = list_difference l (k ++ k').
Proof.
  induction l as [|x l IH]; cbn; [reflexivity|].
  destruct (decide_rel elem_of x k) as [Hin|Hnin].
  - destruct (decide_rel elem_of x (k ++ k')) as [_|Hn]; [exact IH|].
    destruct Hn. apply elem_of_app. left. assumption.
  - cbn. destruct (decide_rel elem_of x k') as [Hin'|Hnin'].
    + destruct (decide_rel elem_of x (k ++ k')) as [_|Hn]; [exact IH|].
      destruct Hn. apply elem_of_app. right. assumption.
    + destruct (decide_rel elem_of x (k ++ k')) as [Hi|_].
      * apply elem_of_app in Hi as [?|?]; contradiction.
      * rewrite IH. reflexivity.
Qed.

Lemma list_difference_single_length (l : list addr) p :
  NoDup l -> p ∈ l -> S (length (list_difference l [p])) = length l.
Proof.
  induction l as [|x l IH]; intros Hnd Hin.
  - inversion Hin.
  - apply NoDup_cons in Hnd as [Hx Hnd]. cbn.
    destruct (decide_rel elem_of x [p]) as [Hxp|Hxp].
    + apply list_elem_of_singleton in Hxp as ->.
      rewrite list_difference_id; [reflexivity|].
      intros y Hy Hyp. apply list_elem_of_singleton in Hyp as ->. contradiction.
    + cbn. f_equal. apply IH; [assumption|].
      apply elem_of_cons in Hin as [->|Hin]; [|assumption].
      destruct Hxp. apply list_elem_of_singleton. reflexivity.
Qed.

Lemma removed_wf k s s' : wf s -> removed k s s' -> wf s'.
Proof.
  intros [Hl Hn Hi] [Hreg Hmem].
  assert (forall a, a ∈ m_gameObjects s' -> a ∈ m_gameObjects s /\ (a ∉ k)
                    /\ mem s' !! a = mem s !! a) as Hkeep.
  { intros a Ha. rewrite Hreg in Ha.
    apply list_elem_of_difference in Ha as [Ha Hk].
    split; [assumption|]. split; [assumption|].
    rewrite Hmem. destruct (decide (a ∈ k)); [contradiction|reflexivity]. }
  constructor.
  - intros a Ha. destruct (Hkeep a Ha) as (Hin & _ & ->). apply Hl. assumption.
  - rewrite Hreg. apply NoDup_list_difference. assumption.
  - intros a b ga gb Ha Hb Hga Hgb Heq.
    destruct (Hkeep a Ha) as (Hina & _ & Ea), (Hkeep b Hb) as (Hinb & _ & Eb).
    rewrite Ea in Hga. rewrite Eb in Hgb. eapply Hi; eassumption.
Qed.

Lemma removed_trans k k' s s1 s2 :
  removed k s s1 -> removed k' s1 s2 -> removed (k ++ k') s s2.
Proof.
  intros [Hr1 Hm1] [Hr2 Hm2]. split.
  - rewrite Hr2, Hr1. apply list_difference_twice.
  - intros a. rewrite Hm2, Hm1.
    destruct (decide (a ∈ k')) as [Hk'|Hk'], (decide (a ∈ k)) as [Hk|Hk],
      (decide (a ∈ k ++ k')) as [Hkk|Hkk]; try reflexivity;
      rewrite elem_of_app in Hkk; tauto.
Qed.

Lemma wf_registry_objects s :
  wf s -> exists objs, registry_objects s = Some objs.
Proof.
  intros [Hl _ _]. unfold registry_objects.
  apply (mapM_is_Some_2 (fun a => g ← mem s !! a; Some (a, g))).
  apply Forall_forall. intros a Ha. destruct (Hl a Ha) as [g Hg].
  cbn. rewrite Hg. eexists. reflexivity.
Qed.

Lemma wf_Resolve s :
  wf s -> exists s', Resolve s = Some s' /\ mem s' = mem s /\
                     m_gameObjects s' = m_gameObjects s /\ caches_resolved s'.
Proof.
  intros Hwf. destruct (wf_registry_objects s Hwf) as [objs Hobjs].
  pose proof (Resolve_classify s objs Hobjs) as HR.
  eexists. split; [exact HR|]. split; [reflexivity|]. split; [reflexivity|].
  eapply Resolve_resolved. exact HR.
Qed.

Lemma RemoveSingleGameObject_loop_erase s p gp done rest :
  wf s -> m_gameObjects s = done ++ rest -> mem s !! p = Some gp -> p ∈ rest ->
  RemoveSingleGameObject_loop s p done rest
  = Resolve (mkScene (delete p (mem s)) (list_difference (m_gameObjects s) [p])
                     (m_renderables s) (m_lightsDirectional s) (m_lightsPoint s)
                     (m_mainCamera s) (m_skybox s)).
Proof.
  intros Hwf. revert done.
  induction rest as [|temp rest IH]; intros done Hreg Hp Hin; [inversion Hin|].
  cbn. destruct (wf_live s Hwf temp) as [t Ht].
  { rewrite Hreg. apply elem_of_app. right. left. }
  rewrite Ht, Hp. cbn.
  pose proof (wf_nodup s Hwf) as Hnd. rewrite Hreg in Hnd.
  apply NoDup_app in Hnd as (Hnd1 & Hdisj & Hnd2).
  apply NoDup_cons in Hnd2 as [Htemp Hnd2].
  destruct (decide (m_ID t = m_ID gp)) as [Heq|Hne].
  - assert (temp = p) as ->.
    { apply (wf_ids s Hwf temp p t gp); try assumption.
      - rewrite Hreg. apply elem_of_app. right. left.
      - rewrite Hreg. apply elem_of_app. right. assumption. }
    rewrite Hreg, list_difference_app. cbn.
    destruct (decide_rel elem_of p [p]) as [_|Hn]; [|destruct Hn; left].
    rewrite !list_difference_id; [reflexivity| |].
    + intros y Hy Hyp. apply list_elem_of_singleton in Hyp as ->. contradiction.
    + intros y Hy Hyp. apply list_elem_of_singleton in Hyp as ->.
      apply (Hdisj p Hy). left.
  - apply IH.
    + rewrite Hreg, <- app_assoc. reflexivity.
    + assumption.
    + apply elem_of_cons in Hin as [->|Hin]; [|assumption].
      rewrite Ht in Hp. injection Hp as ->. contradiction.
Qed.

Lemma RemoveSingleGameObject_wf s p :
  wf s -> p ∈ m_gameObjects s ->
  exists s', RemoveSingleGameObject s (Some p) = Some s' /\
             removed [p] s s' /\ wf s' /\ caches_resolved s' /\
             S (length (m_gameObjects s')) = length (m_gameObjects s).
Proof.
  intros Hwf Hin. destruct (wf_live s Hwf p Hin) as [gp Hp].
  cbn. rewrite (RemoveSingleGameObject_loop_erase s p gp [] _ Hwf eq_refl Hp Hin).
  set (s0 := mkScene _ _ _ _ _ _ _).
  assert (removed [p] s s0) as Hrem.
  { split; [reflexivity|]. intros a. cbn.
    destruct (decide (a ∈ [p])) as [Ha|Ha].
    - apply list_elem_of_singleton in Ha as ->. apply lookup_delete_eq.
    - apply lookup_delete_ne. intros ->. destruct Ha. left. }
  pose proof (removed_wf _ _ _ Hwf Hrem) as Hwf0.
  destruct (wf_Resolve s0 Hwf0) as (s' & HR & Hm & Hg & Hres).
  exists s'. split; [exact HR|].
  assert (removed [p] s s') as Hrem'.
  { destruct Hrem as [Hr1 Hr2]. split; [rewrite Hg; exact Hr1|].
    intros a. rewrite Hm. apply Hr2. }
  split; [exact Hrem'|]. split; [exact (removed_wf _ _ _ Hwf Hrem')|].
  split; [assumption|].
  rewrite Hg. cbn. apply list_difference_single_length; [apply Hwf|assumption].
Qed.

Lemma for_each_remove_descendants ds :
  forall s, wf s -> NoDup ds -> (forall d, d ∈ ds -> d ∈ m_gameObjects s) ->
  exists s',
    for_each (fun s' descendant =>
                _ ← mem s' !! descendant;
                RemoveSingleGameObject s' (Some descendant)) s ds = Some s' /\
    removed ds s s' /\ wf s' /\
    length (m_gameObjects s') + length ds = length (m_gameObjects s).
Proof.
  induction ds as [|d ds IH]; intros s Hwf Hnd Hin.
  - exists s. split; [reflexivity|]. split; [|split; [assumption|cbn; lia]].
    split.
    + symmetry. apply list_difference_id. intros x _ Hx. inversion Hx.
    + intros a. destruct (decide (a ∈ [])) as [Ha|_]; [inversion Ha|reflexivity].
  - apply NoDup_cons in Hnd as [Hd Hnd].
    assert (d ∈ m_gameObjects s) as Hdin by (apply Hin; left).
    destruct (wf_live s Hwf d Hdin) as [gd Hgd].
    destruct (RemoveSingleGameObject_wf s d Hwf Hdin)
      as (s1 & H1 & Hrem1 & Hwf1 & _ & Hlen1).
    destruct (IH s1 Hwf1 Hnd) as (s' & H' & Hrem' & Hwf' & Hlen').
    { intros x Hx. rewrite (proj1 Hrem1). apply list_elem_of_difference.
      split; [apply Hin; right; assumption|].
      intros Hxd. apply list_elem_of_singleton in Hxd as ->. contradiction. }
    exists s'. split.
    + cbn [for_each]. rewrite Hgd. cbn [mbind option_bind]. rewrite H1.
      cbn [mbind option_bind]. exact H'.
    + split; [exact (removed_trans [d] ds s s1 s' Hrem1 Hrem')|].
      split; [assumption|]. cbn [length]. lia.
Qed.

Lemma same_but_children_sym h h' :
  same_but_children h h' -> same_but_children h' h.
Proof. intros H a. symmetry. apply H. Qed.

Lemma same_but_children_lookup h h' a g :
  same_but_children h h' -> h !! a = Some g ->
  exists g', h' !! a = Some g' /\
             t_parent (m_transform g') = t_parent (m_transform g) /\
             m_ID g' = m_ID g /\ m_components g' = m_components g.
Proof.
  intros H Hg. specialize (H a). rewrite Hg in H.
  destruct (h' !! a) as [g'|]; [|discriminate].
  exists g'. split; [reflexivity|].
  cbn in H. injection H as H1 H2 H3 H4 H5 H6 H7. auto.
Qed.

Lemma same_but_children_parent_is h h' t a :
  same_but_children h h' -> parent_is h' t a = parent_is h t a.
Proof.
  intros H. unfold parent_is. destruct (h !! a) as [g|] eqn:Hg.
  - destruct (same_but_children_lookup h h' a g H Hg) as (g' & -> & -> & _).
    reflexivity.
  - specialize (H a). rewrite Hg in H. destruct (h' !! a); [discriminate|reflexivity].
Qed.

Lemma same_but_children_ranked rank l h h' :
  same_but_children h h' -> ranked rank l h -> ranked rank l h'.
Proof.
  intros H Hr a g' q Ha Hg' Hq.
  destruct (same_but_children_lookup h' h a g' (same_but_children_sym _ _ H) Hg')
    as (g & Hg & Hpar & _).
  apply (Hr a g q Ha Hg). rewrite Hpar. assumption.
Qed.

Lemma children_of_push h t a cs :
  children_of h t = Some cs ->
  children_of (alter (push_child a) t h) t = Some (cs ++ [a]).
Proof.
  unfold children_of. rewrite lookup_alter_eq.
  destruct (h !! t) as [g|]; cbn; [|discriminate].
  intros [= <-]. reflexivity.
Qed.

Lemma ResolveChildrenRecursively_spec rank (l : list addr) :
  forall fuel h t,
    rank t < fuel -> is_Some (h !! t) ->
    (forall a, a ∈ l -> is_Some (h !! a)) -> ranked rank l h ->
    exists h',
      ResolveChildrenRecursively fuel l h t = Some h' /\
      same_but_children h h' /\
      (forall x, rank t <= rank x -> x <> t -> h' !! x = h !! x) /\
      children_of h' t = Some (List.filter (parent_is h t) l).
Proof.
  induction fuel as [|fuel IHfuel]; intros h t Hfuel [g0 Hg0] Hlive Hrank; [lia|].
  cbn [ResolveChildrenRecursively]. rewrite Hg0. cbn [mbind option_bind].
  set (body := fun (h' : gmap addr GameObject) (possibleChild : addr) => _).
  assert (forall h' a,
             body h' a
             = g ← h' !! a;
               match t_parent (m_transform g) with
               | None => Some h'
               | Some q =>
                   if decide (q = t)
                   then ResolveChildrenRecursively fuel l
                          (alter (push_child a) t h') a
                   else Some h'
               end) as Hbody by reflexivity.
  clearbody body.
  assert (forall l' h1,
             (forall a, a ∈ l' -> a ∈ l) -> same_but_children h h1 ->
             exists h2,
               for_each body h1 l' = Some h2 /\
               same_but_children h1 h2 /\
               (forall x, rank t <= rank x -> x <> t -> h2 !! x = h1 !! x) /\
               (forall cs, children_of h1 t = Some cs ->
                  children_of h2 t
                  = Some (cs ++ List.filter (parent_is h t) l'))) as Hloop.
  { induction l' as [|a l' IHl]; intros h1 Hsub Hsame.
    - exists h1. split; [reflexivity|]. split; [apply same_but_children_refl|].
      split; [reflexivity|]. intros cs ->. cbn. rewrite app_nil_r. reflexivity.
    - assert (a ∈ l) as Hal by (apply Hsub; left).
      destruct (Hlive a Hal) as [g Hg].
      destruct (same_but_children_lookup h h1 a g Hsame Hg)
        as (g1 & Hg1 & Hpar & _).
      assert (forall h1', same_but_children h1 h1' ->
                (forall x, rank t <= rank x -> x <> t -> h1' !! x = h1 !! x) ->
                (forall cs, children_of h1 t = Some cs ->
                   children_of h1' t =
                   Some (cs ++ List.filter (parent_is h t) [a])) ->
                exists h2,
                  for_each body h1' l' = Some h2 /\
                  same_but_children h1 h2 /\
                  (forall x, rank t <= rank x -> x <> t -> h2 !! x = h1 !! x) /\
                  (forall cs, children_of h1 t = Some cs ->
                     children_of h2 t
                     = Some (cs ++ List.filter (parent_is h t) (a :: l'))))
        as Hcont.
      { intros h1' Hs1 Hf1 Hc1.
        destruct (IHl h1') as (h2 & HF & Hs2 & Hf2 & Hc2).
        - intros x Hx. apply Hsub. right. assumption.
        - eapply same_but_children_trans; eassumption.
        - exists h2. split; [exact HF|].
          split; [eapply same_but_children_trans; eassumption|].
          split; [intros x Hx Hne; rewrite Hf2, Hf1 by assumption; reflexivity|].
          intros cs Hcs. rewrite (Hc2 _ (Hc1 cs Hcs)), <- app_assoc.
          f_equal. f_equal. cbn [List.filter].
          destruct (parent_is h t a); reflexivity. }
      cbn [for_each]. rewrite Hbody, Hg1. cbn [mbind option_bind].
      destruct (t_parent (m_transform g1)) as [q|] eqn:Hq.
      + destruct (decide (q = t)) as [->|Hne].
        * assert (rank a < rank t) as Hlt.
          { apply (Hrank a g t Hal Hg). rewrite <- Hpar. reflexivity. }
          assert (parent_is h t a = true) as Hpa.
          { unfold parent_is. rewrite Hg. apply bool_decide_eq_true_2.
            rewrite <- Hpar. reflexivity. }
          pose proof (same_but_children_push a t h1) as Hpush.
          pose proof (same_but_children_trans _ _ _ Hsame Hpush) as Hsame'.
          destruct (IHfuel (alter (push_child a) t h1) a)
            as (h1'' & HR & Hs'' & Hf'' & _).
          { lia. }
          { destruct (same_but_children_lookup _ _ a g Hsame' Hg) as (? & -> & _).
            eexists; reflexivity. }
          { intros x Hx. destruct (Hlive x Hx) as [gx Hgx].
            destruct (same_but_children_lookup _ _ x gx Hsame' Hgx) as (? & -> & _).
            eexists; reflexivity. }
          { eapply same_but_children_ranked; eassumption. }
          rewrite HR. cbn [mbind option_bind].
          apply Hcont.
          -- eapply same_but_children_trans; eassumption.
          -- intros x Hx Hxt. rewrite Hf''; [|lia|intros ->; lia].
             apply lookup_alter_ne. congruence.
          -- intros cs Hcs. unfold children_of.
             rewrite Hf''; [|lia|intros ->; lia].
             cbn [List.filter]. rewrite Hpa.
             apply (children_of_push h1 t a cs Hcs).
        * apply Hcont.
          -- apply same_but_children_refl.
          -- reflexivity.
          -- intros cs ->. cbn [List.filter].
             replace (parent_is h t a) with false; [rewrite app_nil_r; reflexivity|].
             unfold parent_is. rewrite Hg. symmetry. apply bool_decide_eq_false_2.
             rewrite <- Hpar. congruence.
      + apply Hcont.
        * apply same_but_children_refl.
        * reflexivity.
        * intros cs ->. cbn [List.filter].
          replace (parent_is h t a) with false; [rewrite app_nil_r; reflexivity|].
          unfold parent_is. rewrite Hg. symmetry. apply bool_decide_eq_false_2.
          rewrite <- Hpar. congruence. }
  pose proof (same_but_children_alter [] t h) as H0.
  destruct (Hloop l (alter (set_children []) t h)) as (h2 & HF & Hs2 & Hf2 & Hc2);
    [auto|exact H0|].
  exists h2. split; [exact HF|].
  split; [eapply same_but_children_trans; eassumption|].
  split.
  - intros x Hx Hne. rewrite Hf2 by assumption. apply lookup_alter_ne. congruence.
  - rewrite (Hc2 []); [reflexivity|].
    unfold children_of. rewrite lookup_alter_eq, Hg0. reflexivity.
Qed.

Lemma wf_same s h : wf s -> same_but_children (mem s) h -> wf (set_mem s h).
Proof.
  intros [Hl Hn Hi] Hs. constructor; cbn.
  - intros a Ha. destruct (Hl a Ha) as [g Hg].
    destruct (same_but_children_lookup _ _ a g Hs Hg) as (g' & -> & _).
    eexists; reflexivity.
  - assumption.
  - intros a b ga gb Ha Hb Hga Hgb Heq.
    pose proof (same_but_children_sym _ _ Hs) as Hs'.
    destruct (same_but_children_lookup _ _ a ga Hs' Hga) as (ga' & Hga' & _ & Ea & _).
    destruct (same_but_children_lookup _ _ b gb Hs' Hgb) as (gb' & Hgb' & _ & Eb & _).
    apply (Hi a b ga' gb' Ha Hb Hga' Hgb'). congruence.
Qed.

Lemma RemoveGameObject_spec fuel rank s E g ds :
  wf s -> E ∈ m_gameObjects s -> mem s !! E = Some g ->
  GetDescendants fuel (mem s) E = Some ds ->
  NoDup (E :: ds) -> (forall d, d ∈ ds -> d ∈ m_gameObjects s) ->
  ranked rank (m_gameObjects s) (mem s) ->
  (forall q, t_parent (m_transform g) = Some q ->
             q ∈ m_gameObjects s /\ (q ∉ E :: ds) /\ rank q < fuel) ->
  exists s',
    RemoveGameObject fuel s (Some E) = Some s' /\
    m_gameObjects s' = list_difference (m_gameObjects s) (E :: ds) /\
    length (m_gameObjects s') + (length ds + 1) = length (m_gameObjects s) /\
    (forall a, a ∈ E :: ds -> mem s' !! a = None) /\
    (forall a, a ∉ E :: ds ->
       set_children [] <$> mem s' !! a = set_children [] <$> mem s !! a) /\
    wf s' /\ caches_resolved s' /\
    (forall q, t_parent (m_transform g) = Some q ->
       children_of (mem s') q
       = Some (List.filter (parent_is (mem s') q) (m_gameObjects s'))).
Proof.
  intros Hwf HE Hg HGD Hnd Hds Hrank Hpar.
  apply NoDup_cons in Hnd as [HEds Hnd].
  destruct (for_each_remove_descendants ds s Hwf Hnd Hds)
    as (s1 & Hfold & Hrem1 & Hwf1 & Hlen1).
  assert (E ∈ m_gameObjects s1) as HE1.
  { rewrite (proj1 Hrem1). apply list_elem_of_difference. auto. }
  assert (mem s1 !! E = Some g) as Hg1.
  { rewrite (proj2 Hrem1). destruct (decide (E ∈ ds)); [contradiction|assumption]. }
  destruct (RemoveSingleGameObject_wf s1 E Hwf1 HE1)
    as (s2 & H2 & Hrem2 & Hwf2 & Hres2 & Hlen2).
  pose proof (removed_trans _ _ _ _ _ Hrem1 Hrem2) as [Hreg Hmem].
  assert (forall x, x ∈ ds ++ [E] <-> x ∈ E :: ds) as Hperm.
  { intros x. rewrite elem_of_app, !elem_of_cons, elem_of_nil. tauto. }
  rewrite (list_difference_ext _ _ _ Hperm) in Hreg.
  assert (forall a, mem s2 !! a = if decide (a ∈ E :: ds) then None else mem s !! a)
    as Hmem2.
  { intros a. rewrite Hmem.
    destruct (decide (a ∈ ds ++ [E])) as [H|H], (decide (a ∈ E :: ds)) as [H'|H'];
      try reflexivity; rewrite Hperm in H; contradiction. }
  assert (RemoveGameObject fuel s (Some E)
          = match t_parent (m_transform g) with
            | None => Some s2
            | Some q =>
                h ← ResolveChildrenRecursively fuel (m_gameObjects s2) (mem s2) q;
                Some (set_mem s2 h)
            end) as Hrun.
  { unfold RemoveGameObject. rewrite HGD. cbn [mbind option_bind].
    rewrite Hfold. cbn [mbind option_bind]. rewrite Hg1. cbn [mbind option_bind].
    rewrite H2. reflexivity. }
  rewrite Hrun. clear Hrun.
  assert (length (m_gameObjects s2) + (length ds + 1) = length (m_gameObjects s))
    as Hlen by lia.
  destruct (t_parent (m_transform g)) as [q|] eqn:Hq.
  - destruct (Hpar q eq_refl) as (Hqin & Hqnot & Hqfuel).
    assert (q ∈ m_gameObjects s2) as Hq2.
    { rewrite Hreg. apply list_elem_of_difference. auto. }
    destruct (ResolveChildrenRecursively_spec rank (m_gameObjects s2) fuel (mem s2) q)
      as (h & HR & Hsame & _ & Hch).
    + assumption.
    + apply (wf_live s2 Hwf2). assumption.
    + apply (wf_live s2 Hwf2).
    + intros a ga p Ha Hga Hp. rewrite Hreg in Ha.
      apply list_elem_of_difference in Ha as [Ha Hnot].
      rewrite Hmem2 in Hga. destruct (decide (a ∈ E :: ds)); [discriminate|].
      exact (Hrank a ga p Ha Hga Hp).
    + rewrite HR. cbn [mbind option_bind].
      exists (set_mem s2 h). split; [reflexivity|].
      split; [exact Hreg|]. split; [exact Hlen|].
      split; [|split; [|split; [|split]]].
      * intros a Ha. cbn. specialize (Hsame a). rewrite Hmem2 in Hsame.
        destruct (decide (a ∈ E :: ds)); [|contradiction].
        destruct (h !! a); [discriminate|reflexivity].
      * intros a Ha. cbn. rewrite <- (Hsame a), Hmem2.
        destruct (decide (a ∈ E :: ds)); [contradiction|reflexivity].
      * apply wf_same; assumption.
      * apply caches_resolved_same; assumption.
      * intros q' [= <-]. cbn. rewrite Hch. f_equal.
        apply List.filter_ext. intros a. symmetry.
        apply same_but_children_parent_is. assumption.
  - exists s2. split; [reflexivity|].
    split; [exact Hreg|]. split; [exact Hlen|].
    split; [|split; [|split; [|split]]]; try assumption.
    + intros a Ha. rewrite Hmem2. destruct (decide (a ∈ E :: ds)); [reflexivity|contradiction].
    + intros a Ha. rewrite Hmem2. destruct (decide (a ∈ E :: ds)); [contradiction|reflexivity].
    + intros q' [=].
Qed.

Lemma registry_objects_spec (h : gmap addr GameObject) (l : list addr) objs :
  mapM (fun a => g ← h !! a; Some (a, g)) l = Some objs ->
  fst <$> objs = l /\ forall a g, (a, g) ∈ objs -> h !! a = Some g.
Proof.
  revert objs. induction l as [|a l IH]; intros objs H; cbn in H.
  - injection H as <-. split; [reflexivity|]. intros a g Hin. inversion Hin.
  - destruct (h !! a) as [g|] eqn:Ha; [|discriminate]. cbn in H.
    destruct (mapM (fun a => g ← h !! a; Some (a, g)) l) as [objs'|];
      [|discriminate].
    cbn in H. injection H as <-. destruct (IH objs' eq_refl) as [Hfst Hobj].
    split; [cbn; rewrite Hfst; reflexivity|].
    intros a' g' Hin. apply elem_of_cons in Hin as [[= -> ->]|Hin]; auto.
Qed.

Lemma NoDup_fmap_inj_on {A B : Type} (f : A -> B) (l : list A) x y :
  NoDup (f <$> l) -> x ∈ l -> y ∈ l -> f x = f y -> x = y.
Proof.
  induction l as [|z l IH]; intros Hnd Hx Hy Heq; [inversion Hx|].
  cbn in Hnd. apply NoDup_cons in Hnd as [Hz Hnd].
  apply elem_of_cons in Hx as [->|Hx]; apply elem_of_cons in Hy as [->|Hy].
  - reflexivity.
  - destruct Hz. rewrite Heq. apply list_elem_of_fmap_2. assumption.
  - destruct Hz. rewrite <- Heq. apply list_elem_of_fmap_2. assumption.
  - auto.
Qed.

(** A scene is well formed when its registry dereferences to objects with
    pairwise distinct identifiers. *)
Lemma wf_of_objects s objs :
  registry_objects s = Some objs ->
  NoDup ((fun ag => m_ID (snd ag)) <$> objs) -> wf s.
Proof.
  intros Hobjs Hnd.
  destruct (registry_objects_spec _ _ _ Hobjs) as [Hfst Hobj].
  assert (forall a g, a ∈ m_gameObjects s -> mem s !! a = Some g -> (a, g) ∈ objs)
    as Hin.
  { intros a g Ha Hg. rewrite <- Hfst in Ha.
    apply list_elem_of_fmap in Ha as ([a' g'] & -> & Hag).
    cbn in Hg. rewrite (Hobj _ _ Hag) in Hg. injection Hg as ->. assumption. }
  constructor.
  - intros a Ha. rewrite <- Hfst in Ha.
    apply list_elem_of_fmap in Ha as ([a' g'] & -> & Hag).
    cbn. rewrite (Hobj _ _ Hag). eexists; reflexivity.
  - rewrite <- Hfst. apply NoDup_fmap_2_strong.
    + intros [a g] [a' g'] Hag Hag' Heq. cbn in Heq. subst a'.
      pose proof (Hobj _ _ Hag) as H1. rewrite (Hobj _ _ Hag') in H1.
      injection H1 as ->. reflexivity.
    + eapply NoDup_fmap_1. exact Hnd.
  - intros a b ga gb Ha Hb Hga Hgb Heq.
    pose proof (NoDup_fmap_inj_on _ objs (a, ga) (b, gb) Hnd
                  (Hin _ _ Ha Hga) (Hin _ _ Hb Hgb) Heq) as H.
    injection H as -> _. reflexivity.
Qed.

Lemma GetDescendants_children fuel (h : gmap addr GameObject) E g ds :
  GetDescendants fuel h E = Some ds -> h !! E = Some g ->
  forall c, c ∈ t_children (m_transform g) -> c ∈ ds.
Proof.
  destruct fuel as [|fuel]; [discriminate|]. cbn. intros H Hg. rewrite Hg in H.
  cbn in H.
  destruct (mapM _ (t_children (m_transform g))) as [dss|] eqn:HM; [|discriminate].
  cbn in H. injection H as <-. intros c Hc.
  apply mapM_Some_1 in HM.
  apply list_elem_of_lookup in Hc as [i Hi].
  destruct (Forall2_lookup_l _ _ _ i c HM Hi) as (cds & Hcds & Hf).
  cbv beta in Hf.
  destruct (GetDescendants fuel h c) as [dsc|]; [|discriminate].
  cbn in Hf. injection Hf as <-.
  apply list_elem_of_In, in_concat. exists (c :: dsc). split; [|left; reflexivity].
  apply list_elem_of_In, list_elem_of_lookup. eauto.
Qed.

Lemma RemoveSingleGameObject_loop_by_ID s p p' gp gp' done rest :
  mem s !! p = Some gp -> mem s !! p' = Some gp' -> m_ID gp = m_ID gp' ->
  RemoveSingleGameObject_loop s p done rest
  = RemoveSingleGameObject_loop s p' done rest.
Proof.
  intros Hp Hp' Heq. revert done.
  induction rest as [|temp rest IH]; intros done; [reflexivity|].
  cbn. rewrite Hp, Hp'. destruct (mem s !! temp) as [t|]; [|reflexivity].
  cbn. rewrite Heq. destruct (decide (m_ID t = m_ID gp')); [reflexivity|apply IH].
Qed.

(** *** Descendants in a well-formed hierarchy *)

Lemma hierarchy_wfb_spec rank s : hierarchy_wfb rank s = true -> hierarchy_wf rank s.
Proof.
  unfold hierarchy_wfb. rewrite forallb_forall. intros H.
  assert (forall a g, a ∈ m_gameObjects s -> mem s !! a = Some g ->
            forallb (fun c => bool_decide (c ∈ m_gameObjects s)
                              && parent_is (mem s) a c)
                    (t_children (m_transform g)) = true /\
            bool_decide (NoDup (t_children (m_transform g))) = true /\
            match t_parent (m_transform g) with
            | None => true
            | Some q => bool_decide (q ∈ m_gameObjects s)
                        && Nat.ltb (rank a) (rank q)
            end = true) as H'.
  { intros a g Ha Hg. specialize (H a (proj1 (list_elem_of_In _ _) Ha)).
    cbv beta in H. rewrite Hg in H.
    apply andb_true_iff in H as [H H3]. apply andb_true_iff in H as [H1 H2]. auto. }
  constructor.
  - intros a g c Ha Hg Hc. destruct (H' a g Ha Hg) as (H1 & _ & _).
    rewrite forallb_forall in H1.
    specialize (H1 c (proj1 (list_elem_of_In _ _) Hc)). cbv beta in H1.
    apply andb_true_iff in H1 as [H1 H2]. apply bool_decide_eq_true in H1. auto.
  - intros a g Ha Hg. destruct (H' a g Ha Hg) as (_ & H2 & _).
    apply bool_decide_eq_true in H2. exact H2.
  - intros a g q Ha Hg Hq. destruct (H' a g Ha Hg) as (_ & _ & H3).
    rewrite Hq in H3. apply andb_true_iff in H3 as [H3 H4].
    apply bool_decide_eq_true in H3. apply Nat.ltb_lt in H4. auto.
Qed.

Lemma hierarchy_ranked rank s :
  hierarchy_wf rank s -> ranked rank (m_gameObjects s) (mem s).
Proof. intros Hh a g q Ha Hg Hq. exact (proj2 (hw_parent rank s Hh a g q Ha Hg Hq)). Qed.

Lemma parent_is_true h t a :
  parent_is h t a = true ->
  exists g, h !! a = Some g /\ t_parent (m_transform g) = Some t.
Proof.
  unfold parent_is. destruct (h !! a) as [g|]; [|discriminate].
  intros H. apply bool_decide_eq_true in H. eauto.
Qed.

Lemma ancestor_app h k j x :
  ancestor h (k + j) x = y ← ancestor h k x; ancestor h j y.
Proof.
  revert x. induction k as [|k IH]; intros x; [reflexivity|].
  cbn. destruct (h !! x) as [g|]; [|reflexivity]. cbn.
  destruct (t_parent (m_transform g)) as [p|]; [|reflexivity]. cbn. apply IH.
Qed.

Lemma ancestor_rank rank s k :
  hierarchy_wf rank s ->
  forall x y, x ∈ m_gameObjects s -> ancestor (mem s) k x = Some y ->
              y ∈ m_gameObjects s /\ (y = x \/ rank x < rank y).
Proof.
  intros Hh. induction k as [|k IH]; intros x y Hx H; cbn in H.
  - injection H as <-. auto.
  - destruct (mem s !! x) as [g|] eqn:Hg; [|discriminate]. cbn in H.
    destruct (t_parent (m_transform g)) as [p|] eqn:Hp; [|discriminate]. cbn in H.
    destruct (hw_parent rank s Hh x g p Hx Hg Hp) as [Hpin Hlt].
    destruct (IH p y Hpin H) as [Hy [->|Hlt']]; split; auto; right; lia.
Qed.

Lemma children_disjoint rank s t c c' x k k' :
  hierarchy_wf rank s -> t ∈ m_gameObjects s -> x ∈ m_gameObjects s ->
  c ∈ m_gameObjects s -> c' ∈ m_gameObjects s ->
  parent_is (mem s) t c = true -> parent_is (mem s) t c' = true ->
  ancestor (mem s) k x = Some c -> ancestor (mem s) k' x = Some c' -> c = c'.
Proof.
  intros Hh Ht Hx Hc Hc' Hp Hp' Hk Hk'.
  assert (forall a b i j,
            a ∈ m_gameObjects s -> b ∈ m_gameObjects s ->
            parent_is (mem s) t a = true -> parent_is (mem s) t b = true ->
            ancestor (mem s) i x = Some a -> ancestor (mem s) (i + S j) x = Some b ->
            False) as Hstrict.
  { intros a b i j Ha Hb Hpa Hpb Hi Hij.
    rewrite ancestor_app, Hi in Hij. cbn in Hij.
    apply parent_is_true in Hpa as (ga & Hga & Hta).
    apply parent_is_true in Hpb as (gb & Hgb & Htb).
    rewrite Hga in Hij. cbn in Hij. rewrite Hta in Hij. cbn in Hij.
    pose proof (proj2 (hw_parent rank s Hh b gb t Hb Hgb Htb)) as Hlt.
    destruct (ancestor_rank rank s j Hh t b Ht Hij) as [_ [->|Hlt']]; lia. }
  destruct (Nat.lt_trichotomy k k') as [Hlt|[->|Hlt]].
  - exfalso. replace k' with (k + S (k' - k - 1)) in Hk' by lia.
    exact (Hstrict c c' k _ Hc Hc' Hp Hp' Hk Hk').
  - rewrite Hk in Hk'. injection Hk' as ->. reflexivity.
  - exfalso. replace k with (k' + S (k - k' - 1)) in Hk by lia.
    exact (Hstrict c' c k' _ Hc' Hc Hp' Hp Hk' Hk).
Qed.

Lemma GetDescendants_forest rank s :
  hierarchy_wf rank s -> (forall a, a ∈ m_gameObjects s -> is_Some (mem s !! a)) ->
  forall fuel t,
    t ∈ m_gameObjects s -> rank t < fuel ->
    exists ds,
      GetDescendants fuel (mem s) t = Some ds /\
      (forall d, d ∈ ds ->
         d ∈ m_gameObjects s /\ exists k, ancestor (mem s) (S k) d = Some t) /\
      NoDup ds.
Proof.
  intros Hh Hlive. induction fuel as [|fuel IH]; intros t Ht Hfuel; [lia|].
  destruct (Hlive t Ht) as [g Hg].
  cbn [GetDescendants]. rewrite Hg. cbn [mbind option_bind].
  set (f := fun child : addr => _).
  assert (forall c, f c = ds ← GetDescendants fuel (mem s) c; Some (c :: ds)) as Hf
    by reflexivity.
  clearbody f.
  assert (forall cs,
            (forall c, c ∈ cs -> c ∈ t_children (m_transform g)) ->
            exists dss,
              mapM f cs = Some dss /\
              (forall x, x ∈ concat dss ->
                 x ∈ m_gameObjects s /\
                 exists c k, c ∈ cs /\ ancestor (mem s) k x = Some c) /\
              (NoDup cs -> NoDup (concat dss))) as Hcs.
  { induction cs as [|c cs IHcs]; intros Hsub.
    - exists []. split; [reflexivity|]. split; [|intros _; constructor].
      intros x Hx. inversion Hx.
    - destruct (hw_children rank s Hh t g c Ht Hg) as [Hc Hpc]; [apply Hsub; left|].
      pose proof (parent_is_true _ _ _ Hpc) as (gc & Hgc & Htc).
      pose proof (proj2 (hw_parent rank s Hh c gc t Hc Hgc Htc)) as Hrc.
      destruct (IH c Hc) as (ds & Hds & Hmem & Hnd); [lia|].
      destruct IHcs as (dss & Hdss & Hmem' & Hnd');
        [intros c' Hc'; apply Hsub; right; exact Hc'|].
      exists ((c :: ds) :: dss). split.
      { cbn. rewrite Hf, Hds. cbn. rewrite Hdss. reflexivity. }
      assert (forall x, x ∈ c :: ds ->
                x ∈ m_gameObjects s /\ exists k, ancestor (mem s) k x = Some c)
        as Hblock.
      { intros x Hx. apply elem_of_cons in Hx as [->|Hx].
        - split; [exact Hc|]. exists 0. reflexivity.
        - destruct (Hmem x Hx) as [Hxin [k Hk]]. eauto. }
      split.
      + intros x Hx. cbn [concat] in Hx. apply elem_of_app in Hx as [Hx|Hx].
        * destruct (Hblock x Hx) as [Hxin [k Hk]]. split; [exact Hxin|].
          exists c, k. split; [left|exact Hk].
        * destruct (Hmem' x Hx) as [Hxin (c' & k & Hc' & Hk)].
          split; [exact Hxin|]. exists c', k. split; [right; exact Hc'|exact Hk].
      + intros Hndcs. apply NoDup_cons in Hndcs as [Hcnot Hndcs].
        cbn [concat]. apply NoDup_app. split; [|split; [|auto]].
        * apply NoDup_cons. split; [|exact Hnd].
          intros Hcin. destruct (Hmem c Hcin) as [_ [k Hk]].
          destruct (ancestor_rank rank s (S k) Hh c c Hc Hk) as [_ [Heq|Hlt]];
            [|lia].
          cbn in Hk. rewrite Hgc in Hk. cbn in Hk. rewrite Htc in Hk. cbn in Hk.
          destruct (ancestor_rank rank s k Hh t c Ht Hk) as [_ [Heq'|Hlt']];
            [subst; lia|lia].
        * intros x Hx Hx'.
          destruct (Hblock x Hx) as [Hxin [k Hk]].
          destruct (Hmem' x Hx') as [_ (c' & k' & Hc' & Hk')].
          destruct (hw_children rank s Hh t g c' Ht Hg) as [Hc'in Hpc'];
            [apply Hsub; right; exact Hc'|].
          apply Hcnot.
          rewrite (children_disjoint rank s t c c' x k k' Hh Ht Hxin Hc Hc'in
                     Hpc Hpc' Hk Hk').
          exact Hc'. }
  destruct (Hcs (t_children (m_transform g))) as (dss & Hdss & Hmem & Hnd); [auto|].
  rewrite Hdss. cbn [mbind option_bind]. exists (concat dss).
  split; [reflexivity|]. split.
  - intros d Hd. destruct (Hmem d Hd) as [Hdin (c & k & Hc & Hk)].
    split; [exact Hdin|]. exists k.
    destruct (hw_children rank s Hh t g c Ht Hg Hc) as [Hcin Hpc].
    apply parent_is_true in Hpc as (gc & Hgc & Htc).
    replace (S k) with (k + 1) by lia. rewrite ancestor_app, Hk. cbn.
    rewrite Hgc. cbn. rewrite Htc. reflexivity.
  - apply Hnd. exact (hw_children_nodup rank s Hh t g Ht Hg).
Qed.

(** In a well-formed scene every registered game object can be removed,
    provided the recursion depth [fuel] exceeds the ranks. *)
Lemma hierarchy_removable fuel rank s E :
  wf s -> hierarchy_wf rank s ->
  (forall a, a ∈ m_gameObjects s -> rank a < fuel) ->
  E ∈ m_gameObjects s ->
  exists g ds, removable fuel rank s E g ds.
Proof.
  intros Hwf Hh Hfuel HE.
  destruct (wf_live s Hwf E HE) as [g Hg].
  destruct (GetDescendants_forest rank s Hh (wf_live s Hwf) fuel E HE (Hfuel E HE))
    as (ds & Hds & Hmem & Hnd).
  assert (forall d, d ∈ ds -> rank d < rank E) as Hlow.
  { intros d Hd. destruct (Hmem d Hd) as [Hdin [k Hk]].
    destruct (ancestor_rank rank s (S k) Hh d E Hdin Hk) as [_ [->|Hlt]]; [|exact Hlt].
    exfalso. cbn in Hk.
    destruct (mem s !! d) as [gd|] eqn:Hgd; [|discriminate]. cbn in Hk.
    destruct (t_parent (m_transform gd)) as [p|] eqn:Hp; [|discriminate]. cbn in Hk.
    destruct (hw_parent rank s Hh d gd p Hdin Hgd Hp) as [Hpin Hlt].
    destruct (ancestor_rank rank s k Hh p d Hpin Hk) as [_ [Heq|Hlt']];
      [subst; lia|lia]. }
  exists g, ds. constructor.
  - exact HE.
  - exact Hg.
  - exact Hds.
  - apply NoDup_cons. split; [|exact Hnd].
    intros Hin. specialize (Hlow E Hin). lia.
  - intros d Hd. exact (proj1 (Hmem d Hd)).
  - apply hierarchy_ranked. exact Hh.
  - intros q Hq. destruct (hw_parent rank s Hh E g q HE Hg Hq) as [Hqin Hlt].
    split; [exact Hqin|]. split; [|apply Hfuel; exact Hqin].
    intros Hin. apply elem_of_cons in Hin as [->|Hin]; [lia|].
    specialize (Hlow q Hin). lia.
Qed.

(** C4.  In a well-formed scene, removing a registered entity [E] that
    has [N] descendants in the transform hierarchy removes exactly those
    [N + 1] entities from the registry and destroys them, leaves the caches
    resolved, and rebuilds the child set of the former parent of [E] from
    the entities that remain; each single removal selects its victim by
    identifier, so two pointers to objects with the same identifier remove
    the same entry. *)
Theorem RemoveGameObject_removes_subtree fuel rank s E :
  wf s -> hierarchy_wf rank s ->
  (forall a, a ∈ m_gameObjects s -> rank a < fuel) ->
  E ∈ m_gameObjects s ->
  exists g ds s',
    mem s !! E = Some g /\
    GetDescendants fuel (mem s) E = Some ds /\
    RemoveGameObject fuel s (Some E) = Some s' /\
    m_gameObjects s' = list_difference (m_gameObjects s) (E :: ds) /\
    length (m_gameObjects s') + (length ds + 1) = length (m_gameObjects s) /\
    (forall a, a ∈ E :: ds -> mem s' !! a = None) /\
    wf s' /\ caches_resolved s' /\
    (forall q, t_parent (m_transform g) = Some q ->
       children_of (mem s') q
       = Some (List.filter (parent_is (mem s') q) (m_gameObjects s'))) /\
    (forall p p' gp gp',
       mem s !! p = Some gp -> mem s !! p' = Some gp' -> m_ID gp = m_ID gp' ->
       RemoveSingleGameObject s (Some p) = RemoveSingleGameObject s (Some p')).
Proof.
  intros Hwf Hh Hfuel HE.
  destruct (hierarchy_removable fuel rank s E Hwf Hh Hfuel HE)
    as (g & ds & [H1 H2 H3 H4 H5 H6 H7]).
  destruct (RemoveGameObject_spec fuel rank s E g ds Hwf H1 H2 H3 H4 H5 H6 H7)
    as (s' & Hrun & Hreg & Hlen & Hdel & _ & Hwf' & Hres & Hch).
  exists g, ds, s'. repeat (split; [assumption|]).
  intros p p' gp gp' Hp Hp' Heq. cbn.
  eapply RemoveSingleGameObject_loop_by_ID; eassumption.
Qed.

Lemma demo_wf : wf demo.
Proof.
  apply (wf_of_objects demo demo_objects).
  - vm_compute. reflexivity.
  - apply (bool_decide_unpack _). vm_compute. exact I.
Qed.

Lemma demo_hierarchy_wf : hierarchy_wf demo_rank demo.
Proof. apply hierarchy_wfb_spec. vm_compute. reflexivity. Qed.

Lemma demo_rank_bound a : demo_rank a < 4.
Proof. unfold demo_rank. repeat (destruct a as [|a]; [lia|]). lia. Qed.

Lemma RemoveGameObject_removes_subtree_witness :
  exists s',
    RemoveGameObject 4 demo (Some 5) = Some s' /\
    m_gameObjects s' = [1; 2; 3; 4; 6] /\
    length (m_gameObjects s') + 2 = 7.
Proof.
  destruct (RemoveGameObject_removes_subtree 4 demo_rank demo 5
              demo_wf demo_hierarchy_wf)
    as (g & ds & s' & _ & Hds & Hrun & Hreg & Hlen & _).
  - intros a _. apply demo_rank_bound.
  - apply (bool_decide_unpack _). vm_compute. exact I.
  - assert (GetDescendants 4 (mem demo) 5 = Some [7]) as Hlamp
      by (vm_compute; reflexivity).
    pose proof (eq_trans (eq_sym Hds) Hlamp) as Heq. injection Heq as ->.
    exists s'. split; [exact Hrun|]. split; [exact Hreg|exact Hlen].
Defined.

(** C5, as stated, fails: removing the light of the example scene, whose
    child is the mesh, leaves the mesh neither registered nor alive. *)
Lemma children_survive_counterexample :
  exists s',
    RemoveGameObject 4 demo (Some 3) = Some s' /\
    children_of (mem demo) 3 = Some [5] /\
    (5 ∉ m_gameObjects s') /\ mem s' !! 5 = None.
Proof.
  eexists. split; [vm_compute; reflexivity|].
  split; [vm_compute; reflexivity|].
  split; [apply (bool_decide_unpack _); vm_compute; exact I|].
  vm_compute. reflexivity.
Qed.

(** C5, amended.  In a well-formed scene, after [RemoveGameObject(E)] no
    child of [E] is left in the registry: the children are destroyed with
    the other descendants, and the child set of the former parent of [E]
    holds neither [E] nor any child of [E]. *)
Theorem RemoveGameObject_removes_children fuel rank s E :
  wf s -> hierarchy_wf rank s ->
  (forall a, a ∈ m_gameObjects s -> rank a < fuel) ->
  E ∈ m_gameObjects s ->
  exists g s',
    mem s !! E = Some g /\
    RemoveGameObject fuel s (Some E) = Some s' /\
    (forall c, c ∈ t_children (m_transform g) ->
       (c ∉ m_gameObjects s') /\ mem s' !! c = None) /\
    (forall q, t_parent (m_transform g) = Some q ->
       exists cs, children_of (mem s') q = Some cs /\ (E ∉ cs) /\
                  forall c, c ∈ t_children (m_transform g) -> c ∉ cs).
Proof.
  intros Hwf Hh Hfuel HE.
  destruct (hierarchy_removable fuel rank s E Hwf Hh Hfuel HE)
    as (g & ds & [H1 H2 H3 H4 H5 H6 H7]).
  destruct (RemoveGameObject_spec fuel rank s E g ds Hwf H1 H2 H3 H4 H5 H6 H7)
    as (s' & Hrun & Hreg & _ & Hdel & _ & _ & _ & Hch).
  pose proof (GetDescendants_children fuel (mem s) E g ds H3 H2) as Hkids.
  assert (forall a, a ∈ E :: ds -> a ∉ m_gameObjects s') as Hgone.
  { intros a Ha Hin. rewrite Hreg in Hin.
    apply list_elem_of_difference in Hin as [_ Hn]. contradiction. }
  exists g, s'. split; [exact H2|]. split; [exact Hrun|]. split.
  - intros c Hc. split; [apply Hgone|apply Hdel]; right; auto.
  - intros q Hq. eexists. split; [exact (Hch q Hq)|].
    assert (forall a, a ∈ E :: ds ->
              a ∉ List.filter (parent_is (mem s') q) (m_gameObjects s')) as Hnot.
    { intros a Ha Hin. apply list_elem_of_In, filter_In in Hin as [Hin _].
      apply (Hgone a Ha). apply list_elem_of_In. assumption. }
    split; [apply Hnot; left|].
    intros c Hc. apply Hnot. right. auto.
Qed.

Lemma RemoveGameObject_removes_children_witness :
  exists s',
    RemoveGameObject 4 demo (Some 5) = Some s' /\
    (7 ∉ m_gameObjects s') /\ mem s' !! 7 = None.
Proof.
  destruct (RemoveGameObject_removes_children 4 demo_rank demo 5
              demo_wf demo_hierarchy_wf)
    as (g & s' & Hg & Hrun & Hkids & _).
  - intros a _. apply demo_rank_bound.
  - apply (bool_decide_unpack _). vm_compute. exact I.
  - assert (mem demo !! 5 = Some demo_mesh) as Hmesh by (vm_compute; reflexivity).
    pose proof (eq_trans (eq_sym Hg) Hmesh) as Heq. injection Heq as ->.
    exists s'. split; [exact Hrun|]. apply (Hkids 7). left.
Defined.

(** ** Order of binary32 values *)

Lemma SFcompare_key x y :
  SFcompare x y =
  match float_key x, float_key y with
  | Some (a1, b1, c1), Some (a2, b2, c2) =>
      Some (match (a1 ?= a2)%Z with
            | Eq => match (b1 ?= b2)%Z with
                    | Eq => (c1 ?= c2)%Z
                    | r => r
                    end
            | r => r
            end)
  | _, _ => None
  end.
Proof.
  destruct x as [[|]|[|]| |[|] m1 e1], y as [[|]|[|]| |[|] m2 e2];
    try reflexivity; cbn [SFcompare float_key Z.compare Pos.compare CompOpp].
  - rewrite Z.compare_opp.
    destruct (e1 ?= e2)%Z eqn:He; rewrite (Z.compare_antisym e1 e2), He;
      reflexivity.
Qed.

Ltac compare_cases :=
  repeat match goal with
         | |- context [(?a ?= ?b)%Z] => destruct (Z.compare_spec a b)
         end.

Lemma ltb_key x y :
  F32.ltb x y = true <->
  exists k1 k2, float_key x = Some k1 /\ float_key y = Some k2 /\ key_lt k1 k2.
Proof.
  unfold F32.ltb, SFltb. rewrite SFcompare_key.
  destruct (float_key x) as [[[a1 b1] c1]|], (float_key y) as [[[a2 b2] c2]|];
    try (split; [discriminate|intros (? & ? & ? & ? & _); discriminate]).
  split.
  - intros Hcmp. eexists _, _. split; [reflexivity|]. split; [reflexivity|].
    cbn. revert Hcmp. compare_cases; intros Hcmp; try discriminate Hcmp; lia.
  - intros (k1 & k2 & [= <-] & [= <-] & Hlt). cbn in Hlt.
    compare_cases; first [reflexivity | exfalso; lia].
Qed.

Lemma eqb_key x y :
  F32.eqb x y = true <->
  exists k, float_key x = Some k /\ float_key y = Some k.
Proof.
  unfold F32.eqb, SFeqb. rewrite SFcompare_key.
  destruct (float_key x) as [[[a1 b1] c1]|], (float_key y) as [[[a2 b2] c2]|];
    try (split; [discriminate|intros (? & ? & ?); discriminate]).
  split.
  - compare_cases; intros Hcmp; try discriminate Hcmp.
    subst. eexists. split; reflexivity.
  - intros (k & [= <-] & [= -> -> ->]). rewrite !Z.compare_refl. reflexivity.
Qed.

Lemma leb_key x y :
  F32.leb x y = true ->
  exists k1 k2, float_key x = Some k1 /\ float_key y = Some k2 /\ ~ key_lt k2 k1.
Proof.
  unfold F32.leb, SFleb. rewrite SFcompare_key.
  destruct (float_key x) as [[[a1 b1] c1]|], (float_key y) as [[[a2 b2] c2]|];
    try discriminate.
  intros Hcmp. eexists _, _. split; [reflexivity|]. split; [reflexivity|]. cbn.
  revert Hcmp. compare_cases; intros Hcmp; try discriminate Hcmp; lia.
Qed.

Lemma key_lt_trans k1 k2 k3 : key_lt k1 k2 -> key_lt k2 k3 -> key_lt k1 k3.
Proof.
  destruct k1 as [[a1 b1] c1], k2 as [[a2 b2] c2], k3 as [[a3 b3] c3]. cbn. lia.
Qed.

Lemma ltb_trans x y z :
  F32.ltb x y = true -> F32.ltb y z = true -> F32.ltb x z = true.
Proof.
  rewrite !ltb_key. intros (k1 & k2 & H1 & H2 & H12) (k2' & k3 & H2' & H3 & H23).
  rewrite H2 in H2'. injection H2' as <-.
  exists k1, k3. split; [assumption|]. split; [assumption|].
  eapply key_lt_trans; eassumption.
Qed.

Lemma eqb_ltb_trans x y z :
  F32.eqb x y = true -> F32.ltb y z = true -> F32.ltb x z = true.
Proof.
  rewrite eqb_key, !ltb_key. intros (k & H1 & H2) (k2 & k3 & H2' & H3 & H23).
  rewrite H2 in H2'. injection H2' as <-.
  exists k, k3. auto.
Qed.

Lemma leb_not_ltb x y : F32.leb x y = true -> F32.ltb y x = false.
Proof.
  intros H. apply leb_key in H as (k1 & k2 & H1 & H2 & Hn).
  apply not_true_is_false. rewrite ltb_key.
  intros (k2' & k1' & H2' & H1' & Hlt).
  rewrite H1 in H1'. rewrite H2 in H2'.
  injection H1' as <-. injection H2' as <-. contradiction.
Qed.

Lemma ltb_irrefl x : F32.ltb x x = false.
Proof.
  apply not_true_is_false. rewrite ltb_key.
  intros (k1 & k2 & H1 & H2 & Hlt). rewrite H1 in H2. injection H2 as <-.
  destruct k1 as [[a b] c]. cbn in Hlt. lia.
Qed.

(** ** Picking *)

Lemma MousePick_closest_inv h camera l :
  forall seen m c r,
    (forall b, b ∈ seen -> F32.ltb (pick_distance h camera b) m = false) ->
    match c with
    | None => m = F32.thousand
    | Some a => m = pick_distance h camera a /\ is_closest h camera seen (Some a)
    end ->
    MousePick_closest h camera l m c = Some r ->
    is_closest h camera (seen ++ l) r.
Proof.
  induction l as [|x l IH]; intros seen m c r Hseen Hc H.
  - cbn in H. injection H as <-. rewrite app_nil_r.
    destruct c as [a|]; [apply Hc|]. cbn. subst m. exact Hseen.
  - cbn in H. destruct (h !! x) as [g|] eqn:Hx; [|discriminate]. cbn in H.
    assert (pick_distance h camera x = distance (GetPosition g) (GetPosition camera))
      as Hd by (unfold pick_distance; rewrite Hx; reflexivity).
    rewrite <- Hd in H.
    replace (seen ++ x :: l) with ((seen ++ [x]) ++ l)
      by (rewrite <- app_assoc; reflexivity).
    destruct (F32.ltb (pick_distance h camera x) m) eqn:Hlt.
    + assert (forall b, b ∈ seen ++ [x] ->
                F32.ltb (pick_distance h camera b) (pick_distance h camera x) = false)
        as Hmin.
      { intros b Hb. apply elem_of_app in Hb as [Hb|Hb].
        - apply not_true_is_false. intros Hbx.
          pose proof (Hseen b Hb) as Hf.
          rewrite (ltb_trans _ _ _ Hbx Hlt) in Hf. discriminate.
        - apply list_elem_of_singleton in Hb as ->. apply ltb_irrefl. }
      apply (IH (seen ++ [x]) _ (Some x) r Hmin); [|exact H].
      split; [reflexivity|]. split; [|split; [exact Hmin|]].
      * destruct c as [a|]; [|subst m; exact Hlt].
        destruct Hc as [-> (Ha & _)]. exact (ltb_trans _ _ _ Hlt Ha).
      * exists seen, []. split; [reflexivity|].
        intros b Hb. apply not_true_is_false. intros Hbx.
        pose proof (Hseen b Hb) as Hf.
        rewrite (eqb_ltb_trans _ _ _ Hbx Hlt) in Hf. discriminate.
    + apply (IH (seen ++ [x]) m c r); [| |exact H].
      * intros b Hb. apply elem_of_app in Hb as [Hb|Hb]; [auto|].
        apply list_elem_of_singleton in Hb as ->. exact Hlt.
      * destruct c as [a|]; [|exact Hc].
        destruct Hc as [-> (Ha & Hmin & pre & post & -> & Hpre)].
        split; [reflexivity|]. split; [exact Ha|]. split.
        -- intros b Hb. apply elem_of_app in Hb as [Hb|Hb]; [auto|].
           apply list_elem_of_singleton in Hb as ->. exact Hlt.
        -- exists pre, (post ++ [x]). split; [|exact Hpre].
           rewrite <- app_assoc. reflexivity.
Qed.

Lemma MousePick_closest_spec h camera cands r :
  MousePick_closest h camera cands F32.thousand nullptr = Some r ->
  is_closest h camera cands r.
Proof.
  intros H.
  apply (MousePick_closest_inv h camera cands [] F32.thousand nullptr r);
    [|reflexivity|exact H].
  intros b Hb. inversion Hb.
Qed.

Lemma MousePick_closest_total h camera l :
  (forall a, a ∈ l -> is_Some (h !! a)) ->
  forall m c, is_Some (MousePick_closest h camera l m c).
Proof.
  induction l as [|x l IH]; intros Hl m c; cbn; [eexists; reflexivity|].
  destruct (Hl x) as [g ->]; [left|]. cbn.
  destruct (F32.ltb _ m); apply IH; intros a Ha; apply Hl; right; assumption.
Qed.

Lemma MousePick_intersect_spec h o d camera l :
  (forall a, a ∈ l ->
     exists g, h !! a = Some g /\
       (HasComponent isSkybox g = false -> is_Some (GetComponent isMeshFilter g))) ->
  MousePick_intersect h o d camera l = Some (List.filter (is_candidate h o d camera) l).
Proof.
  induction l as [|x l IH]; intros Hl; [reflexivity|].
  cbn [MousePick_intersect List.filter].
  destruct (Hl x) as (g & Hg & Hmf); [left|].
  rewrite IH by (intros a Ha; apply Hl; right; assumption).
  assert (is_candidate h o d camera x
          = if HasComponent isSkybox g then false
            else match GetComponent isMeshFilter g with
                 | Some meshFilter =>
                     pick_candidate o d camera
                       (bounding_radius (GetBoundingBox meshFilter))
                 | None => false
                 end) as ->
    by (unfold is_candidate; rewrite Hg; reflexivity).
  rewrite Hg. cbn [mbind option_bind].
  destruct (HasComponent isSkybox g); [reflexivity|].
  destruct (Hmf eq_refl) as [mf ->]. cbn [mbind option_bind]. reflexivity.
Qed.

Lemma HasComponent_GetComponent T g :
  HasComponent T g = true -> is_Some (GetComponent T g).
Proof.
  unfold HasComponent, GetComponent. intros H.
  apply existsb_exists in H as (c & Hin & Hc).
  destruct (find T (m_components g)) as [c'|] eqn:Hf; [eexists; reflexivity|].
  rewrite (find_none _ _ Hf c Hin) in Hc. discriminate.
Qed.

Lemma select_elem (P : GameObject -> bool) objs a :
  a ∈ select P objs -> exists g, (a, g) ∈ objs /\ P g = true.
Proof.
  unfold select. intros H. apply list_elem_of_In, in_map_iff in H as ([a' g] & <- & H).
  apply filter_In in H as [Hin HP]. exists g. split; [|exact HP].
  apply list_elem_of_In. exact Hin.
Qed.

Lemma resolved_select s (P : GameObject -> bool) objs a :
  registry_objects s = Some objs -> a ∈ select P objs ->
  exists g, mem s !! a = Some g /\ P g = true.
Proof.
  intros Hobjs Ha. apply select_elem in Ha as (g & Hin & HP).
  exists g. split; [|exact HP].
  exact (proj2 (registry_objects_spec _ _ _ Hobjs) a g Hin).
Qed.

Example pick_scene_MousePick :
  MousePick (f32 1920) (f32 1080) translate_by_camera normalize pick_scene pick_left
  = Some (Some 2, mkVector2 (SFopp F32.one) (S754_zero true)).
Proof. vm_compute. reflexivity. Qed.

Example far_scene_MousePick :
  MousePick (f32 1920) (f32 1080) translate_by_camera normalize far_scene pick_left
  = Some (nullptr, mkVector2 (SFopp F32.one) (S754_zero true)).
Proof. vm_compute. reflexivity. Qed.

Example tie_scene_MousePick :
  MousePick (f32 1920) (f32 1080) translate_by_camera normalize tie_scene pick_left
  = Some (Some 3, mkVector2 (SFopp F32.one) (S754_zero true)).
Proof. vm_compute. reflexivity. Qed.

Example pick_scene_rays :
  MousePick_ray (f32 1920) (f32 1080) translate_by_camera normalize
    pick_camera (Camera F32.one F32.thousand) pick_left
  = (mkVector3 (f32 0) (f32 0) (f32 (-4)), mkVector3 (f32 0) (f32 0) (f32 1)).
Proof. vm_compute. reflexivity. Qed.

Lemma is_candidate_hit_by h o d camera a :
  is_candidate h o d camera a
  = hit_by o d h a && negb (hit_by (GetPosition camera) (GetForward camera) h a).
Proof.
  unfold is_candidate, hit_by, sphere_radius, pick_candidate.
  destruct (h !! a) as [g|]; cbn; [|reflexivity].
  destruct (HasComponent isSkybox g); [reflexivity|].
  destruct (GetComponent isMeshFilter g) as [mf|]; cbn; [|reflexivity].
  destruct (RaySphereIntersect o d _); [|reflexivity].
  destruct (RaySphereIntersect (GetPosition camera) _ _); reflexivity.
Qed.

Section PickingProperties.

Variable RESOLUTION_WIDTH RESOLUTION_HEIGHT : float.
Variable TransformByViewProjectionInv : GameObject -> Vector3 -> Vector3.
Variable Normalized : Vector3 -> Vector3.

Let ray := MousePick_ray RESOLUTION_WIDTH RESOLUTION_HEIGHT
             TransformByViewProjectionInv Normalized.
Let pick := MousePick RESOLUTION_WIDTH RESOLUTION_HEIGHT
              TransformByViewProjectionInv Normalized.
Let candidates := MousePick_candidates RESOLUTION_WIDTH RESOLUTION_HEIGHT
                    TransformByViewProjectionInv Normalized.

(** With resolved caches and an active camera, [MousePick] returns: the
    candidates are the renderables that pass [is_candidate], in cache
    order, and the result is the selection among them. *)
Lemma MousePick_structure s mousePos mainCamera :
  caches_resolved s -> m_mainCamera s = Some mainCamera ->
  exists camera cameraComponent r,
    mem s !! mainCamera = Some camera /\
    GetComponent isCamera camera = Some cameraComponent /\
    let o := fst (ray camera cameraComponent mousePos) in
    let d := snd (ray camera cameraComponent mousePos) in
    let cands := List.filter (is_candidate (mem s) o d camera) (m_renderables s) in
    candidates s mousePos = Some cands /\
    MousePick_closest (mem s) camera cands F32.thousand nullptr = Some r /\
    pick s mousePos = Some (r, MousePick_ndc RESOLUTION_WIDTH RESOLUTION_HEIGHT mousePos).
Proof.
  intros Hres Hcam.
  apply caches_resolved_classify in Hres as (objs & Hobjs & Hc).
  assert (m_mainCamera s = last (select (HasComponent isCamera) objs)) as Hcam'
    by (change (c_mainCamera (caches_of s) = c_mainCamera (classify objs));
        rewrite Hc; reflexivity).
  assert (m_renderables s = select isRenderable objs) as Hren
    by (change (c_renderables (caches_of s) = c_renderables (classify objs));
        rewrite Hc; reflexivity).
  rewrite Hcam in Hcam'. symmetry in Hcam'. apply last_Some_elem_of in Hcam'.
  destruct (resolved_select s _ objs mainCamera Hobjs Hcam') as (camera & Hg & Hhas).
  destruct (HasComponent_GetComponent _ _ Hhas) as [cc Hcc].
  assert (forall a, a ∈ m_renderables s ->
            exists g, mem s !! a = Some g /\
              (HasComponent isSkybox g = false ->
               is_Some (GetComponent isMeshFilter g))) as Hlive.
  { intros a Ha. rewrite Hren in Ha.
    destruct (resolved_select s _ objs a Hobjs Ha) as (g & Hga & Hr).
    exists g. split; [exact Hga|]. intros _.
    apply HasComponent_GetComponent.
    unfold isRenderable in Hr. apply andb_true_iff in Hr as [_ Hr]. exact Hr. }
  pose proof (MousePick_intersect_spec (mem s)
                (fst (ray camera cc mousePos)) (snd (ray camera cc mousePos))
                camera (m_renderables s) Hlive) as Hint.
  destruct (MousePick_closest_total (mem s) camera
              (List.filter (is_candidate (mem s) (fst (ray camera cc mousePos))
                              (snd (ray camera cc mousePos)) camera)
                           (m_renderables s))) with (m := F32.thousand) (c := nullptr)
    as [r Hr].
  { intros a Ha. apply list_elem_of_In, filter_In in Ha as [Ha _].
    destruct (Hlive a) as (g & -> & _); [apply list_elem_of_In; exact Ha|].
    eexists; reflexivity. }
  exists camera, cc, r. split; [exact Hg|]. split; [exact Hcc|].
  cbv zeta. split; [|split; [exact Hr|]].
  - unfold candidates, MousePick_candidates. rewrite Hcam. cbn [mbind option_bind].
    rewrite Hg. cbn [mbind option_bind]. rewrite Hcc. cbn [mbind option_bind].
    exact Hint.
  - unfold pick, MousePick. rewrite Hcam. cbn [mbind option_bind].
    rewrite Hg. cbn [mbind option_bind]. rewrite Hcc. cbn [mbind option_bind].
    fold ray. rewrite Hint. cbn [mbind option_bind]. rewrite Hr. reflexivity.
Qed.


(** C7, as stated, fails: in the example scene the pick ray intersects the
    bounding sphere of the cube and the ray from the camera along its
    forward vector does not, yet the cube is a candidate and is picked. *)
Lemma camera_ray_filter_counterexample :
  hit_by (mkVector3 (f32 0) (f32 0) (f32 (-4))) (mkVector3 (f32 0) (f32 0) (f32 1))
         (mem pick_scene) 2 = true /\
  hit_by (GetPosition pick_camera) (GetForward pick_camera) (mem pick_scene) 2
  = false /\
  MousePick_ray (f32 1920) (f32 1080) translate_by_camera normalize
    pick_camera (Camera F32.one F32.thousand) pick_left
  = (mkVector3 (f32 0) (f32 0) (f32 (-4)), mkVector3 (f32 0) (f32 0) (f32 1)) /\
  MousePick_candidates (f32 1920) (f32 1080) translate_by_camera normalize
    pick_scene pick_left = Some [2] /\
  fst <$> MousePick (f32 1920) (f32 1080) translate_by_camera normalize
            pick_scene pick_left = Some (Some 2).
Proof. repeat split; vm_compute; reflexivity. Qed.

(** C7, amended.  With resolved caches and an active camera, the game
    objects that reach the closest-selection stage of [MousePick] are
    exactly the renderables, other than a skybox, whose bounding sphere the
    pick ray intersects and the ray from the camera position along the
    camera's forward vector does not intersect: a renderable hit by the
    pick ray is discarded whenever that second ray intersects its sphere. *)
Theorem MousePick_keeps_camera_ray_misses s mousePos mainCamera :
  caches_resolved s -> m_mainCamera s = Some mainCamera ->
  exists camera cameraComponent cands r,
    mem s !! mainCamera = Some camera /\
    GetComponent isCamera camera = Some cameraComponent /\
    candidates s mousePos = Some cands /\
    MousePick_closest (mem s) camera cands F32.thousand nullptr = Some r /\
    pick s mousePos
    = Some (r, MousePick_ndc RESOLUTION_WIDTH RESOLUTION_HEIGHT mousePos) /\
    forall a,
      a ∈ cands <->
      a ∈ m_renderables s /\
      hit_by (fst (ray camera cameraComponent mousePos))
             (snd (ray camera cameraComponent mousePos)) (mem s) a = true /\
      hit_by (GetPosition camera) (GetForward camera) (mem s) a = false.
Proof.
  intros Hres Hcam.
  destruct (MousePick_structure s mousePos mainCamera Hres Hcam)
    as (camera & cc & r & Hg & Hcc & Hcands & Hr & Hpick).
  exists camera, cc. eexists. exists r.
  split; [exact Hg|]. split; [exact Hcc|]. split; [exact Hcands|].
  split; [exact Hr|]. split; [exact Hpick|].
  intros a. rewrite list_elem_of_In, filter_In, <- list_elem_of_In.
  rewrite is_candidate_hit_by, andb_true_iff, negb_true_iff. reflexivity.
Qed.

(** C8, as stated, fails: in the example scene the cube survives the
    intersection tests and is the only candidate, but [MousePick] returns
    the null pointer. *)
Lemma closest_candidate_counterexample :
  MousePick_candidates (f32 1920) (f32 1080) translate_by_camera normalize
    far_scene pick_left = Some [2] /\
  fst <$> MousePick (f32 1920) (f32 1080) translate_by_camera normalize
            far_scene pick_left = Some nullptr.
Proof. split; vm_compute; reflexivity. Qed.

(** C8, amended.  With resolved caches and an active camera, [MousePick]
    returns, among the candidates that survive the intersection tests and
    whose distance from the camera position is below 1000, one that no
    candidate is closer than, and the first such in iteration order when
    several are at that distance; it returns the null pointer when no
    candidate is below 1000, in particular when no renderable is
    intersected by the pick ray. *)
Theorem MousePick_closest_below_1000 s mousePos mainCamera :
  caches_resolved s -> m_mainCamera s = Some mainCamera ->
  exists camera cameraComponent cands r,
    mem s !! mainCamera = Some camera /\
    GetComponent isCamera camera = Some cameraComponent /\
    candidates s mousePos = Some cands /\
    pick s mousePos
    = Some (r, MousePick_ndc RESOLUTION_WIDTH RESOLUTION_HEIGHT mousePos) /\
    match r with
    | None =>
        forall b, b ∈ cands ->
          F32.ltb (pick_distance (mem s) camera b) F32.thousand = false
    | Some a =>
        F32.ltb (pick_distance (mem s) camera a) F32.thousand = true /\
        (forall b, b ∈ cands ->
           F32.ltb (pick_distance (mem s) camera b)
                   (pick_distance (mem s) camera a) = false) /\
        exists pre post,
          cands = pre ++ a :: post /\
          forall b, b ∈ pre ->
            F32.eqb (pick_distance (mem s) camera b)
                    (pick_distance (mem s) camera a) = false
    end /\
    ((forall a, a ∈ m_renderables s ->
        hit_by (fst (ray camera cameraComponent mousePos))
               (snd (ray camera cameraComponent mousePos)) (mem s) a = false) ->
     r = nullptr).
Proof.
  intros Hres Hcam.
  destruct (MousePick_structure s mousePos mainCamera Hres Hcam)
    as (camera & cc & r & Hg & Hcc & Hcands & Hr & Hpick).
  exists camera, cc. eexists. exists r.
  split; [exact Hg|]. split; [exact Hcc|]. split; [exact Hcands|].
  split; [exact Hpick|].
  pose proof (MousePick_closest_spec _ _ _ _ Hr) as Hclosest.
  split; [exact Hclosest|].
  intros Hmiss. destruct r as [a|]; [|reflexivity].
  destruct Hclosest as (_ & _ & pre & post & Heq & _).
  assert (a ∈ List.filter
            (is_candidate (mem s) (fst (ray camera cc mousePos))
               (snd (ray camera cc mousePos)) camera) (m_renderables s)) as Ha
    by (rewrite Heq; apply elem_of_app; right; left).
  apply list_elem_of_In, filter_In in Ha as [Ha Hc].
  rewrite is_candidate_hit_by, (Hmiss a) in Hc; [discriminate|].
  apply list_elem_of_In. exact Ha.
Qed.

(** C10.  If [MousePick] returns a game object, its distance from the
    camera position is strictly below 1000; and, with resolved caches and
    an active camera, when every renderable whose bounding sphere the pick
    ray intersects is at distance 1000 or more, [MousePick] returns the
    null pointer. *)
Theorem MousePick_range_1000 s mousePos mainCamera camera :
  m_mainCamera s = Some mainCamera -> mem s !! mainCamera = Some camera ->
  (forall a mp,
     pick s mousePos = Some (Some a, mp) ->
     F32.ltb (pick_distance (mem s) camera a) F32.thousand = true) /\
  (caches_resolved s ->
   exists cameraComponent,
     GetComponent isCamera camera = Some cameraComponent /\
     ((forall a, a ∈ m_renderables s ->
         hit_by (fst (ray camera cameraComponent mousePos))
                (snd (ray camera cameraComponent mousePos)) (mem s) a = true ->
         F32.leb F32.thousand (pick_distance (mem s) camera a) = true) ->
      pick s mousePos
      = Some (nullptr, MousePick_ndc RESOLUTION_WIDTH RESOLUTION_HEIGHT mousePos))).
Proof.
  intros Hcam Hg. split.
  - intros a mp H. unfold pick, MousePick in H. rewrite Hcam in H.
    cbn [mbind option_bind] in H. rewrite Hg in H. cbn [mbind option_bind] in H.
    destruct (GetComponent isCamera camera) as [cc|]; [|discriminate].
    cbn [mbind option_bind] in H.
    destruct (MousePick_intersect _ _ _ _ _) as [cands|]; [|discriminate].
    cbn [mbind option_bind] in H.
    destruct (MousePick_closest _ _ _ _ _) as [r|] eqn:Hr; [|discriminate].
    cbn [mbind option_bind] in H. injection H as -> _.
    exact (proj1 (MousePick_closest_spec _ _ _ _ Hr)).
  - intros Hres.
    destruct (MousePick_structure s mousePos mainCamera Hres Hcam)
      as (camera' & cc & r & Hg' & Hcc & Hcands & Hr & Hpick).
    rewrite Hg in Hg'. injection Hg' as <-.
    exists cc. split; [exact Hcc|]. intros Hfar. rewrite Hpick.
    destruct r as [a|]; [exfalso|reflexivity].
    destruct (MousePick_closest_spec _ _ _ _ Hr) as (Hlt & _ & pre & post & Heq & _).
    assert (a ∈ List.filter
              (is_candidate (mem s) (fst (ray camera cc mousePos))
                 (snd (ray camera cc mousePos)) camera) (m_renderables s)) as Ha
      by (rewrite Heq; apply elem_of_app; right; left).
    apply list_elem_of_In, filter_In in Ha as [Ha Hc].
    rewrite is_candidate_hit_by in Hc. apply andb_true_iff in Hc as [Hhit _].
    apply list_elem_of_In in Ha.
    rewrite (leb_not_ltb _ _ (Hfar a Ha Hhit)) in Hlt. discriminate.
Qed.

End PickingProperties.

Lemma MousePick_keeps_camera_ray_misses_witness :
  exists camera cands r,
    mem pick_scene !! 1 = Some camera /\
    MousePick_candidates (f32 1920) (f32 1080) translate_by_camera normalize
      pick_scene pick_left = Some cands /\
    MousePick_closest (mem pick_scene) camera cands F32.thousand nullptr = Some r.
Proof.
  destruct (MousePick_keeps_camera_ray_misses (f32 1920) (f32 1080)
              translate_by_camera normalize pick_scene pick_left 1)
    as (camera & cc & cands & r & Hg & _ & Hcands & Hr & _).
  - vm_compute. reflexivity.
  - reflexivity.
  - exists camera, cands, r. auto.
Defined.

Lemma MousePick_closest_below_1000_witness :
  exists camera cands r,
    mem tie_scene !! 1 = Some camera /\
    MousePick_candidates (f32 1920) (f32 1080) translate_by_camera normalize
      tie_scene pick_left = Some cands /\
    fst <$> MousePick (f32 1920) (f32 1080) translate_by_camera normalize
              tie_scene pick_left = Some r /\
    is_closest (mem tie_scene) camera cands r.
Proof.
  destruct (MousePick_closest_below_1000 (f32 1920) (f32 1080)
              translate_by_camera normalize tie_scene pick_left 1)
    as (camera & cc & cands & r & Hg & _ & Hcands & Hpick & Hclosest & _).
  - vm_compute. reflexivity.
  - reflexivity.
  - exists camera, cands, r. rewrite Hpick. auto.
Defined.

Lemma MousePick_range_1000_witness :
  MousePick (f32 1920) (f32 1080) translate_by_camera normalize far_scene pick_left
  = Some (nullptr, MousePick_ndc (f32 1920) (f32 1080) pick_left).
Proof.
  destruct (MousePick_range_1000 (f32 1920) (f32 1080) translate_by_camera
              normalize far_scene pick_left 1 pick_camera)
    as [_ Hfar].
  - reflexivity.
  - vm_compute. reflexivity.
  - destruct Hfar as (cc & Hcc & Hnull).
    + vm_compute. reflexivity.
    + apply Hnull. intros a Ha _.
      apply list_elem_of_singleton in Ha as ->. vm_compute. reflexivity.
Defined.

(** ** Persistence *)

Example ABC_roundtrip_literal :
  let ext := ".directus" in
  let ctx := mkContext [(MeshResource, "cube.obj")] ∅ [] [] in
  let s := ABC_scene [1; 2; 3]
             (mkEntityData "a" "Camera" true Vector3_Zero Vector3_Forward)
             (mkEntityData "b" "Sun" true Vector3_Zero Vector3_Forward)
             (mkEntityData "c" "Cube" true Vector3_Zero Vector3_Forward)
             F32.one F32.thousand unit_box in
  (ctx1 ← snd <$> SaveToFile ext (fun _ => "") 3 ctx s "x";
   '(ctx2, s2) ← Clear ctx1 s;
   r ← LoadFromFile (fun _ => true) (fun _ => false) (fun _ => false)
         3 ctx2 s2 "x.directus";
   Some (fst (fst r), entities_view (snd r), caches_view (snd r)))
  = Some (true, entities_view s, caches_view s).
Proof. vm_compute. reflexivity. Qed.

Lemma int32_small (n : nat) : (Z.of_nat n < 2 ^ 31)%Z -> int32 (Z.of_nat n) = Z.of_nat n.
Proof.
  intros H. unfold int32. rewrite Z.mod_small; lia.
Qed.

Lemma read_many_STR (v : list string) rest :
  read_many ReadSTR (length v) (concat (map WriteSTR v) ++ rest) = Some (v, rest).
Proof.
  induction v as [|x v IH]; [reflexivity|].
  cbn. rewrite IH. reflexivity.
Qed.

Lemma ReadVectorSTR_WriteVectorSTR (v : list string) rest :
  (Z.of_nat (length v) < 2 ^ 31)%Z ->
  ReadVectorSTR (WriteVectorSTR v ++ rest) = Some (v, rest).
Proof.
  intros H. unfold ReadVectorSTR, WriteVectorSTR, WriteInt.
  rewrite int32_small by assumption. cbn [app ReadInt mbind option_bind].
  rewrite Nat2Z.id. apply read_many_STR.
Qed.

Lemma Clear_registry ctx s ctx1 s1 :
  Clear ctx s = Some (ctx1, s1) ->
  m_gameObjects s1 = [] /\ caches_of s1 = Caches_empty /\
  ctx_files ctx1 = ctx_files ctx /\ ctx_faults ctx1 = ctx_faults ctx.
Proof.
  unfold Clear. destruct (for_each _ (mem s) (m_gameObjects s)) as [h|]; [|discriminate].
  cbn. intros [= <- <-]. auto.
Qed.

Lemma ABC_objects_roundtrip fuel reg A B C near far box :
  reg ≡ₚ [1; 2; 3] ->
  let s := ABC_scene reg A B C near far box in
  exists objects s3 IDs3 views3 views,
    SaveToFile_objects (S (S fuel)) s = Some objects /\
    LoadFromFile_objects (S (S fuel)) (mkScene ∅ [] [] [] [] nullptr nullptr)
      (WriteVectorSTR [] ++ objects) = Some s3 /\
    length (m_gameObjects s3) = length (m_gameObjects s) /\
    mapM (ID_at (mem s3)) (m_gameObjects s3) = Some IDs3 /\
    IDs3 ≡ₚ [e_ID A; e_ID B; e_ID C] /\
    entities_view s3 = Some views3 /\
    entities_view s = Some views /\
    views3 ≡ₚ views /\
    caches_view s3 = (Some (e_ID A), None, Some [e_ID C], Some [e_ID B], Some []).
Proof.
  intros Hreg s. subst s.
  destruct A as [idA nameA visibleA [ax ay az] [afx afy afz]],
           B as [idB nameB visibleB [bx by' bz] [bfx bfy bfz]],
           C as [idC nameC visibleC [cx cy cz] [cfx cfy cfz]],
           box as [ex ey ez].
  apply Permutation_sym, permutations_Permutation in Hreg. vm_compute in Hreg.
  repeat (apply elem_of_cons in Hreg as [->|Hreg]); [..|inversion Hreg];
    (eexists _, _, _, _, _;
     split; [vm_compute; reflexivity|];
     split; [vm_compute; reflexivity|];
     split; [vm_compute; reflexivity|];
     split; [vm_compute; reflexivity|];
     split; [apply permutations_Permutation; vm_compute; repeat constructor|];
     split; [vm_compute; reflexivity|];
     split; [vm_compute; reflexivity|];
     split; [apply permutations_Permutation; vm_compute; repeat constructor|];
     vm_compute; reflexivity).
Qed.

Lemma ABC_delete_all reg A B C near far box :
  reg ≡ₚ [1; 2; 3] ->
  let s := ABC_scene reg A B C near far box in
  for_each (fun h gameObject => _ ← h !! gameObject; Some (delete gameObject h))
           (mem s) (m_gameObjects s) = Some (∅ : gmap addr GameObject).
Proof.
  intros Hreg s. subst s.
  apply Permutation_sym, permutations_Permutation in Hreg. vm_compute in Hreg.
  repeat (apply elem_of_cons in Hreg as [->|Hreg]); [..|inversion Hreg];
    vm_compute; reflexivity.
Qed.

Section PersistenceProperties.

Variable SCENE_EXTENSION : string.
Variable GetExtensionFromPath : string -> string.
Variable IsSupportedMeshFile IsSupportedMaterialFile IsSupportedImageFile
  : string -> bool.

Let load := LoadFromFile IsSupportedMeshFile IsSupportedMaterialFile
              IsSupportedImageFile.
Let save := SaveToFile SCENE_EXTENSION GetExtensionFromPath.
Let load_resources :=
  fold_left (load_resource IsSupportedMeshFile IsSupportedMaterialFile
               IsSupportedImageFile).

Lemma load_resources_files paths ctx :
  ctx_files (load_resources paths ctx) = ctx_files ctx /\
  ctx_faults (load_resources paths ctx) = ctx_faults ctx.
Proof.
  revert ctx. induction paths as [|p paths IH]; intros ctx; [auto|].
  cbn. destruct (IH (load_resource IsSupportedMeshFile IsSupportedMaterialFile
                       IsSupportedImageFile ctx p)) as [-> ->].
  unfold load_resource.
  destruct (IsSupportedMeshFile p); [auto|].
  destruct (IsSupportedMaterialFile p); [auto|].
  destruct (IsSupportedImageFile p); auto.
Qed.

(** C6.  [LoadFromFile] reports failure through its boolean result.  When
    no file exists at the path it returns false and leaves the scene as it
    was, the existence test coming before [Clear]; when the read stream
    fails to open after [Clear] has run, at the first or at the second
    opening, it returns false and leaves the registry empty. *)
Theorem LoadFromFile_failure fuel ctx s filePath :
  (ctx_files ctx !! filePath = None ->
   load fuel ctx s filePath
   = Some (false, call (LOG_ERROR (filePath ++ " was not found.")) ctx, s)) /\
  (forall ctx1 s1 st faults,
     ctx_files ctx !! filePath = Some st ->
     Clear ctx s = Some (ctx1, s1) ->
     ctx_faults ctx = true :: faults ->
     exists ctx', load fuel ctx s filePath = Some (false, ctx', s1) /\
                  m_gameObjects s1 = [] /\ caches_of s1 = Caches_empty) /\
  (forall ctx1 s1 st resourcePaths rest faults,
     ctx_files ctx !! filePath = Some st ->
     Clear ctx s = Some (ctx1, s1) ->
     ReadVectorSTR st = Some (resourcePaths, rest) ->
     ctx_faults ctx = false :: true :: faults ->
     exists ctx', load fuel ctx s filePath = Some (false, ctx', s1) /\
                  m_gameObjects s1 = [] /\ caches_of s1 = Caches_empty).
Proof.
  split; [|split].
  - intros Hnone. unfold load, LoadFromFile, FileExists. rewrite Hnone. reflexivity.
  - intros ctx1 s1 st faults Hst HClear Hfaults.
    destruct (Clear_registry _ _ _ _ HClear) as (Hreg & Hc & Hfiles & Hf).
    eexists. split; [|auto].
    unfold load, LoadFromFile, FileExists. rewrite Hst. cbn [negb].
    rewrite HClear. cbn [mbind option_bind].
    unfold StartReading, open_stream. rewrite Hf, Hfaults. cbn [negb]. reflexivity.
  - intros ctx1 s1 st paths rest faults Hst HClear Hread Hfaults.
    destruct (Clear_registry _ _ _ _ HClear) as (Hreg & Hc & Hfiles & Hf).
    eexists. split; [|auto].
    unfold load, LoadFromFile, FileExists. rewrite Hst. cbn [negb].
    rewrite HClear. cbn [mbind option_bind].
    unfold StartReading at 1. unfold open_stream at 1.
    rewrite Hf, Hfaults, Hfiles, Hst. cbn [negb].
    rewrite Hread. cbn [mbind option_bind].
    unfold StartReading, open_stream.
    fold load_resources.
    rewrite (proj2 (load_resources_files paths _)). cbn [ctx_faults negb].
    reflexivity.
Qed.


Lemma LoadFromFile_objects_skip fuel s (v : list string) rest :
  (Z.of_nat (length v) < 2 ^ 31)%Z ->
  LoadFromFile_objects fuel s (WriteVectorSTR v ++ rest)
  = LoadFromFile_objects fuel s (WriteVectorSTR [] ++ rest).
Proof.
  intros Hv. unfold LoadFromFile_objects.
  rewrite (ReadVectorSTR_WriteVectorSTR v rest Hv).
  rewrite (ReadVectorSTR_WriteVectorSTR [] rest) by (cbn; lia).
  reflexivity.
Qed.

Lemma LoadFromFile_success fuel ctx s filePath ctx1 s1 resourcePaths objects s2 :
  ctx_files ctx !! filePath = Some (WriteVectorSTR resourcePaths ++ objects) ->
  (Z.of_nat (length resourcePaths) < 2 ^ 31)%Z ->
  ctx_faults ctx = [] ->
  Clear ctx s = Some (ctx1, s1) ->
  LoadFromFile_objects fuel s1 (WriteVectorSTR [] ++ objects) = Some s2 ->
  load fuel ctx s filePath = Some (true, load_resources resourcePaths ctx1, s2).
Proof.
  intros Hst Hlen Hfaults HClear Hobjects.
  destruct (Clear_registry _ _ _ _ HClear) as (_ & _ & Hfiles & Hf).
  unfold load, LoadFromFile, FileExists. rewrite Hst. cbn [negb].
  rewrite HClear. cbn [mbind option_bind].
  unfold StartReading at 1. unfold open_stream at 1.
  rewrite Hf, Hfaults, Hfiles, Hst.
  rewrite (ReadVectorSTR_WriteVectorSTR _ _ Hlen). cbn [mbind option_bind].
  unfold StartReading, open_stream. fold load_resources.
  destruct (load_resources_files resourcePaths ctx1) as [-> ->].
  rewrite Hf, Hfaults, Hfiles, Hst.
  rewrite (LoadFromFile_objects_skip _ _ _ _ Hlen), Hobjects. reflexivity.
Qed.

Lemma SaveToFile_success fuel ctx s filePathIn objects :
  ctx_faults ctx = [] ->
  SaveToFile_objects fuel s = Some objects ->
  save fuel ctx s filePathIn
  = Some (true,
          StopWriting (call ResourceManager_SaveResourceMetadata ctx)
            (scene_file_path SCENE_EXTENSION GetExtensionFromPath filePathIn)
            (WriteVectorSTR (GetResourceFilePaths ctx) ++ objects)).
Proof.
  intros Hfaults Hobjects. unfold save, SaveToFile, StartWriting, open_stream.
  cbn [call ctx_faults]. rewrite Hfaults. cbn [negb].
  unfold SaveToFile_stream. rewrite Hobjects. reflexivity.
Qed.

(** C1.  For the scene with the roots [A] (camera) and [B] (directional
    light) and with [C] (mesh renderer and mesh filter) as the child of
    [B], in any registry order, saving to ["x"], which appends the scene
    extension, clearing, and loading the file written gives a registry with
    as many entities, the same identifiers, the same entity data with the
    same parent and child relations, and resolved caches in which [A] is
    the active camera, [B] the only directional light and [C] the only
    renderable. *)
Theorem save_clear_load_roundtrip fuel ctx reg A B C near far box :
  GetExtensionFromPath "x" <> SCENE_EXTENSION ->
  ctx_faults ctx = [] ->
  (Z.of_nat (length (ctx_resources ctx)) < 2 ^ 31)%Z ->
  2 <= fuel ->
  reg ≡ₚ [1; 2; 3] ->
  let s := ABC_scene reg A B C near far box in
  exists ctx1 ctx2 s2 ctx3 s3 IDs3 views3 views,
    save fuel ctx s "x" = Some (true, ctx1) /\
    Clear ctx1 s = Some (ctx2, s2) /\
    load fuel ctx2 s2 ("x" ++ SCENE_EXTENSION) = Some (true, ctx3, s3) /\
    length (m_gameObjects s3) = length (m_gameObjects s) /\
    mapM (ID_at (mem s3)) (m_gameObjects s3) = Some IDs3 /\
    IDs3 ≡ₚ [e_ID A; e_ID B; e_ID C] /\
    entities_view s3 = Some views3 /\
    entities_view s = Some views /\
    views3 ≡ₚ views /\
    caches_view s3 = (Some (e_ID A), None, Some [e_ID C], Some [e_ID B], Some []).
Proof.
  intros Hext Hfaults Hlen Hfuel Hreg s.
  destruct fuel as [|[|fuel]]; [lia|lia|].
  destruct (ABC_objects_roundtrip fuel reg A B C near far box Hreg)
    as (objects & s3 & IDs3 & views3 & views & Hsave & Hload & Hview).
  pose proof (ABC_delete_all reg A B C near far box Hreg) as Clear_loop.
  cbv zeta in Clear_loop. fold s in Clear_loop, Hsave, Hview.
  pose proof (SaveToFile_success (S (S fuel)) ctx s "x" objects Hfaults Hsave) as HS.
  unfold scene_file_path in HS.
  destruct (decide (GetExtensionFromPath "x" = SCENE_EXTENSION)); [contradiction|].
  set (ctx1 := StopWriting _ _ _) in HS.
  assert (Clear ctx1 s
          = Some (call Renderer_Clear
                    (call Physics_Reset (call Scripting_Reset (Unload ctx1))),
                  mkScene ∅ [] [] [] [] nullptr nullptr)) as HC.
  { unfold Clear. rewrite Clear_loop. reflexivity. }
  set (ctx2 := call Renderer_Clear _) in HC.
  assert (Clear ctx2 (mkScene ∅ [] [] [] [] nullptr nullptr)
          = Some (call Renderer_Clear
                    (call Physics_Reset (call Scripting_Reset (Unload ctx2))),
                  mkScene ∅ [] [] [] [] nullptr nullptr)) as HC2 by reflexivity.
  eexists ctx1, ctx2, _, _, s3, IDs3, views3, views.
  split; [exact HS|]. split; [exact HC|]. split; [|exact Hview].
  eapply (LoadFromFile_success (S (S fuel)) ctx2 _ ("x" ++ SCENE_EXTENSION)
            _ _ (GetResourceFilePaths ctx) objects s3).
  - subst ctx2 ctx1. cbn [call Unload StopWriting ctx_files].
    apply lookup_insert_eq.
  - unfold GetResourceFilePaths. rewrite length_map. exact Hlen.
  - subst ctx2 ctx1. cbn [call Unload StopWriting ctx_faults]. exact Hfaults.
  - exact HC2.
  - exact Hload.
Qed.

End PersistenceProperties.

Lemma save_clear_load_roundtrip_witness :
  let A := mkEntityData "id-a" "Camera" true Vector3_Zero Vector3_Forward in
  let B := mkEntityData "id-b" "Sun" true Vector3_Zero Vector3_Forward in
  let C := mkEntityData "id-c" "Cube" true Vector3_Zero Vector3_Forward in
  let s := ABC_scene [3; 1; 2] A B C F32.one F32.thousand unit_box in
  exists ctx1 ctx2 s2 ctx3 s3,
    SaveToFile ".directus" extension_of 2 fresh_context s "x" = Some (true, ctx1) /\
    Clear ctx1 s = Some (ctx2, s2) /\
    LoadFromFile is_mesh_file is_material_file is_image_file 2 ctx2 s2 "x.directus"
    = Some (true, ctx3, s3) /\
    caches_view s3 = (Some "id-a", None, Some ["id-c"], Some ["id-b"], Some []).
Proof.
  intros A B C s.
  destruct (save_clear_load_roundtrip ".directus" extension_of
              is_mesh_file is_material_file is_image_file 2 fresh_context
              [3; 1; 2] A B C F32.one F32.thousand unit_box)
    as (ctx1 & ctx2 & s2 & ctx3 & s3 & IDs3 & views3 & views
        & HS & HC & HL & _ & _ & _ & _ & _ & _ & Hcaches).
  - vm_compute. discriminate.
  - reflexivity.
  - vm_compute. reflexivity.
  - lia.
  - apply permutations_Permutation. vm_compute. repeat constructor.
  - exists ctx1, ctx2, s2, ctx3, s3. auto.
Defined.

Lemma LoadFromFile_failure_witness :
  LoadFromFile is_mesh_file is_material_file is_image_file 2
    fresh_context demo "scene.directus"
  = Some (false, call (LOG_ERROR "scene.directus was not found.") fresh_context, demo)
  /\
  (exists ctx' s1,
     LoadFromFile is_mesh_file is_material_file is_image_file 2
       (context_with_file [true]) demo "scene.directus" = Some (false, ctx', s1) /\
     m_gameObjects s1 = []) /\
  (exists ctx' s1,
     LoadFromFile is_mesh_file is_material_file is_image_file 2
       (context_with_file [false; true]) demo "scene.directus"
     = Some (false, ctx', s1) /\
     m_gameObjects s1 = []).
Proof.
  assert (forall faults,
            is_Some (Clear (context_with_file faults) demo)) as HClear
    by (intros faults; vm_compute; eexists; reflexivity).
  split; [|split].
  - apply (LoadFromFile_failure is_mesh_file is_material_file is_image_file 2
             fresh_context demo "scene.directus").
    vm_compute. reflexivity.
  - destruct (HClear [true]) as [[ctx1 s1] HC].
    destruct (LoadFromFile_failure is_mesh_file is_material_file is_image_file 2
                (context_with_file [true]) demo "scene.directus") as (_ & H2 & _).
    destruct (H2 ctx1 s1 (WriteVectorSTR ["cube.obj"] ++ WriteInt 0) [])
      as (ctx' & Hload & Hreg & _).
    + vm_compute. reflexivity.
    + exact HC.
    + reflexivity.
    + exists ctx', s1. auto.
  - destruct (HClear [false; true]) as [[ctx1 s1] HC].
    destruct (LoadFromFile_failure is_mesh_file is_material_file is_image_file 2
                (context_with_file [false; true]) demo "scene.directus")
      as (_ & _ & H3).
    destruct (H3 ctx1 s1 (WriteVectorSTR ["cube.obj"] ++ WriteInt 0)
                ["cube.obj"] (WriteInt 0) [])
      as (ctx' & Hload & Hreg & _).
    + vm_compute. reflexivity.
    + exact HC.
    + vm_compute. reflexivity.
    + reflexivity.
    + exists ctx', s1. auto.
Defined.

(* ===================================================================== *)
(** * Further properties *)
(* ===================================================================== *)

(** ** Creation and lookup *)

Lemma live_registry_objects s :
  live s -> exists objs, registry_objects s = Some objs.
Proof.
  intros Hl. unfold registry_objects.
  apply (mapM_is_Some_2 (fun a => g ← mem s !! a; Some (a, g))).
  apply Forall_forall. intros a Ha. destruct (Hl a Ha) as [g Hg].
  cbn. rewrite Hg. eexists. reflexivity.
Qed.

Lemma registry_objects_live s objs : registry_objects s = Some objs -> live s.
Proof.
  intros H a Ha. apply registry_objects_spec in H as [Hfst Hobj].
  rewrite <- Hfst in Ha. apply list_elem_of_fmap in Ha as ([a' g] & -> & Hin).
  exists g. apply Hobj. exact Hin.
Qed.

Lemma Resolve_mem s s' :
  Resolve s = Some s' -> mem s' = mem s /\ m_gameObjects s' = m_gameObjects s.
Proof.
  unfold Resolve. intros H.
  destruct (Resolve_loop (mem s) (m_gameObjects s) Caches_empty); [|discriminate].
  cbn in H. injection H as <-. split; reflexivity.
Qed.

Lemma Resolve_live s s' : Resolve s = Some s' -> live s.
Proof.
  unfold Resolve. intros H.
  destruct (Resolve_loop (mem s) (m_gameObjects s) Caches_empty) as [c|] eqn:Hc;
    [|discriminate].
  apply Resolve_loop_objects in Hc as [objs Hobjs].
  eapply registry_objects_live. exact Hobjs.
Qed.

Lemma Caches_app_empty_r c : Caches_app c Caches_empty = c.
Proof.
  destruct c. unfold Caches_app. cbn. rewrite !app_nil_r. reflexivity.
Qed.

Lemma classify_app objs1 objs2 :
  classify (objs1 ++ objs2) = Caches_app (classify objs1) (classify objs2).
Proof.
  unfold classify, Caches_app, select. cbn.
  rewrite !List.filter_app, !map_app, !last_app. reflexivity.
Qed.

Lemma mapM_objects_app (h : gmap addr GameObject) (l1 l2 : list addr) objs1 objs2 :
  mapM (fun a => g ← h !! a; Some (a, g)) l1 = Some objs1 ->
  mapM (fun a => g ← h !! a; Some (a, g)) l2 = Some objs2 ->
  mapM (fun a => g ← h !! a; Some (a, g)) (l1 ++ l2) = Some (objs1 ++ objs2).
Proof.
  revert objs1. induction l1 as [|a l1 IH]; intros objs1 H1 H2.
  - cbn in H1. injection H1 as <-. exact H2.
  - cbn in H1. destruct (h !! a) as [g|] eqn:Ha; [|discriminate]. cbn in H1.
    destruct (mapM (fun a => g ← h !! a; Some (a, g)) l1) as [o1|] eqn:Hl;
      [|discriminate].
    cbn in H1. injection H1 as <-.
    cbn. rewrite Ha. cbn. rewrite (IH o1 eq_refl H2). reflexivity.
Qed.

Lemma mapM_objects_ext (h h' : gmap addr GameObject) (l : list addr) :
  (forall a, a ∈ l -> h' !! a = h !! a) ->
  mapM (fun a => g ← h' !! a; Some (a, g)) l
  = mapM (fun a => g ← h !! a; Some (a, g)) l.
Proof.
  induction l as [|a l IH]; intros H; [reflexivity|].
  cbn. rewrite (H a) by left.
  rewrite IH; [reflexivity|]. intros b Hb. apply H. right. exact Hb.
Qed.

Lemma alloc_fresh s : live s ->
  mem s !! alloc (mem s) = None /\ alloc (mem s) ∉ m_gameObjects s.
Proof.
  intros Hl.
  assert (mem s !! alloc (mem s) = None) as Hnone.
  { unfold alloc. apply (not_elem_of_dom (D := gset addr)).
    apply (is_fresh (dom (mem s))). }
  split; [exact Hnone|]. intros Hin. destruct (Hl _ Hin) as [g Hg].
  rewrite Hnone in Hg. discriminate.
Qed.

(** What [CreateGameObject] computes, in terms of the dereferenced
    registry. *)
Lemma CreateGameObject_objects guid s objs :
  registry_objects s = Some objs ->
  let a := alloc (mem s) in
  let s0 := mkScene (<[a := GameObject_new guid]> (mem s)) (m_gameObjects s ++ [a])
                    (m_renderables s) (m_lightsDirectional s) (m_lightsPoint s)
                    (m_mainCamera s) (m_skybox s) in
  registry_objects s0 = Some (objs ++ [(a, GameObject_new guid)]) /\
  CreateGameObject guid s = Some (set_caches s0 (classify objs), a).
Proof.
  intros Hobjs a s0.
  destruct (alloc_fresh s (registry_objects_live s objs Hobjs)) as [Hnone Hnin].
  assert (registry_objects s0 = Some (objs ++ [(a, GameObject_new guid)])) as H0.
  { unfold registry_objects.
    apply (mapM_objects_app (mem s0) (m_gameObjects s) [a]).
    - rewrite (mapM_objects_ext (mem s)); [exact Hobjs|].
      intros b Hb. apply lookup_insert_ne. intros <-. contradiction.
    - cbn. rewrite lookup_insert_eq. reflexivity. }
  split; [exact H0|].
  unfold CreateGameObject. fold a. fold s0.
  rewrite (Resolve_classify s0 _ H0). cbn.
  rewrite classify_app.
  replace (classify [(a, GameObject_new guid)]) with Caches_empty by reflexivity.
  rewrite Caches_app_empty_r. reflexivity.
Qed.

(** X1.  In a scene whose registered pointers are live, [CreateGameObject]
    returns a pointer that was neither live nor registered, appends it at
    the end of the registry, changes no other game object and leaves the
    caches resolved.  The new game object has no component, so caches that
    were resolved do not change; and a well-formed scene stays well formed
    when the identifier is not in use. *)
Theorem CreateGameObject_appends_fresh guid s :
  live s ->
  exists s' a,
    CreateGameObject guid s = Some (s', a) /\
    mem s !! a = None /\ (a ∉ m_gameObjects s) /\
    m_gameObjects s' = m_gameObjects s ++ [a] /\
    mem s' = <[a := GameObject_new guid]> (mem s) /\
    caches_resolved s' /\
    (caches_resolved s -> caches_of s' = caches_of s) /\
    (wf s ->
     (forall b g, b ∈ m_gameObjects s -> mem s !! b = Some g -> m_ID g <> guid) ->
     wf s').
Proof.
  intros Hl. destruct (live_registry_objects s Hl) as [objs Hobjs].
  destruct (CreateGameObject_objects guid s objs Hobjs) as [H0 HC].
  destruct (alloc_fresh s Hl) as [Hnone Hnin].
  eexists _, _. split; [exact HC|].
  split; [exact Hnone|]. split; [exact Hnin|].
  split; [reflexivity|]. split; [reflexivity|].
  split; [|split].
  - unfold caches_resolved.
    match goal with |- Resolve ?x = _ =>
      assert (registry_objects x = Some (objs ++ [(alloc (mem s), GameObject_new guid)]))
        as Hx by exact H0;
      rewrite (Resolve_classify x _ Hx) end.
    rewrite classify_app.
    replace (classify [(alloc (mem s), GameObject_new guid)])
      with Caches_empty by reflexivity.
    rewrite Caches_app_empty_r. reflexivity.
  - intros Hres. apply caches_resolved_classify in Hres as (objs' & Hobjs' & Hc).
    rewrite Hobjs in Hobjs'. injection Hobjs' as <-.
    rewrite Hc. destruct (classify objs). reflexivity.
  - intros [Hlive Hnd Hids] Hguid. constructor; cbn.
    + intros b Hb. apply elem_of_app in Hb as [Hb|Hb].
      * rewrite lookup_insert_ne by (intros <-; contradiction). apply Hlive, Hb.
      * apply list_elem_of_singleton in Hb as ->. rewrite lookup_insert_eq.
        eexists. reflexivity.
    + apply NoDup_app. split; [exact Hnd|]. split; [|apply NoDup_singleton].
      intros b Hb Hb'. apply list_elem_of_singleton in Hb' as ->. contradiction.
    + intros b c gb gc Hb Hc Hgb Hgc Heq.
      apply elem_of_app in Hb as [Hb|Hb], Hc as [Hc|Hc].
      * rewrite lookup_insert_ne in Hgb by (intros <-; contradiction).
        rewrite lookup_insert_ne in Hgc by (intros <-; contradiction).
        eapply Hids; eassumption.
      * apply list_elem_of_singleton in Hc as ->.
        rewrite lookup_insert_ne in Hgb by (intros <-; contradiction).
        rewrite lookup_insert_eq in Hgc. injection Hgc as <-.
        destruct (Hguid b gb Hb Hgb). exact Heq.
      * apply list_elem_of_singleton in Hb as ->.
        rewrite lookup_insert_ne in Hgc by (intros <-; contradiction).
        rewrite lookup_insert_eq in Hgb. injection Hgb as <-.
        destruct (Hguid c gc Hc Hgc). symmetry. exact Heq.
      * apply list_elem_of_singleton in Hb as ->.
        apply list_elem_of_singleton in Hc as ->. reflexivity.
Qed.

Lemma demo_live : live demo.
Proof. exact (wf_live demo demo_wf). Qed.

Lemma CreateGameObject_appends_fresh_witness :
  exists s' a,
    CreateGameObject "id-new" demo = Some (s', a) /\
    m_gameObjects s' = [1; 2; 3; 4; 5; 6; 7] ++ [a] /\
    caches_of s' = caches_of demo.
Proof.
  destruct (CreateGameObject_appends_fresh "id-new" demo demo_live)
    as (s' & a & HC & _ & _ & Hreg & _ & _ & Hcaches & _).
  exists s', a. split; [exact HC|]. split; [exact Hreg|].
  apply Hcaches. vm_compute. reflexivity.
Defined.

Lemma find_app_or {A : Type} (P : A -> bool) (l1 l2 : list A) :
  List.find P (l1 ++ l2)
  = match List.find P l1 with Some x => Some x | None => List.find P l2 end.
Proof.
  induction l1 as [|x l1 IH]; [reflexivity|].
  cbn. destruct (P x); [reflexivity|exact IH].
Qed.

(** X2.  After [CreateGameObject], a lookup by identifier returns what it
    returned before when that was a game object, and the new game object
    when nothing was found and the identifier is the new one: an identifier
    that is already in use keeps referring to the older game object.
    [GameObjectExists] holds of the pointer returned. *)
Theorem CreateGameObject_lookup guid s s' a :
  live s ->
  CreateGameObject guid s = Some (s', a) ->
  (forall ID,
     exists r,
       GetGameObjectByID s ID = Some r /\
       GetGameObjectByID s' ID
       = Some (match r with
               | Some b => Some b
               | None => if decide (guid = ID) then Some a else nullptr
               end)) /\
  GameObjectExists s' (Some a) = Some true.
Proof.
  intros Hl HC. destruct (live_registry_objects s Hl) as [objs Hobjs].
  destruct (CreateGameObject_objects guid s objs Hobjs) as [H0 HC'].
  rewrite HC' in HC. injection HC as <- <-.
  assert (forall ID,
     exists r,
       GetGameObjectByID s ID = Some r /\
       GetGameObjectByID_loop (<[alloc (mem s) := GameObject_new guid]> (mem s))
         (m_gameObjects s ++ [alloc (mem s)]) ID
       = Some (match r with
               | Some b => Some b
               | None => if decide (guid = ID) then Some (alloc (mem s)) else nullptr
               end)) as Hlook.
  { intros ID. unfold GetGameObjectByID.
    rewrite (GetGameObjectByID_loop_find _ _ objs ID Hobjs).
    pose proof (GetGameObjectByID_loop_find _ _ _ ID H0) as H1.
    cbn [mem m_gameObjects] in H1. rewrite H1.
    eexists. split; [reflexivity|]. f_equal.
    rewrite find_app_or.
    destruct (List.find _ objs) as [[b gb]|]; [reflexivity|].
    cbn. destruct (decide (guid = ID)) as [->|Hne].
    - rewrite bool_decide_eq_true_2 by reflexivity. reflexivity.
    - rewrite bool_decide_eq_false_2 by exact Hne. reflexivity. }
  split; [exact Hlook|].
  unfold GameObjectExists, GetGameObjectByID. cbn [mem m_gameObjects set_caches].
  rewrite lookup_insert_eq. cbn.
  destruct (Hlook guid) as (r & _ & ->). cbn.
  destruct r; [reflexivity|].
  destruct (decide (guid = guid)); [reflexivity|contradiction].
Qed.

Lemma CreateGameObject_lookup_witness :
  exists s' a,
    CreateGameObject "id-sun" demo = Some (s', a) /\
    GetGameObjectByID s' "id-sun" = Some (Some 3) /\
    GetGameObjectByID s' "id-none" = Some nullptr /\
    GameObjectExists s' (Some a) = Some true.
Proof.
  destruct (CreateGameObject_returns "id-sun" demo demo_live) as [[s' a] HC].
  destruct (CreateGameObject_lookup "id-sun" demo s' a demo_live HC) as [Hlook Hex].
  exists s', a. split; [exact HC|].
  destruct (Hlook "id-sun") as (r1 & Hr1 & ->), (Hlook "id-none") as (r2 & Hr2 & ->).
  vm_compute in Hr1. injection Hr1 as <-.
  vm_compute in Hr2. injection Hr2 as <-.
  split; [reflexivity|]. split; [reflexivity|]. exact Hex.
Defined.

(** ** Roots *)

Lemma GetRootGameObjects_loop_filter (h : gmap addr GameObject) (l : list addr) :
  (forall a, a ∈ l -> is_Some (h !! a)) ->
  GetRootGameObjects_loop h l = Some (List.filter (is_root h) l).
Proof.
  induction l as [|a l IH]; intros Hl; [reflexivity|].
  cbn. destruct (Hl a) as [g Hg]; [left|].
  rewrite Hg. cbn. rewrite IH by (intros b Hb; apply Hl; right; exact Hb).
  cbn. replace (is_root h a) with (IsRoot (m_transform g))
    by (unfold is_root; rewrite Hg; reflexivity).
  reflexivity.
Qed.

Lemma GetRootGameObjects_loop_live (h : gmap addr GameObject) (l : list addr) :
  is_Some (GetRootGameObjects_loop h l) -> forall a, a ∈ l -> is_Some (h !! a).
Proof.
  induction l as [|a l IH]; intros [r Hr] b Hb; [inversion Hb|].
  cbn in Hr. destruct (h !! a) as [g|] eqn:Hg; [|discriminate]. cbn in Hr.
  destruct (GetRootGameObjects_loop h l) as [roots|] eqn:Hroots; [|discriminate].
  apply elem_of_cons in Hb as [->|Hb].
  - rewrite Hg. eexists. reflexivity.
  - apply IH; [eexists; reflexivity|exact Hb].
Qed.

(** X3.  [GetRootGameObjects] is defined exactly when every registered
    pointer is live; it then returns the registered game objects whose
    transform has no parent, in registry order. *)
Theorem GetRootGameObjects_roots s :
  (is_Some (GetRootGameObjects s) <-> live s) /\
  (live s ->
   exists roots,
     GetRootGameObjects s = Some roots /\
     roots = List.filter (is_root (mem s)) (m_gameObjects s) /\
     sublist roots (m_gameObjects s) /\
     forall a, a ∈ roots <->
       a ∈ m_gameObjects s /\
       exists g, mem s !! a = Some g /\ t_parent (m_transform g) = nullptr).
Proof.
  split.
  - split.
    + intros H a Ha. eapply GetRootGameObjects_loop_live; eassumption.
    + intros Hl. unfold GetRootGameObjects.
      rewrite GetRootGameObjects_loop_filter by exact Hl. eexists. reflexivity.
  - intros Hl. eexists. split; [apply GetRootGameObjects_loop_filter, Hl|].
    split; [reflexivity|]. split.
    + induction (m_gameObjects s) as [|a l IH]; [constructor|].
      cbn. destruct (is_root (mem s) a); [apply sublist_skip|apply sublist_cons];
        exact IH.
    + intros a. rewrite list_elem_of_In, filter_In, <- list_elem_of_In.
      unfold is_root, IsRoot. split.
      * intros [Ha Hr]. split; [exact Ha|].
        destruct (mem s !! a) as [g|]; [|discriminate].
        exists g. split; [reflexivity|].
        destruct (t_parent (m_transform g)); [discriminate|reflexivity].
      * intros [Ha (g & Hg & Hp)]. split; [exact Ha|]. rewrite Hg, Hp. reflexivity.
Qed.

Lemma GetRootGameObjects_roots_witness :
  GetRootGameObjects demo = Some [1; 2; 3; 4; 6].
Proof.
  destruct (GetRootGameObjects_roots demo) as [_ H].
  destruct (H demo_live) as (roots & -> & -> & _). vm_compute. reflexivity.
Defined.

Lemma GetRoot_ancestor rank s fuel :
  live s -> hierarchy_wf rank s ->
  (forall a, a ∈ m_gameObjects s -> rank a < fuel) ->
  forall f x, x ∈ m_gameObjects s -> fuel - rank x <= f ->
    exists r k,
      GetRoot f (mem s) x = Some r /\ ancestor (mem s) k x = Some r /\
      r ∈ m_gameObjects s /\ is_root (mem s) r = true.
Proof.
  intros Hl Hh Hb. induction f as [|f IH]; intros x Hx Hf.
  { pose proof (Hb x Hx). lia. }
  cbn. destruct (Hl x Hx) as [g Hg]. rewrite Hg. cbn.
  destruct (t_parent (m_transform g)) as [q|] eqn:Hp.
  - destruct (hw_parent rank s Hh x g q Hx Hg Hp) as [Hq Hlt].
    destruct (IH q Hq ltac:(lia)) as (r & k & HR & Ha & Hr & Hroot).
    exists r, (S k). split; [exact HR|]. split; [|split; assumption].
    cbn. rewrite Hg. cbn. rewrite Hp. cbn. exact Ha.
  - exists x, 0. split; [reflexivity|]. split; [reflexivity|].
    split; [exact Hx|]. unfold is_root, IsRoot. rewrite Hg, Hp. reflexivity.
Qed.

(** X4.  [GetGameObjectRoot] of the null pointer is null.  In a
    forest-shaped hierarchy, with a recursion depth above the ranks,
    [GetGameObjectRoot] of a registered game object returns an ancestor of
    it (or the game object itself) that is among the game objects
    [GetRootGameObjects] returns and that is its own root. *)
Theorem GetGameObjectRoot_root fuel rank s p :
  live s -> hierarchy_wf rank s ->
  (forall a, a ∈ m_gameObjects s -> rank a < fuel) ->
  p ∈ m_gameObjects s ->
  GetGameObjectRoot fuel s nullptr = Some nullptr /\
  exists r k roots,
    GetGameObjectRoot fuel s (Some p) = Some (Some r) /\
    ancestor (mem s) k p = Some r /\
    GetRootGameObjects s = Some roots /\ r ∈ roots /\
    GetGameObjectRoot fuel s (Some r) = Some (Some r).
Proof.
  intros Hl Hh Hb Hp. split; [reflexivity|].
  destruct (GetRoot_ancestor rank s fuel Hl Hh Hb fuel p Hp ltac:(lia))
    as (r & k & HR & Ha & Hr & Hroot).
  exists r, k, (List.filter (is_root (mem s)) (m_gameObjects s)).
  split; [cbn; rewrite HR; reflexivity|]. split; [exact Ha|].
  split; [apply GetRootGameObjects_loop_filter, Hl|].
  split.
  - apply list_elem_of_In, filter_In. split; [apply list_elem_of_In, Hr|exact Hroot].
  - pose proof (Hb r Hr) as Hlt. destruct fuel as [|fuel']; [lia|].
    cbn. unfold is_root, IsRoot in Hroot.
    destruct (mem s !! r) as [g|]; [|discriminate]. cbn.
    destruct (t_parent (m_transform g)); [discriminate|reflexivity].
Qed.

Lemma GetGameObjectRoot_root_witness :
  GetGameObjectRoot 4 demo (Some 7) = Some (Some 3) /\
  GetGameObjectRoot 4 demo (Some 3) = Some (Some 3).
Proof.
  destruct (GetGameObjectRoot_root 4 demo_rank demo 7 demo_live demo_hierarchy_wf)
    as (_ & r & k & roots & Hp & _ & _ & _ & Hr).
  - intros a _. apply demo_rank_bound.
  - apply (bool_decide_unpack _). vm_compute. exact I.
  - assert (GetGameObjectRoot 4 demo (Some 7) = Some (Some 3)) as H7
      by (vm_compute; reflexivity).
    pose proof (eq_trans (eq_sym Hp) H7) as Heq. injection Heq as ->.
    split; [exact Hp|exact Hr].
Defined.

(** ** Lookup by name *)

Lemma GetGameObjectByName_loop_first (h : gmap addr GameObject) (l : list addr) name :
  (forall a, a ∈ l -> is_Some (h !! a)) ->
  exists r,
    GetGameObjectByName_loop h l name = Some r /\
    match r with
    | Some a =>
        exists pre post g,
          l = pre ++ a :: post /\ h !! a = Some g /\ m_name g = name /\
          forall b gb, b ∈ pre -> h !! b = Some gb -> m_name gb <> name
    | None => forall b gb, b ∈ l -> h !! b = Some gb -> m_name gb <> name
    end.
Proof.
  induction l as [|a l IH]; intros Hl.
  - exists nullptr. split; [reflexivity|]. intros b gb Hb. inversion Hb.
  - cbn. destruct (Hl a) as [g Hg]; [left|]. rewrite Hg. cbn.
    destruct (decide (m_name g = name)) as [Heq|Hne].
    + exists (Some a). split; [reflexivity|].
      exists [], l, g. split; [reflexivity|]. split; [exact Hg|].
      split; [exact Heq|]. intros b gb Hb. inversion Hb.
    + destruct IH as (r & Hr & Hspec); [intros b Hb; apply Hl; right; exact Hb|].
      exists r. split; [exact Hr|]. destruct r as [c|].
      * destruct Hspec as (pre & post & gc & -> & Hc & Hn & Hpre).
        exists (a :: pre), post, gc. split; [reflexivity|].
        split; [exact Hc|]. split; [exact Hn|].
        intros b gb Hb Hgb. apply elem_of_cons in Hb as [->|Hb].
        -- rewrite Hg in Hgb. injection Hgb as <-. exact Hne.
        -- eapply Hpre; eassumption.
      * intros b gb Hb Hgb. apply elem_of_cons in Hb as [->|Hb].
        -- rewrite Hg in Hgb. injection Hgb as <-. exact Hne.
        -- eapply Hspec; eassumption.
Qed.

(** X5.  [GetGameObjectByName] returns the first registered game object
    with the name, in registry order, and null exactly when no registered
    game object has the name. *)
Theorem GetGameObjectByName_first_match s name :
  live s ->
  exists r,
    GetGameObjectByName s name = Some r /\
    match r with
    | Some a =>
        exists pre post g,
          m_gameObjects s = pre ++ a :: post /\
          mem s !! a = Some g /\ m_name g = name /\
          forall b gb, b ∈ pre -> mem s !! b = Some gb -> m_name gb <> name
    | None =>
        forall b gb, b ∈ m_gameObjects s -> mem s !! b = Some gb -> m_name gb <> name
    end.
Proof. intros Hl. apply GetGameObjectByName_loop_first. exact Hl. Qed.

Lemma GetGameObjectByName_first_match_witness :
  GetGameObjectByName demo "Skybox" = Some (Some 2) /\
  GetGameObjectByName demo "Nobody" = Some nullptr.
Proof.
  destruct (GetGameObjectByName_first_match demo "Skybox" demo_live) as (r1 & H1 & _).
  destruct (GetGameObjectByName_first_match demo "Nobody" demo_live) as (r2 & H2 & _).
  assert (GetGameObjectByName demo "Skybox" = Some (Some 2)) as E1
    by (vm_compute; reflexivity).
  assert (GetGameObjectByName demo "Nobody" = Some nullptr) as E2
    by (vm_compute; reflexivity).
  pose proof (eq_trans (eq_sym H1) E1) as Heq1. injection Heq1 as ->.
  pose proof (eq_trans (eq_sym H2) E2) as Heq2. injection Heq2 as ->.
  split; [exact H1|exact H2].
Defined.

(** ** Single removal *)

Lemma RemoveSingleGameObject_loop_skip s p g done rest :
  mem s !! p = Some g ->
  (forall a, a ∈ rest -> exists ga, mem s !! a = Some ga /\ m_ID ga <> m_ID g) ->
  RemoveSingleGameObject_loop s p done rest = Some s.
Proof.
  intros Hp. revert done. induction rest as [|temp rest IH]; intros done Hrest.
  - reflexivity.
  - cbn. destruct (Hrest temp) as (t & Ht & Hne); [left|].
    rewrite Ht, Hp. cbn.
    destruct (decide (m_ID t = m_ID g)) as [Heq|_]; [contradiction|].
    apply IH. intros a Ha. apply Hrest. right. exact Ha.
Qed.

(** X6.  [RemoveSingleGameObject] and [RemoveGameObject] leave the scene
    as it is for the null pointer.  [RemoveSingleGameObject] leaves the scene
    as it is, stale caches included, when no registered game object carries
    the identifier of the game object pointed to, and when the registry is
    empty; with a registry that is not empty, a pointer that is not live is
    dereferenced, which is undefined. *)
Theorem RemoveSingleGameObject_unregistered s :
  RemoveSingleGameObject s nullptr = Some s /\
  (forall fuel, RemoveGameObject fuel s nullptr = Some s) /\
  (forall p g,
     mem s !! p = Some g ->
     (forall a, a ∈ m_gameObjects s ->
        exists ga, mem s !! a = Some ga /\ m_ID ga <> m_ID g) ->
     RemoveSingleGameObject s (Some p) = Some s) /\
  (forall p, m_gameObjects s = [] -> RemoveSingleGameObject s (Some p) = Some s) /\
  (forall p a l, mem s !! p = None -> m_gameObjects s = a :: l ->
     RemoveSingleGameObject s (Some p) = None).
Proof.
  split; [reflexivity|]. split; [reflexivity|]. split; [|split].
  - intros p g Hp Hreg. cbn. eapply RemoveSingleGameObject_loop_skip; eassumption.
  - intros p Hreg. cbn. rewrite Hreg. reflexivity.
  - intros p a l Hp Hreg. cbn. rewrite Hreg. cbn. rewrite Hp.
    destruct (mem s !! a); reflexivity.
Qed.

Lemma RemoveSingleGameObject_unregistered_witness :
  let s := set_registry demo demo_mem [1; 2] in
  RemoveSingleGameObject s (Some 3) = Some s /\
  RemoveSingleGameObject s (Some 9) = None.
Proof.
  intros s.
  destruct (RemoveSingleGameObject_unregistered s) as (_ & _ & H3 & _ & H5).
  split.
  - apply (H3 3 demo_sun); [vm_compute; reflexivity|].
    intros a Ha. apply elem_of_cons in Ha as [->|Ha].
    + exists demo_camera. split; [vm_compute; reflexivity|discriminate].
    + apply list_elem_of_singleton in Ha as ->.
      exists demo_skybox. split; [vm_compute; reflexivity|discriminate].
  - apply (H5 9 1 [2]); vm_compute; reflexivity.
Defined.

Lemma RemoveSingleGameObject_loop_first s p g t gt done pre post :
  mem s !! p = Some g -> mem s !! t = Some gt -> m_ID gt = m_ID g ->
  (forall b, b ∈ pre -> exists gb, mem s !! b = Some gb /\ m_ID gb <> m_ID g) ->
  RemoveSingleGameObject_loop s p done (pre ++ t :: post)
  = Resolve (mkScene (delete t (mem s)) (done ++ pre ++ post)
                     (m_renderables s) (m_lightsDirectional s) (m_lightsPoint s)
                     (m_mainCamera s) (m_skybox s)).
Proof.
  intros Hp Ht Heq. revert done. induction pre as [|b pre IH]; intros done Hpre.
  - cbn. rewrite Ht, Hp. cbn.
    destruct (decide (m_ID gt = m_ID g)); [reflexivity|contradiction].
  - cbn. destruct (Hpre b) as (gb & Hb & Hne); [left|].
    rewrite Hb, Hp. cbn.
    destruct (decide (m_ID gb = m_ID g)); [contradiction|].
    rewrite IH by (intros c Hc; apply Hpre; right; exact Hc).
    rewrite <- app_assoc. reflexivity.
Qed.

(** X7.  [RemoveSingleGameObject] selects by identifier: it deletes and
    unregisters the first registered game object that carries the identifier
    of the game object pointed to.  That need not be the game object pointed
    to, which survives when it is another one. *)
Theorem RemoveSingleGameObject_first_with_identifier s p g pre t gt post :
  live s ->
  m_gameObjects s = pre ++ t :: post ->
  (t ∉ pre ++ post) ->
  mem s !! p = Some g -> mem s !! t = Some gt -> m_ID gt = m_ID g ->
  (forall b gb, b ∈ pre -> mem s !! b = Some gb -> m_ID gb <> m_ID g) ->
  exists s',
    RemoveSingleGameObject s (Some p) = Some s' /\
    m_gameObjects s' = pre ++ post /\
    mem s' = delete t (mem s) /\
    caches_resolved s' /\
    (p <> t -> mem s' !! p = Some g).
Proof.
  intros Hl Hreg Hnot Hp Ht Heq Hpre.
  assert (forall b, b ∈ pre -> exists gb, mem s !! b = Some gb /\ m_ID gb <> m_ID g)
    as Hpre'.
  { intros b Hb. destruct (Hl b) as [gb Hgb].
    - rewrite Hreg. apply elem_of_app. left. exact Hb.
    - exists gb. split; [exact Hgb|]. eapply Hpre; eassumption. }
  cbn. rewrite Hreg.
  rewrite (RemoveSingleGameObject_loop_first s p g t gt [] pre post Hp Ht Heq Hpre').
  cbn [app].
  set (s0 := mkScene _ _ _ _ _ _ _).
  assert (live s0) as Hl0.
  { intros b Hb. cbn in Hb. cbn.
    rewrite lookup_delete_ne by (intros <-; contradiction).
    apply Hl. rewrite Hreg. apply elem_of_app in Hb as [Hb|Hb]; apply elem_of_app;
      [left|right; right]; exact Hb. }
  destruct (live_Resolve s0 Hl0) as [s' Hs'].
  exists s'. split; [exact Hs'|].
  destruct (Resolve_mem s0 s' Hs') as [Hm Hg].
  split; [rewrite Hg; reflexivity|]. split; [rewrite Hm; reflexivity|].
  split; [eapply Resolve_resolved; exact Hs'|].
  intros Hne. rewrite Hm. cbn. rewrite lookup_delete_ne by congruence. exact Hp.
Qed.

Lemma RemoveSingleGameObject_first_with_identifier_witness :
  exists s',
    RemoveSingleGameObject twin_scene (Some 2) = Some s' /\
    m_gameObjects s' = [2] /\
    mem s' !! 2 = Some (cube_at "id-twin" Vector3_Zero).
Proof.
  destruct (RemoveSingleGameObject_first_with_identifier twin_scene 2
              (cube_at "id-twin" Vector3_Zero) [] 1
              (cube_at "id-twin" Vector3_Zero) [2])
    as (s' & Hrun & Hreg & _ & _ & Hp).
  - intros a Ha. revert a Ha. apply Forall_forall.
    repeat constructor; eexists; vm_compute; reflexivity.
  - reflexivity.
  - apply (bool_decide_unpack _). vm_compute. exact I.
  - vm_compute. reflexivity.
  - vm_compute. reflexivity.
  - reflexivity.
  - intros b gb Hb. inversion Hb.
  - exists s'. split; [exact Hrun|]. split; [exact Hreg|]. apply Hp. discriminate.
Defined.

(** ** Lookup after removal *)

Lemma GetGameObjectByID_loop_unique (h : gmap addr GameObject) (l : list addr) a g :
  (forall b, b ∈ l -> is_Some (h !! b)) -> a ∈ l -> h !! a = Some g ->
  (forall b gb, b ∈ l -> h !! b = Some gb -> m_ID gb = m_ID g -> b = a) ->
  GetGameObjectByID_loop h l (m_ID g) = Some (Some a).
Proof.
  induction l as [|c l IH]; intros Hl Ha Hg Huniq; [inversion Ha|].
  cbn. destruct (Hl c) as [gc Hgc]; [left|]. rewrite Hgc. cbn.
  destruct (decide (m_ID gc = m_ID g)) as [Heq|Hne].
  - do 2 f_equal. eapply Huniq; [left|exact Hgc|exact Heq].
  - apply elem_of_cons in Ha as [->|Ha].
    + rewrite Hg in Hgc. injection Hgc as <-. contradiction.
    + apply IH; [|exact Ha|exact Hg|].
      * intros b Hb. apply Hl. right. exact Hb.
      * intros b gb Hb. apply Huniq. right. exact Hb.
Qed.

Lemma GetGameObjectByID_loop_absent (h : gmap addr GameObject) (l : list addr) ID :
  (forall b, b ∈ l -> exists gb, h !! b = Some gb /\ m_ID gb <> ID) ->
  GetGameObjectByID_loop h l ID = Some nullptr.
Proof.
  induction l as [|c l IH]; intros Hl; [reflexivity|].
  cbn. destruct (Hl c) as (gc & Hgc & Hne); [left|]. rewrite Hgc. cbn.
  destruct (decide (m_ID gc = ID)); [contradiction|].
  apply IH. intros b Hb. apply Hl. right. exact Hb.
Qed.

Lemma wf_GetGameObjectByID s a g :
  wf s -> a ∈ m_gameObjects s -> mem s !! a = Some g ->
  GetGameObjectByID s (m_ID g) = Some (Some a) /\
  GameObjectExists s (Some a) = Some true.
Proof.
  intros [Hl Hnd Hids] Ha Hg.
  assert (GetGameObjectByID s (m_ID g) = Some (Some a)) as H.
  { apply GetGameObjectByID_loop_unique; try assumption.
    intros b gb Hb Hgb Heq. eapply Hids; eassumption. }
  split; [exact H|]. cbn. rewrite Hg. cbn. rewrite H. reflexivity.
Qed.

(** X8.  After [RemoveSingleGameObject(p)] in a well-formed scene the
    identifier of the removed game object is no longer found, every other
    registered game object is still found under its identifier at its
    address, and [GameObjectExists(p)] is undefined: it reads the identifier
    of the deleted game object. *)
Theorem RemoveSingleGameObject_lookup s p g :
  wf s -> p ∈ m_gameObjects s -> mem s !! p = Some g ->
  exists s',
    RemoveSingleGameObject s (Some p) = Some s' /\
    GetGameObjectByID s' (m_ID g) = Some nullptr /\
    GameObjectExists s' (Some p) = None /\
    (forall b gb, b ∈ m_gameObjects s -> b <> p -> mem s !! b = Some gb ->
       GetGameObjectByID s' (m_ID gb) = Some (Some b) /\
       GameObjectExists s' (Some b) = Some true).
Proof.
  intros Hwf Hp Hg.
  destruct (RemoveSingleGameObject_wf s p Hwf Hp)
    as (s' & Hrun & [Hreg Hmem] & Hwf' & _ & _).
  exists s'. split; [exact Hrun|].
  assert (forall b, b ∈ m_gameObjects s' ->
            b ∈ m_gameObjects s /\ b <> p /\ mem s' !! b = mem s !! b) as Hkeep.
  { intros b Hb. rewrite Hreg in Hb. apply list_elem_of_difference in Hb as [Hb Hn].
    split; [exact Hb|].
    assert (b <> p) as Hne by (intros ->; apply Hn; left).
    split; [exact Hne|]. rewrite Hmem.
    destruct (decide (b ∈ [p])) as [Hin|_]; [contradiction|reflexivity]. }
  split; [|split].
  - apply GetGameObjectByID_loop_absent. intros b Hb.
    destruct (Hkeep b Hb) as (Hin & Hne & Heq).
    destruct (wf_live s Hwf b Hin) as [gb Hgb].
    exists gb. split; [rewrite Heq; exact Hgb|].
    intros Hid. apply Hne. eapply (wf_ids s Hwf); eassumption.
  - cbn. rewrite Hmem.
    destruct (decide (p ∈ [p])) as [_|Hn]; [reflexivity|destruct Hn; left].
  - intros b gb Hb Hne Hgb. apply wf_GetGameObjectByID; [exact Hwf'| |].
    + rewrite Hreg. apply list_elem_of_difference. split; [exact Hb|].
      intros Hin. apply list_elem_of_singleton in Hin. contradiction.
    + rewrite Hmem. destruct (decide (b ∈ [p])) as [Hin|_]; [|exact Hgb].
      apply list_elem_of_singleton in Hin. contradiction.
Qed.

Lemma RemoveSingleGameObject_lookup_witness :
  exists s',
    RemoveSingleGameObject demo (Some 3) = Some s' /\
    GetGameObjectByID s' "id-sun" = Some nullptr /\
    GameObjectExists s' (Some 3) = None /\
    GetGameObjectByID s' "id-mesh" = Some (Some 5).
Proof.
  destruct (RemoveSingleGameObject_lookup demo 3 demo_sun demo_wf)
    as (s' & Hrun & Hnull & Hex & Hrest).
  - apply (bool_decide_unpack _). vm_compute. exact I.
  - vm_compute. reflexivity.
  - exists s'. split; [exact Hrun|]. split; [exact Hnull|]. split; [exact Hex|].
    apply (Hrest 5 demo_mesh).
    + apply (bool_decide_unpack _). vm_compute. exact I.
    + discriminate.
    + vm_compute. reflexivity.
Defined.

(** ** What a removal leaves alone *)

Lemma set_children_inv g g' :
  set_children [] g' = set_children [] g ->
  g' = set_children (t_children (m_transform g')) g.
Proof.
  destruct g as [i n v c [p f q k]], g' as [i' n' v' c' [p' f' q' k']].
  unfold set_children. cbn. intros H. injection H as -> -> -> -> -> -> ->.
  reflexivity.
Qed.

(** X9.  [RemoveGameObject] leaves every game object outside the removed
    subtree where and as it was, up to its child list, which may be rebuilt;
    a registered one stays registered and is found under its identifier. *)
Theorem RemoveGameObject_frame fuel rank s E :
  wf s -> hierarchy_wf rank s ->
  (forall a, a ∈ m_gameObjects s -> rank a < fuel) ->
  E ∈ m_gameObjects s ->
  exists ds s',
    GetDescendants fuel (mem s) E = Some ds /\
    RemoveGameObject fuel s (Some E) = Some s' /\
    forall a g, (a ∉ E :: ds) -> mem s !! a = Some g ->
      (exists cs, mem s' !! a = Some (set_children cs g)) /\
      (a ∈ m_gameObjects s ->
       a ∈ m_gameObjects s' /\ GetGameObjectByID s' (m_ID g) = Some (Some a)).
Proof.
  intros Hwf Hh Hfuel HE.
  destruct (hierarchy_removable fuel rank s E Hwf Hh Hfuel HE)
    as (g & ds & [H1 H2 H3 H4 H5 H6 H7]).
  destruct (RemoveGameObject_spec fuel rank s E g ds Hwf H1 H2 H3 H4 H5 H6 H7)
    as (s' & Hrun & Hreg & _ & _ & Hkeep & Hwf' & _ & _).
  exists ds, s'. split; [exact H3|]. split; [exact Hrun|].
  intros a ga Ha Hga. specialize (Hkeep a Ha). rewrite Hga in Hkeep. cbn in Hkeep.
  destruct (mem s' !! a) as [ga'|] eqn:Hga'; [|discriminate].
  assert (Some (set_children [] ga') = Some (set_children [] ga)) as Hk
    by exact Hkeep.
  clear Hkeep. apply (inj Some) in Hk. apply set_children_inv in Hk.
  rename Hk into Hkeep.
  split; [eexists; f_equal; exact Hkeep|].
  intros Hin.
  assert (a ∈ m_gameObjects s') as Hin'.
  { rewrite Hreg. apply list_elem_of_difference. split; assumption. }
  split; [exact Hin'|].
  replace (m_ID ga) with (m_ID ga') by (rewrite Hkeep; reflexivity).
  apply wf_GetGameObjectByID; assumption.
Qed.

Lemma RemoveGameObject_frame_witness :
  exists s' cs,
    RemoveGameObject 4 demo (Some 5) = Some s' /\
    mem s' !! 3 = Some (set_children cs demo_sun) /\
    GetGameObjectByID s' "id-sun" = Some (Some 3).
Proof.
  destruct (RemoveGameObject_frame 4 demo_rank demo 5 demo_wf demo_hierarchy_wf)
    as (ds & s' & Hds & Hrun & Hkeep).
  - intros a _. apply demo_rank_bound.
  - apply (bool_decide_unpack _). vm_compute. exact I.
  - assert (GetDescendants 4 (mem demo) 5 = Some [7]) as Hlamp
      by (vm_compute; reflexivity).
    pose proof (eq_trans (eq_sym Hds) Hlamp) as Heq. injection Heq as ->.
    destruct (Hkeep 3 demo_sun) as [[cs Hcs] Hid].
    + apply (bool_decide_unpack _). vm_compute. exact I.
    + vm_compute. reflexivity.
    + exists s', cs. split; [exact Hrun|]. split; [exact Hcs|].
      apply Hid. apply (bool_decide_unpack _). vm_compute. exact I.
Defined.

Lemma RemoveGameObject_leaf fuel s p g :
  mem s !! p = Some g ->
  t_children (m_transform g) = [] -> t_parent (m_transform g) = nullptr ->
  RemoveGameObject (S fuel) s (Some p) = RemoveSingleGameObject s (Some p).
Proof.
  intros Hp Hc Hq. unfold RemoveGameObject. cbn [GetDescendants].
  rewrite Hp. cbn. rewrite Hc. cbn. rewrite Hp. cbn. rewrite Hq.
  destruct (RemoveSingleGameObject_loop s p [] (m_gameObjects s)); reflexivity.
Qed.

(** X10.  Removing through a pointer that is not live is undefined.  For
    a game object without children and without parent, [RemoveGameObject]
    does what [RemoveSingleGameObject] does. *)
Theorem RemoveGameObject_leaf_root fuel s p :
  (mem s !! p = None -> RemoveGameObject fuel s (Some p) = None) /\
  (forall g,
     mem s !! p = Some g ->
     t_children (m_transform g) = [] -> t_parent (m_transform g) = nullptr ->
     RemoveGameObject (S fuel) s (Some p) = RemoveSingleGameObject s (Some p)).
Proof.
  split.
  - intros Hp. unfold RemoveGameObject. destruct fuel as [|fuel]; [reflexivity|].
    cbn. rewrite Hp. reflexivity.
  - intros g. apply RemoveGameObject_leaf.
Qed.

Lemma RemoveGameObject_leaf_root_witness :
  RemoveGameObject 1 demo (Some 1) = RemoveSingleGameObject demo (Some 1) /\
  RemoveGameObject 1 demo (Some 9) = None.
Proof.
  destruct (RemoveGameObject_leaf_root 0 demo 1) as [_ H1].
  destruct (RemoveGameObject_leaf_root 1 demo 9) as [H9 _].
  split.
  - apply (H1 demo_camera); vm_compute; reflexivity.
  - apply H9. vm_compute. reflexivity.
Defined.

(** X11.  Creating a game object under an identifier that is not in use
    and removing it again gives the scene that [Resolve] gives: the scene
    itself when its caches were resolved. *)
Theorem CreateGameObject_RemoveGameObject_roundtrip fuel guid s s' a :
  live s ->
  (forall b g, b ∈ m_gameObjects s -> mem s !! b = Some g -> m_ID g <> guid) ->
  CreateGameObject guid s = Some (s', a) ->
  RemoveGameObject (S fuel) s' (Some a) = Resolve s /\
  (caches_resolved s -> RemoveGameObject (S fuel) s' (Some a) = Some s).
Proof.
  intros Hl Hguid HC.
  destruct (live_registry_objects s Hl) as [objs Hobjs].
  destruct (CreateGameObject_objects guid s objs Hobjs) as [_ HC'].
  rewrite HC' in HC. injection HC as <- <-.
  destruct (alloc_fresh s Hl) as [Hnone Hnin].
  set (a := alloc (mem s)) in *.
  assert (RemoveGameObject (S fuel)
            (set_caches
               (mkScene (<[a := GameObject_new guid]> (mem s)) (m_gameObjects s ++ [a])
                  (m_renderables s) (m_lightsDirectional s) (m_lightsPoint s)
                  (m_mainCamera s) (m_skybox s)) (classify objs)) (Some a)
          = Resolve s) as Hrun.
  { rewrite (RemoveGameObject_leaf fuel _ a (GameObject_new guid));
      [|cbn; apply lookup_insert_eq|reflexivity|reflexivity].
    cbn [RemoveSingleGameObject set_caches m_gameObjects].
    rewrite (RemoveSingleGameObject_loop_first _ a (GameObject_new guid) a
               (GameObject_new guid) [] (m_gameObjects s) []).
    - cbn [set_caches mem m_gameObjects app].
      rewrite app_nil_r, delete_insert_id by exact Hnone.
      unfold Resolve. reflexivity.
    - cbn. apply lookup_insert_eq.
    - cbn. apply lookup_insert_eq.
    - reflexivity.
    - intros b Hb. destruct (Hl b Hb) as [gb Hgb]. exists gb. split.
      + cbn. rewrite lookup_insert_ne by (intros <-; contradiction). exact Hgb.
      + cbn. eapply Hguid; eassumption. }
  split; [exact Hrun|]. intros Hres. rewrite Hrun. exact Hres.
Qed.

Lemma CreateGameObject_RemoveGameObject_roundtrip_witness :
  exists s' a,
    CreateGameObject "id-new" demo = Some (s', a) /\
    RemoveGameObject 1 s' (Some a) = Some demo.
Proof.
  destruct (CreateGameObject_returns "id-new" demo demo_live) as [[s' a] HC].
  exists s', a. split; [exact HC|].
  apply (CreateGameObject_RemoveGameObject_roundtrip 0 "id-new" demo s' a demo_live).
  - intros b g Hb Hg.
    assert (Forall (fun b => forall g, mem demo !! b = Some g -> m_ID g <> "id-new")
                   (m_gameObjects demo)) as Hall.
    { repeat constructor; intros g' Hg'; vm_compute in Hg'; injection Hg' as <-;
        discriminate. }
    rewrite Forall_forall in Hall. exact (Hall b Hb g Hg).
  - exact HC.
  - vm_compute. reflexivity.
Defined.

(** ** The caches after a resolution *)

Lemma select_sublist (P : GameObject -> bool) (objs : list (addr * GameObject)) :
  sublist (select P objs) (fst <$> objs).
Proof.
  unfold select. induction objs as [|[a g] objs IH]; [constructor|].
  cbn. destruct (P g); cbn; [apply sublist_skip|apply sublist_cons]; exact IH.
Qed.

Lemma objects_elem (h : gmap addr GameObject) (l : list addr) objs a g :
  mapM (fun a => g ← h !! a; Some (a, g)) l = Some objs ->
  (a, g) ∈ objs <-> a ∈ l /\ h !! a = Some g.
Proof.
  intros H. destruct (registry_objects_spec h l objs H) as [Hfst Hobj]. split.
  - intros Hin. split; [|apply Hobj; exact Hin].
    rewrite <- Hfst. apply list_elem_of_fmap. exists (a, g). split; [reflexivity|exact Hin].
  - intros [Hin Hg]. rewrite <- Hfst in Hin.
    apply list_elem_of_fmap in Hin as ([a' g'] & -> & Hin).
    pose proof (Hobj _ _ Hin) as Hg'. cbn in Hg. rewrite Hg in Hg'.
    injection Hg' as ->. exact Hin.
Qed.

Lemma select_spec (P : GameObject -> bool) (h : gmap addr GameObject)
    (l : list addr) objs a :
  mapM (fun a => g ← h !! a; Some (a, g)) l = Some objs ->
  a ∈ select P objs <-> a ∈ l /\ exists g, h !! a = Some g /\ P g = true.
Proof.
  intros H. split.
  - intros Hin. apply select_elem in Hin as (g & Hin & HP).
    apply (objects_elem h l objs a g H) in Hin as [Hl Hg].
    split; [exact Hl|]. exists g. split; assumption.
  - intros (Hl & g & Hg & HP).
    assert ((a, g) ∈ objs) as Hin by (apply (objects_elem h l objs a g H); auto).
    unfold select. apply list_elem_of_In, in_map_iff. exists (a, g).
    split; [reflexivity|]. apply filter_In. split; [apply list_elem_of_In, Hin|exact HP].
Qed.

Lemma last_select_spec (P : GameObject -> bool) (h : gmap addr GameObject)
    (l : list addr) objs :
  mapM (fun a => g ← h !! a; Some (a, g)) l = Some objs ->
  match last (select P objs) with
  | Some a => a ∈ l /\ exists g, h !! a = Some g /\ P g = true
  | None => forall a g, a ∈ l -> h !! a = Some g -> P g = false
  end.
Proof.
  intros H. destruct (last (select P objs)) as [a|] eqn:Hlast.
  - apply last_Some_elem_of in Hlast. apply (select_spec P h l objs a H). exact Hlast.
  - apply last_None in Hlast. intros a g Ha Hg.
    destruct (P g) eqn:HP; [|reflexivity].
    assert (a ∈ select P objs) as Hin
      by (apply (select_spec P h l objs a H); split; [exact Ha|exists g; auto]).
    rewrite Hlast in Hin. inversion Hin.
Qed.

(** X12.  After [Resolve] the heap and the registry are as before; the
    three cache lists are subsequences of the registry; the renderables are
    exactly the registered game objects with a mesh renderer and a mesh
    filter; no game object is in both light lists; the active camera and the
    skybox are registered game objects with the component, and are null
    exactly when no registered game object has it: no cache entry dangles. *)
Theorem Resolve_caches_registered s s' :
  Resolve s = Some s' ->
  mem s' = mem s /\ m_gameObjects s' = m_gameObjects s /\
  sublist (m_renderables s') (m_gameObjects s) /\
  sublist (m_lightsDirectional s') (m_gameObjects s) /\
  sublist (m_lightsPoint s') (m_gameObjects s) /\
  (forall a, a ∈ m_renderables s' <->
     a ∈ m_gameObjects s /\ exists g, mem s !! a = Some g /\ isRenderable g = true) /\
  (forall a, a ∈ m_lightsDirectional s' -> a ∉ m_lightsPoint s') /\
  match m_mainCamera s' with
  | Some a => a ∈ m_gameObjects s /\
              exists g, mem s !! a = Some g /\ HasComponent isCamera g = true
  | None => forall a g, a ∈ m_gameObjects s -> mem s !! a = Some g ->
                        HasComponent isCamera g = false
  end /\
  match m_skybox s' with
  | Some a => a ∈ m_gameObjects s /\
              exists g, mem s !! a = Some g /\ HasComponent isSkybox g = true
  | None => forall a g, a ∈ m_gameObjects s -> mem s !! a = Some g ->
                        HasComponent isSkybox g = false
  end.
Proof.
  intros HR.
  destruct (live_registry_objects s (Resolve_live s s' HR)) as [objs Hobjs].
  rewrite (Resolve_classify s objs Hobjs) in HR. injection HR as <-.
  destruct (registry_objects_spec _ _ objs Hobjs) as [Hfst _].
  cbn. split; [reflexivity|]. split; [reflexivity|].
  rewrite <- Hfst at 1 2 3.
  split; [apply select_sublist|]. split; [apply select_sublist|].
  split; [apply select_sublist|]. split; [|split; [|split]].
  - intros a. apply (select_spec isRenderable (mem s) _ objs a Hobjs).
  - intros a Hd Hp.
    apply (select_spec _ (mem s) _ objs a Hobjs) in Hd as (_ & g & Hg & Hd).
    apply (select_spec _ (mem s) _ objs a Hobjs) in Hp as (_ & g' & Hg' & Hp).
    rewrite Hg in Hg'. injection Hg' as <-.
    unfold hasLightOfType in Hd, Hp.
    destruct (GetComponent isLight g) as [c|]; [|discriminate].
    destruct (GetLightType c); discriminate.
  - apply (last_select_spec (HasComponent isCamera) (mem s) _ objs Hobjs).
  - apply (last_select_spec (HasComponent isSkybox) (mem s) _ objs Hobjs).
Qed.

Lemma Resolve_caches_registered_witness :
  exists s',
    Resolve demo_unresolved = Some s' /\
    sublist (m_renderables s') [1; 2; 3; 4; 5; 6; 7] /\
    (forall a, a ∈ m_lightsDirectional s' -> a ∉ m_lightsPoint s').
Proof.
  assert (is_Some (Resolve demo_unresolved)) as [s' Hs']
    by (vm_compute; eexists; reflexivity).
  destruct (Resolve_caches_registered demo_unresolved s' Hs')
    as (_ & _ & Hr & _ & _ & _ & Hd & _).
  exists s'. split; [exact Hs'|]. split; [exact Hr|exact Hd].
Defined.

Lemma Resolve_loop_components (h h' : gmap addr GameObject) (l : list addr) c :
  (forall a, a ∈ l -> m_components <$> h' !! a = m_components <$> h !! a) ->
  Resolve_loop h' l c = Resolve_loop h l c.
Proof.
  revert c. induction l as [|a l IH]; intros c H; [reflexivity|].
  cbn. pose proof (H a ltac:(left)) as Ha.
  destruct (h !! a) as [g|], (h' !! a) as [g'|]; try discriminate; cbn;
    [|reflexivity].
  cbn in Ha. injection Ha as Ha.
  rewrite (Resolve_step_ext a g' g c Ha).
  apply IH. intros b Hb. apply H. right. exact Hb.
Qed.

(** X13.  [Resolve] reads nothing but the component lists: two scenes
    with the same registry whose registered game objects have the same
    components get the same caches, and are undefined together. *)
Theorem Resolve_components_only s t :
  m_gameObjects t = m_gameObjects s ->
  (forall a, a ∈ m_gameObjects s ->
     m_components <$> mem t !! a = m_components <$> mem s !! a) ->
  caches_of <$> Resolve t = caches_of <$> Resolve s.
Proof.
  intros Hreg Hc. unfold Resolve. rewrite Hreg.
  rewrite (Resolve_loop_components (mem s) (mem t) _ _ Hc).
  destruct (Resolve_loop (mem s) (m_gameObjects s) Caches_empty) as [c|];
    [|reflexivity].
  destruct c. reflexivity.
Qed.

Lemma Resolve_components_only_witness :
  caches_of <$> Resolve (set_mem demo (alter (set_children [7; 7]) 3 (mem demo)))
  = Some (caches_of demo).
Proof.
  rewrite (Resolve_components_only demo
             (set_mem demo (alter (set_children [7; 7]) 3 (mem demo)))).
  - vm_compute. reflexivity.
  - reflexivity.
  - intros a _. cbn. destruct (decide (a = 3)) as [->|Hne].
    + rewrite lookup_alter_eq. destruct (mem demo !! 3); reflexivity.
    + rewrite lookup_alter_ne by congruence. reflexivity.
Defined.

(** ** Clearing the scene *)

Lemma Clear_loop_spec (l : list addr) :
  forall h : gmap addr GameObject,
    NoDup l -> (forall a, a ∈ l -> is_Some (h !! a)) ->
    exists h',
      for_each (fun h gameObject => _ ← h !! gameObject; Some (delete gameObject h))
               h l = Some h' /\
      forall a, h' !! a = if decide (a ∈ l) then None else h !! a.
Proof.
  induction l as [|x l IH]; intros h Hnd Hl.
  - exists h. split; [reflexivity|]. intros a.
    destruct (decide (a ∈ [])) as [Hin|_]; [inversion Hin|reflexivity].
  - apply NoDup_cons in Hnd as [Hx Hnd].
    destruct (Hl x) as [g Hg]; [left|].
    destruct (IH (delete x h) Hnd) as (h' & Hrun & Hspec).
    { intros a Ha. rewrite lookup_delete_ne by (intros <-; contradiction).
      apply Hl. right. exact Ha. }
    exists h'. split; [cbn; rewrite Hg; cbn; exact Hrun|].
    intros a. rewrite Hspec.
    destruct (decide (a ∈ l)) as [Hin|Hnin], (decide (a ∈ x :: l)) as [Hin'|Hnin'];
      try reflexivity.
    + destruct Hnin'. right. exact Hin.
    + apply elem_of_cons in Hin' as [->|Hin']; [|contradiction].
      apply lookup_delete_eq.
    + apply lookup_delete_ne. intros <-. apply Hnin'. left.
Qed.

Lemma Clear_loop_defined (l : list addr) :
  forall h : gmap addr GameObject,
    is_Some (for_each (fun h gameObject => _ ← h !! gameObject;
                                           Some (delete gameObject h)) h l) ->
    NoDup l /\ forall a, a ∈ l -> is_Some (h !! a).
Proof.
  induction l as [|x l IH]; intros h [h' Hrun].
  - split; [constructor|]. intros a Ha. inversion Ha.
  - cbn in Hrun. destruct (h !! x) as [g|] eqn:Hg; [|discriminate]. cbn in Hrun.
    destruct (IH (delete x h)) as [Hnd Hl]; [eexists; exact Hrun|].
    assert (x ∉ l) as Hx.
    { intros Hin. destruct (Hl x Hin) as [g' Hg'].
      rewrite lookup_delete_eq in Hg'. discriminate. }
    split; [apply NoDup_cons; split; assumption|].
    intros a Ha. apply elem_of_cons in Ha as [->|Ha].
    + rewrite Hg. eexists. reflexivity.
    + destruct (Hl a Ha) as [g' Hg'].
      rewrite lookup_delete_ne in Hg' by (intros <-; contradiction).
      rewrite Hg'. eexists. reflexivity.
Qed.

(** X14.  [Clear] is defined exactly when the registered pointers are
    live and distinct: deleting a pointer a second time is undefined.  It
    deletes exactly the registered game objects, empties the registry and
    the caches, releases the resource cache, leaves the files alone, and
    resets the resource manager, scripting, physics and the renderer, in
    this order; afterwards no identifier is found and there is no root. *)
Theorem Clear_deletes_registry ctx s :
  (is_Some (Clear ctx s) <-> live s /\ NoDup (m_gameObjects s)) /\
  (forall ctx' s',
     Clear ctx s = Some (ctx', s') ->
     m_gameObjects s' = [] /\ caches_of s' = Caches_empty /\
     (forall a, mem s' !! a
                = if decide (a ∈ m_gameObjects s) then None else mem s !! a) /\
     ctx_resources ctx' = [] /\ ctx_files ctx' = ctx_files ctx /\
     ctx_calls ctx'
     = ctx_calls ctx
       ++ [ResourceManager_Unload; Scripting_Reset; Physics_Reset; Renderer_Clear] /\
     (forall ID, GetGameObjectByID s' ID = Some nullptr) /\
     GetRootGameObjects s' = Some []).
Proof.
  split.
  - unfold Clear. split.
    + intros [[ctx' s'] H].
      match type of H with
      | context [for_each ?f ?h ?l] => destruct (for_each f h l) as [h'|] eqn:Hrun
      end; [|discriminate].
      destruct (Clear_loop_defined _ _ (ex_intro _ h' Hrun)) as [Hnd Hl].
      split; assumption.
    + intros [Hl Hnd].
      destruct (Clear_loop_spec _ (mem s) Hnd Hl) as (h' & Hrun & _).
      rewrite Hrun. eexists. reflexivity.
  - intros ctx' s' H. unfold Clear in H.
    match type of H with
    | context [for_each ?f ?h ?l] => destruct (for_each f h l) as [h'|] eqn:Hrun
    end; [|discriminate].
    destruct (Clear_loop_defined _ _ (ex_intro _ h' Hrun)) as [Hnd Hl].
    destruct (Clear_loop_spec _ (mem s) Hnd Hl) as (h'' & Hrun' & Hspec).
    rewrite Hrun in Hrun'. injection Hrun' as <-.
    cbn in H. injection H as <- <-. cbn.
    split; [reflexivity|]. split; [reflexivity|]. split; [exact Hspec|].
    split; [reflexivity|]. split; [reflexivity|].
    split; [rewrite <- !app_assoc; reflexivity|].
    split; reflexivity.
Qed.

Lemma Clear_deletes_registry_witness :
  exists ctx' s',
    Clear fresh_context demo = Some (ctx', s') /\
    m_gameObjects s' = [] /\ mem s' !! 3 = None /\ ctx_resources ctx' = [].
Proof.
  destruct (Clear_deletes_registry fresh_context demo) as [[_ Hdef] Hpost].
  destruct Hdef as [[ctx' s'] HC].
  - split; [exact demo_live|exact (wf_nodup demo demo_wf)].
  - destruct (Hpost ctx' s' HC) as (Hreg & _ & Hmem & Hres & _).
    exists ctx', s'. split; [exact HC|]. split; [exact Hreg|].
    split; [|exact Hres]. rewrite Hmem. reflexivity.
Defined.

(** ** Further properties of picking *)

Lemma abs_not_negative x : F32.ltb (F32.abs x) F32.zero = false.
Proof. destruct x as [s|s| |s m e]; reflexivity. Qed.

Lemma bounding_radius_not_negative extent :
  F32.ltb (bounding_radius extent) F32.zero = false.
Proof.
  unfold bounding_radius, F32.max.
  repeat match goal with |- context [if ?b then _ else _] => destruct b end;
    apply abs_not_negative.
Qed.

Lemma MousePick_intersect_elem h o d camera l r :
  MousePick_intersect h o d camera l = Some r ->
  forall a, a ∈ r -> a ∈ l /\ is_candidate h o d camera a = true.
Proof.
  revert r. induction l as [|x l IH]; intros r H a Ha.
  - cbn in H. injection H as <-. inversion Ha.
  - cbn [MousePick_intersect] in H.
    destruct (h !! x) as [g|] eqn:Hg; [|discriminate]. cbn [mbind option_bind] in H.
    destruct (HasComponent isSkybox g) eqn:Hsky.
    + destruct (IH r H a Ha) as [Hin Hc]. split; [right; exact Hin|exact Hc].
    + destruct (GetComponent isMeshFilter g) as [mf|] eqn:Hmf; [|discriminate].
      cbn [mbind option_bind] in H.
      destruct (MousePick_intersect h o d camera l) as [rest|]; [|discriminate].
      cbn [mbind option_bind] in H. injection H as <-.
      destruct (pick_candidate o d camera (bounding_radius (GetBoundingBox mf)))
        eqn:Hpick.
      * apply elem_of_cons in Ha as [->|Ha].
        -- split; [left|]. unfold is_candidate. rewrite Hg, Hsky, Hmf. exact Hpick.
        -- destruct (IH rest eq_refl a Ha) as [Hin Hc]. split; [right; exact Hin|exact Hc].
      * destruct (IH rest eq_refl a Ha) as [Hin Hc]. split; [right; exact Hin|exact Hc].
Qed.


Section PickingFurther.

Variable RESOLUTION_WIDTH RESOLUTION_HEIGHT : float.
Variable TransformByViewProjectionInv : GameObject -> Vector3 -> Vector3.
Variable Normalized : Vector3 -> Vector3.

(** X15.  Without an active camera [MousePick] dereferences null.  A
    game object that [MousePick] returns is in the cache of renderables, is
    not a skybox and has a mesh filter, and the radius tested for it is not
    negative; the mouse position is left in normalised device
    coordinates. *)
Theorem MousePick_picks_renderable s mousePos :
  (m_mainCamera s = nullptr ->
   MousePick RESOLUTION_WIDTH RESOLUTION_HEIGHT TransformByViewProjectionInv
     Normalized s mousePos = None) /\
  (forall a mp,
     MousePick RESOLUTION_WIDTH RESOLUTION_HEIGHT TransformByViewProjectionInv
       Normalized s mousePos = Some (Some a, mp) ->
     mp = MousePick_ndc RESOLUTION_WIDTH RESOLUTION_HEIGHT mousePos /\
     a ∈ m_renderables s /\
     exists g meshFilter,
       mem s !! a = Some g /\
       HasComponent isSkybox g = false /\
       GetComponent isMeshFilter g = Some meshFilter /\
       F32.ltb (bounding_radius (GetBoundingBox meshFilter)) F32.zero = false).
Proof.
  split.
  - intros Hcam. unfold MousePick. rewrite Hcam. reflexivity.
  - intros a mp H. unfold MousePick in H.
    destruct (m_mainCamera s) as [mainCamera|]; [|discriminate].
    cbn [mbind option_bind] in H.
    destruct (mem s !! mainCamera) as [camera|]; [|discriminate].
    cbn [mbind option_bind] in H.
    destruct (GetComponent isCamera camera) as [cc|]; [|discriminate].
    cbn [mbind option_bind] in H.
    match type of H with
    | context [MousePick_intersect ?h ?o ?d ?c ?l] =>
        destruct (MousePick_intersect h o d c l) as [cands|] eqn:Hint
    end; [|discriminate].
    cbn [mbind option_bind] in H.
    destruct (MousePick_closest (mem s) camera cands F32.thousand nullptr)
      as [r|] eqn:Hclosest; [|discriminate].
    cbn [mbind option_bind] in H. injection H as -> <-.
    split; [reflexivity|].
    apply MousePick_closest_spec in Hclosest as (_ & _ & pre & post & -> & _).
    destruct (MousePick_intersect_elem _ _ _ _ _ _ Hint a) as [Hin Hc].
    { apply elem_of_app. right. left. }
    split; [exact Hin|].
    unfold is_candidate in Hc.
    destruct (mem s !! a) as [g|]; [|discriminate].
    destruct (HasComponent isSkybox g) eqn:Hsky; [discriminate|].
    destruct (GetComponent isMeshFilter g) as [mf|] eqn:Hmf; [|discriminate].
    exists g, mf. split; [reflexivity|]. split; [exact Hsky|].
    split; [exact Hmf|]. apply bounding_radius_not_negative.
Qed.


End PickingFurther.

Lemma MousePick_picks_renderable_witness :
  2 ∈ m_renderables pick_scene /\
  exists g meshFilter,
    mem pick_scene !! 2 = Some g /\
    HasComponent isSkybox g = false /\
    GetComponent isMeshFilter g = Some meshFilter.
Proof.
  destruct (MousePick_picks_renderable (f32 1920) (f32 1080) translate_by_camera
              normalize pick_scene pick_left) as [_ H].
  destruct (H 2 (mkVector2 (SFopp F32.one) (S754_zero true)))
    as (_ & Hin & g & mf & Hg & Hsky & Hmf & _).
  - vm_compute. reflexivity.
  - split; [exact Hin|]. exists g, mf. auto.
Defined.


(** ** Degenerate rays and radii *)

Lemma add_nan_l y : F32.add S754_nan y = S754_nan.
Proof. reflexivity. Qed.
Lemma add_nan_r x : F32.add x S754_nan = S754_nan.
Proof. destruct x; reflexivity. Qed.
Lemma sub_nan_l y : F32.sub S754_nan y = S754_nan.
Proof. reflexivity. Qed.
Lemma sub_nan_r x : F32.sub x S754_nan = S754_nan.
Proof. destruct x; reflexivity. Qed.
Lemma mul_nan_l y : F32.mul S754_nan y = S754_nan.
Proof. reflexivity. Qed.
Lemma mul_nan_r x : F32.mul x S754_nan = S754_nan.
Proof. destruct x; reflexivity. Qed.

Lemma mul_opp_opp x : F32.mul (SFopp x) (SFopp x) = F32.mul x x.
Proof. destruct x as [s|s| |s m e]; try reflexivity; destruct s; reflexivity. Qed.


Ltac nan_simpl :=
  repeat first [rewrite add_nan_l | rewrite add_nan_r | rewrite sub_nan_l
               | rewrite sub_nan_r | rewrite mul_nan_l | rewrite mul_nan_r].

(** X17.  [RaySphereIntersect] does not depend on the sign of the
    radius, and it reports an intersection whenever the radius or a
    coordinate of the ray is not a number. *)
Theorem RaySphereIntersect_degenerate rayOrigin rayDirection radius :
  RaySphereIntersect rayOrigin rayDirection (SFopp radius)
  = RaySphereIntersect rayOrigin rayDirection radius /\
  (radius = S754_nan \/
   vx rayOrigin = S754_nan \/ vy rayOrigin = S754_nan \/ vz rayOrigin = S754_nan \/
   vx rayDirection = S754_nan \/ vy rayDirection = S754_nan \/
   vz rayDirection = S754_nan ->
   RaySphereIntersect rayOrigin rayDirection radius = true).
Proof.
  split.
  - unfold RaySphereIntersect. rewrite mul_opp_opp. reflexivity.
  - destruct rayOrigin as [ox oy oz], rayDirection as [dx dy dz].
    unfold RaySphereIntersect, F32.pow2. cbn [vx vy vz].
    intros [->|[->|[->|[->|[->|[->| ->]]]]]]; nan_simpl; reflexivity.
Qed.

Lemma RaySphereIntersect_degenerate_witness :
  RaySphereIntersect (mkVector3 (f32 0) (f32 0) (f32 (-4)))
    (mkVector3 (f32 0) (f32 0) (f32 1)) S754_nan = true.
Proof.
  apply (RaySphereIntersect_degenerate (mkVector3 (f32 0) (f32 0) (f32 (-4)))
           (mkVector3 (f32 0) (f32 0) (f32 1)) S754_nan).
  left. reflexivity.
Defined.

(** ** Further properties of persistence *)

Lemma open_stream_frame ctx :
  ctx_resources (snd (open_stream ctx)) = ctx_resources ctx /\
  ctx_files (snd (open_stream ctx)) = ctx_files ctx /\
  ctx_calls (snd (open_stream ctx)) = ctx_calls ctx.
Proof. unfold open_stream. destruct (ctx_faults ctx); auto. Qed.

Section PersistenceFurther.

Variable SCENE_EXTENSION : string.
Variable GetExtensionFromPath : string -> string.
Variable IsSupportedMeshFile IsSupportedMaterialFile IsSupportedImageFile
  : string -> bool.

Lemma load_resources_kinds paths ctx :
  let ctx' := fold_left (load_resource IsSupportedMeshFile IsSupportedMaterialFile
                           IsSupportedImageFile) paths ctx in
  ctx_resources ctx'
  = ctx_resources ctx
    ++ omap (fun p => k ← resource_kind IsSupportedMeshFile IsSupportedMaterialFile
                           IsSupportedImageFile p; Some (k, p)) paths /\
  ctx_files ctx' = ctx_files ctx /\ ctx_calls ctx' = ctx_calls ctx /\
  ctx_faults ctx' = ctx_faults ctx.
Proof.
  revert ctx. induction paths as [|p paths IH]; intros ctx.
  - cbn. rewrite app_nil_r. auto.
  - cbn [fold_left]. cbv zeta in IH |- *.
    destruct (IH (load_resource IsSupportedMeshFile IsSupportedMaterialFile
                    IsSupportedImageFile ctx p)) as (-> & -> & -> & ->).
    match goal with
    | |- context [omap ?f (p :: paths)] =>
        change (omap f (p :: paths))
          with (match f p with Some y => y :: omap f paths | None => omap f paths end)
    end.
    unfold load_resource, resource_kind.
    destruct (IsSupportedMeshFile p); [cbn; rewrite <- app_assoc; auto|].
    destruct (IsSupportedMaterialFile p); [cbn; rewrite <- app_assoc; auto|].
    destruct (IsSupportedImageFile p); [cbn; rewrite <- app_assoc; auto|].
    cbn. auto.
Qed.

Lemma LoadFromFile_objects_resolved fuel s st s' :
  LoadFromFile_objects fuel s st = Some s' -> caches_resolved s'.
Proof.
  unfold LoadFromFile_objects. intros H.
  destruct (ReadVectorSTR st) as [[v st1]|]; [|discriminate]. cbn in H.
  destruct (ReadInt st1) as [[n st2]|]; [|discriminate]. cbn in H.
  match type of H with
  | context [repeat_n ?f ?n ?x] => destruct (repeat_n f n x) as [sst|]
  end; [|discriminate].
  cbn in H.
  match type of H with
  | context [for_each ?f ?x ?l] => destruct (for_each f x l) as [sst'|]
  end; [|discriminate].
  cbn in H. eapply Resolve_resolved. exact H.
Qed.

(** X18.  When the stream does not open, [SaveToFile] returns false and
    writes no file, after the resource metadata were saved.  When it returns
    true exactly one file changed, the one at the path, extended by the scene
    extension unless the path carries it; the file holds the resource paths
    followed by the game objects, and exists afterwards. *)
Theorem SaveToFile_outcome fuel ctx s filePathIn :
  (forall faults,
     ctx_faults ctx = true :: faults ->
     exists ctx',
       SaveToFile SCENE_EXTENSION GetExtensionFromPath fuel ctx s filePathIn
       = Some (false, ctx') /\
       ctx_files ctx' = ctx_files ctx /\
       ctx_resources ctx' = ctx_resources ctx /\
       ctx_calls ctx' = ctx_calls ctx ++ [ResourceManager_SaveResourceMetadata]) /\
  (forall ctx',
     SaveToFile SCENE_EXTENSION GetExtensionFromPath fuel ctx s filePathIn
     = Some (true, ctx') ->
     exists path objects,
       path = (if decide (GetExtensionFromPath filePathIn = SCENE_EXTENSION)
               then filePathIn else (filePathIn ++ SCENE_EXTENSION)%string) /\
       SaveToFile_objects fuel s = Some objects /\
       ctx_files ctx'
       = <[path := WriteVectorSTR (GetResourceFilePaths ctx) ++ objects]>
           (ctx_files ctx) /\
       FileExists ctx' path = true /\
       (forall other, other <> path ->
          ctx_files ctx' !! other = ctx_files ctx !! other) /\
       ctx_resources ctx' = ctx_resources ctx).
Proof.
  split.
  - intros faults Hf. unfold SaveToFile, StartWriting, open_stream.
    cbn [call ctx_faults]. rewrite Hf. cbn. eexists. split; [reflexivity|]. auto.
  - intros ctx' H. unfold SaveToFile, StartWriting, open_stream in H.
    cbn [call ctx_faults] in H.
    destruct (ctx_faults ctx) as [|[|] faults]; cbn [negb] in H;
      [|discriminate|].
    + unfold SaveToFile_stream in H.
      destruct (SaveToFile_objects fuel s) as [objects|]; [|discriminate].
      cbn in H. injection H as <-.
      eexists _, objects. split; [reflexivity|]. split; [reflexivity|].
      split; [reflexivity|]. split; [|split; [|reflexivity]].
      * unfold FileExists, StopWriting. cbn. rewrite lookup_insert_eq. reflexivity.
      * intros other Hne. cbn. apply lookup_insert_ne.
        exact (fun Heq => Hne (eq_sym Heq)).
    + unfold SaveToFile_stream in H.
      destruct (SaveToFile_objects fuel s) as [objects|]; [|discriminate].
      cbn in H. injection H as <-.
      eexists _, objects. split; [reflexivity|]. split; [reflexivity|].
      split; [reflexivity|]. split; [|split; [|reflexivity]].
      * unfold FileExists, StopWriting. cbn. rewrite lookup_insert_eq. reflexivity.
      * intros other Hne. cbn. apply lookup_insert_ne.
        exact (fun Heq => Hne (eq_sym Heq)).
Qed.

(** X19.  When [LoadFromFile] returns true, the file existed and
    starts with a list of resource paths; the resource cache holds exactly
    the supported paths of that list, in order, each under the first kind
    among mesh, material and image that accepts it; no file changed; the
    subsystems were reset by [Clear]; and the caches are resolved. *)
Theorem LoadFromFile_true fuel ctx s filePath ctx' s' :
  LoadFromFile IsSupportedMeshFile IsSupportedMaterialFile IsSupportedImageFile
    fuel ctx s filePath = Some (true, ctx', s') ->
  exists st resourcePaths rest,
    ctx_files ctx !! filePath = Some st /\
    ReadVectorSTR st = Some (resourcePaths, rest) /\
    ctx_resources ctx'
    = omap (fun p => k ← resource_kind IsSupportedMeshFile IsSupportedMaterialFile
                          IsSupportedImageFile p; Some (k, p)) resourcePaths /\
    ctx_files ctx' = ctx_files ctx /\
    ctx_calls ctx'
    = ctx_calls ctx
      ++ [ResourceManager_Unload; Scripting_Reset; Physics_Reset; Renderer_Clear] /\
    caches_resolved s'.
Proof.
  intros H. unfold LoadFromFile, FileExists in H.
  destruct (ctx_files ctx !! filePath) as [st|] eqn:Hst; [|discriminate].
  cbn [negb] in H.
  destruct (Clear ctx s) as [[ctx1 s1]|] eqn:HClear; [|discriminate].
  cbn [mbind option_bind] in H.
  assert (ctx_resources ctx1 = [] /\ ctx_files ctx1 = ctx_files ctx /\
          ctx_calls ctx1
          = ctx_calls ctx ++ [ResourceManager_Unload; Scripting_Reset;
                              Physics_Reset; Renderer_Clear]) as (Hr1 & Hf1 & Hc1).
  { unfold Clear in HClear.
    destruct (for_each _ (mem s) (m_gameObjects s)); [|discriminate].
    cbn in HClear. injection HClear as <- _. cbn.
    rewrite <- !app_assoc. auto. }
  unfold StartReading at 1 in H.
  destruct (open_stream_frame ctx1) as (Hr2 & Hf2 & Hc2).
  destruct (open_stream ctx1) as [ok ctx2]. cbn [snd] in Hr2, Hf2, Hc2.
  destruct ok; [|discriminate].
  rewrite Hf1, Hst in H.
  destruct (ReadVectorSTR st) as [[resourcePaths rest]|] eqn:Hread; [|discriminate].
  cbn [mbind option_bind] in H.
  destruct (load_resources_kinds resourcePaths ctx2) as (Hr3 & Hf3 & Hc3 & _).
  cbv zeta in Hr3, Hf3, Hc3.
  unfold StartReading in H.
  match type of H with
  | context [open_stream ?c] =>
      destruct (open_stream_frame c) as (Hr4 & Hf4 & Hc4);
      destruct (open_stream c) as [ok' ctx4]
  end.
  cbn [snd] in Hr4, Hf4, Hc4.
  destruct ok'; [|discriminate].
  rewrite Hf3, Hf2, Hf1, Hst in H.
  destruct (LoadFromFile_objects fuel s1 st) as [s2|] eqn:Hobjects; [|discriminate].
  cbn in H. injection H as <- <-.
  exists st, resourcePaths, rest. split; [reflexivity|]. split; [exact Hread|].
  split; [rewrite Hr4, Hr3, Hr2, Hr1; reflexivity|].
  split; [rewrite Hf4, Hf3, Hf2, Hf1; reflexivity|].
  split; [rewrite Hc4, Hc3, Hc2, Hc1; reflexivity|].
  eapply LoadFromFile_objects_resolved. exact Hobjects.
Qed.

End PersistenceFurther.

Lemma SaveToFile_outcome_witness :
  (exists ctx',
     SaveToFile ".directus" extension_of 4 (context_with_file [true]) demo "x"
     = Some (false, ctx') /\
     ctx_files ctx' = ctx_files (context_with_file [true])) /\
  (exists ctx',
     SaveToFile ".directus" extension_of 4 fresh_context demo "x" = Some (true, ctx') /\
     FileExists ctx' "x.directus" = true).
Proof.
  destruct (SaveToFile_outcome ".directus" extension_of 4 (context_with_file [true])
              demo "x") as [Hfail _].
  destruct (SaveToFile_outcome ".directus" extension_of 4 fresh_context demo "x")
    as [_ Hok].
  split.
  - destruct (Hfail [] eq_refl) as (ctx' & Hrun & Hfiles & _).
    exists ctx'. split; [exact Hrun|exact Hfiles].
  - assert (is_Some (SaveToFile ".directus" extension_of 4 fresh_context demo "x"))
      as [[b ctx'] Hrun] by (vm_compute; eexists; reflexivity).
    assert (b = true) as ->.
    { assert (fst <$> SaveToFile ".directus" extension_of 4 fresh_context demo "x"
              = Some true) as Hb by (vm_compute; reflexivity).
      rewrite Hrun in Hb. injection Hb as ->. reflexivity. }
    destruct (Hok ctx' Hrun) as (path & objects & Hpath & _ & _ & Hex & _).
    vm_compute in Hpath. subst path.
    exists ctx'. split; [exact Hrun|exact Hex].
Defined.

Lemma LoadFromFile_true_witness :
  exists ctx' s',
    LoadFromFile is_mesh_file is_material_file is_image_file 2
      (context_with_file []) demo "scene.directus" = Some (true, ctx', s') /\
    ctx_resources ctx' = [(MeshResource, "cube.obj")] /\
    caches_resolved s'.
Proof.
  assert (exists ctx' s',
            LoadFromFile is_mesh_file is_material_file is_image_file 2
              (context_with_file []) demo "scene.directus" = Some (true, ctx', s'))
    as (ctx' & s' & Hrun) by (vm_compute; eexists _, _; reflexivity).
  destruct (LoadFromFile_true is_mesh_file is_material_file is_image_file 2
              (context_with_file []) demo "scene.directus" ctx' s' Hrun)
    as (st & paths & rest & Hst & Hread & Hres & _ & _ & Hresolved).
  exists ctx', s'. split; [exact Hrun|]. split; [|exact Hresolved].
  vm_compute in Hst. injection Hst as <-.
  vm_compute in Hread. injection Hread as <- <-.
  rewrite Hres. vm_compute. reflexivity.
Defined.

(** ** Mip levels *)

Lemma int_max_max a b : int_max a b = Z.max a b.
Proof. unfold int_max. destruct (Z.ltb_spec a b); lia. Qed.

Lemma int_mul_small a b :
  (0 <= a * b <= INT_MAX)%Z -> int_mul a b = Some (a * b)%Z.
Proof.
  intros H. unfold int_mul. cbv zeta.
  destruct (Z.leb_spec INT_MIN (a * b)), (Z.leb_spec (a * b) INT_MAX);
    try reflexivity; unfold INT_MIN, INT_MAX in *; lia.
Qed.

Lemma to_UINT_small z : (0 <= z <= INT_MAX)%Z -> to_UINT z = z.
Proof. intros H. unfold to_UINT. apply Z.mod_small. unfold INT_MAX in H. lia. Qed.

Lemma mip_extent_0 size : (1 <= size)%Z -> mip_extent size 0 = size.
Proof. intros H. unfold mip_extent. cbn. rewrite Z.div_1_r. lia. Qed.

Lemma mip_extent_bounds size level :
  (1 <= size)%Z -> (1 <= mip_extent size level <= size)%Z.
Proof.
  intros H. unfold mip_extent.
  assert (0 < 2 ^ Z.of_nat level)%Z as Hpow by (apply Z.pow_pos_nonneg; lia).
  assert (size / 2 ^ Z.of_nat level <= size)%Z.
  { apply Z.div_le_upper_bound; [exact Hpow|]. nia. }
  lia.
Qed.

Lemma mip_extent_S size level :
  (1 <= size)%Z ->
  int_max (Z.quot (mip_extent size level) 2) 1 = mip_extent size (S level).
Proof.
  intros H. rewrite int_max_max.
  pose proof (mip_extent_bounds size level H) as Hb.
  rewrite Z.quot_div_nonneg by lia.
  unfold mip_extent in *.
  assert (0 < 2 ^ Z.of_nat level)%Z as Hpow by (apply Z.pow_pos_nonneg; lia).
  replace (2 ^ Z.of_nat (S level))%Z with (2 ^ Z.of_nat level * 2)%Z
    by (rewrite Nat2Z.inj_succ, Z.pow_succ_r by lia; lia).
  rewrite <- Zdiv.Zdiv_Zdiv by lia.
  assert (0 <= size / 2 ^ Z.of_nat level)%Z as Hq by (apply Z.div_pos; lia).
  destruct (Z.le_gt_cases 1 (size / 2 ^ Z.of_nat level)) as [Hge|Hlt].
  - rewrite (Z.max_l (size / 2 ^ Z.of_nat level) 1) by lia. reflexivity.
  - replace (size / 2 ^ Z.of_nat level)%Z with 0%Z by lia. reflexivity.
Qed.

Lemma CreateFromMipchain_loop_levels m_mipLevels m_format width height channels :
  (1 <= width)%Z -> (1 <= height)%Z -> (1 <= channels)%Z ->
  (width * height * channels <= INT_MAX)%Z ->
  forall mipchain level,
    exists subresourceData textureDescs,
      CreateFromMipchain_loop m_mipLevels m_format
        (mip_extent width level) (mip_extent height level) channels mipchain
      = Some (subresourceData, textureDescs) /\
      length subresourceData = length mipchain /\
      length textureDescs = length mipchain /\
      forall i mipLevel,
        mipchain !! i = Some mipLevel ->
        subresourceData !! i
        = Some (mkSubresourceData mipLevel
                  (mip_extent width (level + i) * channels)
                  (mip_extent width (level + i) * mip_extent height (level + i)
                   * channels)) /\
        textureDescs !! i
        = Some (mkTexture2DDesc (mip_extent width (level + i))
                  (mip_extent height (level + i)) m_mipLevels 1 m_format 1 0
                  D3D11_USAGE_IMMUTABLE [D3D11_BIND_SHADER_RESOURCE] [] 0).
Proof.
  intros Hw Hh Hc Hfit.
  induction mipchain as [|mipLevel rest IH]; intros level.
  - exists [], []. split; [reflexivity|]. split; [reflexivity|].
    split; [reflexivity|]. intros i x Hi. rewrite lookup_nil in Hi. discriminate.
  - pose proof (mip_extent_bounds width level Hw) as Hbw.
    pose proof (mip_extent_bounds height level Hh) as Hbh.
    destruct (IH (S level)) as (subs & descs & Hrun & Hls & Hld & Hspec).
    set (a := mip_extent width level) in *.
    set (b := mip_extent height level) in *.
    assert (a * b <= width * height)%Z as Hab
      by (apply Z.mul_le_mono_nonneg; lia).
    assert (a * b * channels <= width * height * channels)%Z as Habc
      by (apply Z.mul_le_mono_nonneg_r; lia).
    assert (a <= a * b)%Z as Ha by nia.
    assert (a * channels <= a * b * channels)%Z as Hac
      by (apply Z.mul_le_mono_nonneg_r; lia).
    assert (a * b <= a * b * channels)%Z as Hab' by nia.
    assert (0 <= a * channels <= INT_MAX)%Z as H1 by (split; [nia|lia]).
    assert (0 <= a * b <= INT_MAX)%Z as H2 by (split; [nia|lia]).
    assert (0 <= a * b * channels <= INT_MAX)%Z as H3 by (split; [nia|lia]).
    eexists _, _. split.
    { cbn [CreateFromMipchain_loop].
      rewrite (int_mul_small _ _ H1). cbn [mbind option_bind].
      rewrite (int_mul_small _ _ H2). cbn [mbind option_bind].
      rewrite (int_mul_small _ _ H3). cbn [mbind option_bind].
      unfold a, b. rewrite !mip_extent_S by assumption. rewrite Hrun.
      cbn [mbind option_bind]. fold a. fold b.
      rewrite !to_UINT_small by (unfold INT_MAX in *; lia).
      reflexivity. }
    split; [cbn; rewrite Hls; reflexivity|].
    split; [cbn; rewrite Hld; reflexivity|].
    intros [|i] x Hi.
    + cbn in Hi. injection Hi as ->. rewrite Nat.add_0_r. split; reflexivity.
    + cbn in Hi. destruct (Hspec i x Hi) as [Es Ed].
      replace (level + S i) with (S level + i) by lia.
      split; [exact Es|exact Ed].
Qed.

(** X20.  For a mipchain that is not empty and positive extents and
    channel count whose product fits [int], [CreateFromMipchain] is defined
    and no level overflows.  Level [i] gets the extents
    [max(width / 2^i, 1)] and [max(height / 2^i, 1)], which stay between 1
    and the extents of the texture, with the row pitch and the slice pitch of
    those extents; the device receives the description of level 0 and one
    subresource per level. *)
Theorem CreateFromMipchain_levels
    (ID3D11Texture2D ID3D11ShaderResourceView : Type)
    (CreateTexture2D :
       D3D11_TEXTURE2D_DESC -> option (list D3D11_SUBRESOURCE_DATA) ->
       option ID3D11Texture2D)
    (CreateShaderResourceView :
       ID3D11Texture2D -> D3D11_SHADER_RESOURCE_VIEW_DESC ->
       option ID3D11ShaderResourceView)
    (this : D3D11Texture ID3D11ShaderResourceView)
    (width height channels : Z) (mipchain : list (list Byte.byte)) :
  (1 <= width)%Z -> (1 <= height)%Z -> (1 <= channels)%Z ->
  (width * height * channels <= INT_MAX)%Z ->
  mipchain <> [] -> (Z.of_nat (length mipchain) <= INT_MAX)%Z ->
  exists subresourceData,
    length subresourceData = length mipchain /\
    (forall i mipLevel,
       mipchain !! i = Some mipLevel ->
       subresourceData !! i
       = Some (mkSubresourceData mipLevel
                 (mip_extent width i * channels)
                 (mip_extent width i * mip_extent height i * channels)) /\
       (1 <= mip_extent width i <= width)%Z /\
       (1 <= mip_extent height i <= height)%Z) /\
    D3D11Texture_CreateFromMipchain ID3D11Texture2D ID3D11ShaderResourceView
      CreateTexture2D CreateShaderResourceView this width height channels mipchain
    = Some (create_view ID3D11Texture2D ID3D11ShaderResourceView
              CreateShaderResourceView this (Z.of_nat (length mipchain))
              (CreateTexture2D
                 (mkTexture2DDesc width height (Z.of_nat (length mipchain)) 1
                    (m_format _ this) 1 0 D3D11_USAGE_IMMUTABLE
                    [D3D11_BIND_SHADER_RESOURCE] [] 0)
                 (Some subresourceData))).
Proof.
  intros Hw Hh Hc Hfit Hne Hlen.
  assert (to_UINT (Z.of_nat (length mipchain)) = Z.of_nat (length mipchain)) as Hn
    by (apply to_UINT_small; split; [lia|exact Hlen]).
  destruct (CreateFromMipchain_loop_levels
              (Z.of_nat (length mipchain)) (m_format _ this)
              width height channels Hw Hh Hc Hfit mipchain 0)
    as (subs & descs & Hrun & Hls & Hld & Hspec).
  rewrite !mip_extent_0 in Hrun by assumption.
  exists subs. split; [exact Hls|]. split.
  - intros i x Hi. destruct (Hspec i x Hi) as [Es _]. cbn in Es.
    split; [exact Es|]. split; apply mip_extent_bounds; assumption.
  - unfold D3D11Texture_CreateFromMipchain. cbv zeta. rewrite Hn, Hrun.
    cbn [mbind option_bind].
    destruct mipchain as [|x rest]; [contradiction|].
    destruct (Hspec 0 x eq_refl) as [Es Ed]. cbn [Nat.add] in Es, Ed.
    rewrite Ed, Es. cbn [mbind option_bind].
    rewrite !mip_extent_0 by assumption. reflexivity.
Qed.

Lemma CreateFromMipchain_levels_witness :
  exists subresourceData,
    length subresourceData = 3 /\
    subresourceData !! 2
    = Some (mkSubresourceData [] (mip_extent 5 2 * 4)
              (mip_extent 5 2 * mip_extent 2 2 * 4)) /\
    mip_extent 5 2 = 1%Z /\ mip_extent 2 2 = 1%Z.
Proof.
  destruct (CreateFromMipchain_levels unit unit (fun _ _ => None) (fun _ _ => None)
              (mkD3D11Texture unit None DXGI_FORMAT_R8G8B8A8_UNORM 1) 5 2 4
              [[]; []; []])
    as (subs & Hlen & Hspec & _); try (vm_compute; congruence); try discriminate.
  exists subs. split; [exact Hlen|].
  destruct (Hspec 2 [] eq_refl) as (Es & _ & _).
  split; [exact Es|]. split; reflexivity.
Defined.

Lemma int_mul_Some a b r :
  int_mul a b = Some r -> r = (a * b)%Z /\ (a * b <= INT_MAX)%Z.
Proof.
  unfold int_mul. cbv zeta.
  destruct (Z.leb_spec INT_MIN (a * b)), (Z.leb_spec (a * b) INT_MAX);
    cbn; intros Hr; try discriminate.
  injection Hr as <-. split; [reflexivity|assumption].
Qed.

(** X21.  For positive extents and channel count,
    [CreateFromMipchain] is defined exactly when the mipchain is not empty
    and [width * height * channels] fits [int]. *)
Theorem CreateFromMipchain_defined
    (ID3D11Texture2D ID3D11ShaderResourceView : Type)
    (CreateTexture2D :
       D3D11_TEXTURE2D_DESC -> option (list D3D11_SUBRESOURCE_DATA) ->
       option ID3D11Texture2D)
    (CreateShaderResourceView :
       ID3D11Texture2D -> D3D11_SHADER_RESOURCE_VIEW_DESC ->
       option ID3D11ShaderResourceView)
    (this : D3D11Texture ID3D11ShaderResourceView)
    (width height channels : Z) (mipchain : list (list Byte.byte)) :
  (1 <= width)%Z -> (1 <= height)%Z -> (1 <= channels)%Z ->
  is_Some (D3D11Texture_CreateFromMipchain ID3D11Texture2D ID3D11ShaderResourceView
             CreateTexture2D CreateShaderResourceView this width height channels
             mipchain)
  <-> mipchain <> [] /\ (width * height * channels <= INT_MAX)%Z.
Proof.
  intros Hw Hh Hc. split.
  - intros [r Hr]. unfold D3D11Texture_CreateFromMipchain in Hr. cbv zeta in Hr.
    destruct mipchain as [|x rest]; [cbn in Hr; discriminate|].
    split; [discriminate|].
    cbn [CreateFromMipchain_loop] in Hr.
    destruct (int_mul width channels) as [pitch|]; [|discriminate].
    cbn [mbind option_bind] in Hr.
    destruct (int_mul width height) as [area|] eqn:Harea; [|discriminate].
    cbn [mbind option_bind] in Hr.
    destruct (int_mul area channels) as [slicePitch|] eqn:Hslice; [|discriminate].
    apply int_mul_Some in Harea as [-> _].
    apply int_mul_Some in Hslice as [_ Hfit]. exact Hfit.
  - intros [Hne Hfit]. unfold D3D11Texture_CreateFromMipchain. cbv zeta.
    destruct (CreateFromMipchain_loop_levels
                (to_UINT (Z.of_nat (length mipchain))) (m_format _ this)
                width height channels Hw Hh Hc Hfit mipchain 0)
      as (subs & descs & Hrun & _ & _ & Hspec).
    rewrite !mip_extent_0 in Hrun by assumption.
    rewrite Hrun. cbn [mbind option_bind].
    destruct mipchain as [|x rest]; [contradiction|].
    destruct (Hspec 0 x eq_refl) as [Es Ed].
    rewrite Ed, Es. cbn [mbind option_bind]. eexists. reflexivity.
Qed.

Lemma CreateFromMipchain_defined_witness :
  D3D11Texture_CreateFromMipchain unit unit (fun _ _ => None) (fun _ _ => None)
    (mkD3D11Texture unit None DXGI_FORMAT_R8G8B8A8_UNORM 1) 65536 65536 1 [[]]
  = None /\
  D3D11Texture_CreateFromMipchain unit unit (fun _ _ => None) (fun _ _ => None)
    (mkD3D11Texture unit None DXGI_FORMAT_R8G8B8A8_UNORM 1) 4 4 4 []
  = None.
Proof.
  split.
  - destruct (D3D11Texture_CreateFromMipchain unit unit (fun _ _ => None)
                (fun _ _ => None)
                (mkD3D11Texture unit None DXGI_FORMAT_R8G8B8A8_UNORM 1)
                65536 65536 1 [[]]) as [r|] eqn:Hr; [|reflexivity].
    destruct (proj1 (CreateFromMipchain_defined unit unit _ _ _ 65536 65536 1 [[]]
                       ltac:(lia) ltac:(lia) ltac:(lia)) (mk_is_Some _ _ Hr))
      as [_ Hfit].
    vm_compute in Hfit. destruct Hfit. reflexivity.
  - destruct (D3D11Texture_CreateFromMipchain unit unit (fun _ _ => None)
                (fun _ _ => None)
                (mkD3D11Texture unit None DXGI_FORMAT_R8G8B8A8_UNORM 1)
                4 4 4 []) as [r|] eqn:Hr; [|reflexivity].
    destruct (proj1 (CreateFromMipchain_defined unit unit _ _ _ 4 4 4 []
                       ltac:(lia) ltac:(lia) ltac:(lia)) (mk_is_Some _ _ Hr))
      as [Hne _].
    destruct Hne. reflexivity.
Defined.

(** X22.  [Create] does what [CreateFromMipchain] does for the chain
    whose only level is the data: the same pitches, the same description,
    the same device calls, and the same undefined cases. *)
Theorem Create_is_single_level_mipchain
    (ID3D11Texture2D ID3D11ShaderResourceView : Type)
    (CreateTexture2D :
       D3D11_TEXTURE2D_DESC -> option (list D3D11_SUBRESOURCE_DATA) ->
       option ID3D11Texture2D)
    (CreateShaderResourceView :
       ID3D11Texture2D -> D3D11_SHADER_RESOURCE_VIEW_DESC ->
       option ID3D11ShaderResourceView)
    (this : D3D11Texture ID3D11ShaderResourceView)
    (width height channels : Z) (data : list Byte.byte) :
  D3D11Texture_Create ID3D11Texture2D ID3D11ShaderResourceView
    CreateTexture2D CreateShaderResourceView this width height channels data
  = D3D11Texture_CreateFromMipchain ID3D11Texture2D ID3D11ShaderResourceView
      CreateTexture2D CreateShaderResourceView this width height channels [data].
Proof.
  unfold D3D11Texture_Create, D3D11Texture_CreateFromMipchain.
  cbn [CreateFromMipchain_loop length].
  destruct (int_mul width channels) as [pitch|]; [|reflexivity].
  cbn [mbind option_bind].
  destruct (int_mul width height) as [area|]; [|reflexivity].
  cbn [mbind option_bind].
  destruct (int_mul area channels) as [slicePitch|]; reflexivity.
Qed.

(** ** Use after removal *)

(** X23.  After [RemoveGameObject(E)] the pointers to [E] and to each of
    its descendants dangle: removing through one of them again, or asking
    whether it exists, is undefined. *)
Theorem RemoveGameObject_twice_undefined fuel rank s E :
  wf s -> hierarchy_wf rank s ->
  (forall a, a ∈ m_gameObjects s -> rank a < fuel) ->
  E ∈ m_gameObjects s ->
  exists ds s',
    GetDescendants fuel (mem s) E = Some ds /\
    RemoveGameObject fuel s (Some E) = Some s' /\
    forall a, a ∈ E :: ds ->
      RemoveGameObject fuel s' (Some a) = None /\
      GameObjectExists s' (Some a) = None.
Proof.
  intros Hwf Hh Hfuel HE.
  destruct (hierarchy_removable fuel rank s E Hwf Hh Hfuel HE)
    as (g & ds & [H1 H2 H3 H4 H5 H6 H7]).
  destruct (RemoveGameObject_spec fuel rank s E g ds Hwf H1 H2 H3 H4 H5 H6 H7)
    as (s' & Hrun & _ & _ & Hdel & _).
  exists ds, s'. split; [exact H3|]. split; [exact Hrun|].
  intros a Ha. specialize (Hdel a Ha). split.
  - unfold RemoveGameObject. destruct fuel as [|fuel']; [reflexivity|].
    cbn [GetDescendants]. rewrite Hdel. reflexivity.
  - cbn. rewrite Hdel. reflexivity.
Qed.

Lemma RemoveGameObject_twice_undefined_witness :
  exists s',
    RemoveGameObject 4 demo (Some 5) = Some s' /\
    RemoveGameObject 4 s' (Some 5) = None /\
    RemoveGameObject 4 s' (Some 7) = None.
Proof.
  destruct (RemoveGameObject_twice_undefined 4 demo_rank demo 5
              demo_wf demo_hierarchy_wf)
    as (ds & s' & Hds & Hrun & Hgone).
  - intros a _. apply demo_rank_bound.
  - apply (bool_decide_unpack _). vm_compute. exact I.
  - assert (GetDescendants 4 (mem demo) 5 = Some [7]) as Hlamp
      by (vm_compute; reflexivity).
    pose proof (eq_trans (eq_sym Hds) Hlamp) as Heq. injection Heq as ->.
    exists s'. split; [exact Hrun|]. split.
    + apply (Hgone 5). left.
    + apply (Hgone 7). right. left.
Defined.

(** ** Saving a well-formed scene *)

Lemma GameObject_Serialize_total rank s :
  live s -> hierarchy_wf rank s ->
  forall fuel a, a ∈ m_gameObjects s -> rank a < fuel ->
    is_Some (GameObject_Serialize fuel (mem s) a).
Proof.
  intros Hl Hh. induction fuel as [|fuel IH]; intros a Ha Hrank; [lia|].
  cbn [GameObject_Serialize]. destruct (Hl a Ha) as [g Hg]. rewrite Hg.
  cbn [mbind option_bind].
  assert (is_Some (mapM (GameObject_Serialize fuel (mem s))
                        (t_children (m_transform g)))) as [children Hc].
  { apply mapM_is_Some_2. apply Forall_forall. intros c Hc.
    destruct (hw_children rank s Hh a g c Ha Hg Hc) as [Hcin Hpar].
    apply parent_is_true in Hpar as (gc & Hgc & Hp).
    destruct (hw_parent rank s Hh c gc a Hcin Hgc Hp) as [_ Hlt].
    apply IH; [exact Hcin|lia]. }
  rewrite Hc. cbn [mbind option_bind]. eexists. reflexivity.
Qed.

Section SavingFurther.

Variable SCENE_EXTENSION : string.
Variable GetExtensionFromPath : string -> string.

(** X24.  For a scene whose registered pointers are live and whose
    hierarchy is a forest, with a recursion depth above the ranks,
    [SaveToFile] returns, and returns true exactly when the stream opens. *)
Theorem SaveToFile_returns fuel rank ctx s filePathIn :
  live s -> hierarchy_wf rank s ->
  (forall a, a ∈ m_gameObjects s -> rank a < fuel) ->
  exists ok ctx',
    SaveToFile SCENE_EXTENSION GetExtensionFromPath fuel ctx s filePathIn
    = Some (ok, ctx') /\
    (ok = true <-> forall faults, ctx_faults ctx <> true :: faults).
Proof.
  intros Hl Hh Hfuel.
  assert (is_Some (SaveToFile_objects fuel s)) as [objects Hobjects].
  { unfold SaveToFile_objects, GetRootGameObjects.
    rewrite (GetRootGameObjects_loop_filter _ _ Hl). cbn [mbind option_bind].
    assert (forall r, r ∈ List.filter (is_root (mem s)) (m_gameObjects s) ->
                      r ∈ m_gameObjects s) as Hroots.
    { intros r Hr. apply list_elem_of_In, filter_In in Hr as [Hr _].
      apply list_elem_of_In. exact Hr. }
    assert (is_Some (mapM (fun root => g ← mem s !! root; Some (WriteSTR (m_ID g)))
                          (List.filter (is_root (mem s)) (m_gameObjects s))))
      as [IDs HIDs].
    { apply mapM_is_Some_2. apply Forall_forall. intros r Hr.
      destruct (Hl r (Hroots r Hr)) as [g Hg].
      exists (WriteSTR (m_ID g)). cbv beta.
      change (mem s !! r ≫= (fun g => Some (WriteSTR (m_ID g)))
              = Some (WriteSTR (m_ID g))).
      rewrite Hg. reflexivity. }
    rewrite HIDs. cbn [mbind option_bind].
    assert (is_Some (mapM (GameObject_Serialize fuel (mem s))
                          (List.filter (is_root (mem s)) (m_gameObjects s))))
      as [records Hrecords].
    { apply mapM_is_Some_2. apply Forall_forall. intros r Hr.
      apply (GameObject_Serialize_total rank s Hl Hh); auto. }
    rewrite Hrecords. eexists. reflexivity. }
  unfold SaveToFile, StartWriting, open_stream, SaveToFile_stream.
  cbn [call ctx_faults]. rewrite Hobjects.
  destruct (ctx_faults ctx) as [|[|] faults]; cbn [negb mbind option_bind];
    eexists _, _; (split; [reflexivity|]).
  - split; [intros _ faults; discriminate|reflexivity].
  - split; [discriminate|]. intros H. destruct (H faults). reflexivity.
  - split; [intros _ faults'; discriminate|reflexivity].
Qed.

End SavingFurther.

Lemma SaveToFile_returns_witness :
  exists ctx',
    SaveToFile ".directus" extension_of 4 fresh_context demo "x" = Some (true, ctx').
Proof.
  destruct (SaveToFile_returns ".directus" extension_of 4 demo_rank fresh_context
              demo "x" demo_live demo_hierarchy_wf)
    as (ok & ctx' & Hrun & Hok).
  - intros a _. apply demo_rank_bound.
  - assert (ok = true) as -> by (apply Hok; intros faults; discriminate).
    exists ctx'. exact Hrun.
Defined.

(** ** Creation in a hierarchy *)

(** X25.  [CreateGameObject] keeps the hierarchy a forest, under the same
    ranks: the new game object is a root without children and no other
    transform changes. *)
Theorem CreateGameObject_keeps_forest rank guid s s' a :
  live s -> hierarchy_wf rank s ->
  CreateGameObject guid s = Some (s', a) ->
  hierarchy_wf rank s' /\ is_root (mem s') a = true /\
  children_of (mem s') a = Some [].
Proof.
  intros Hl [Hch Hnd Hpar] HC.
  destruct (live_registry_objects s Hl) as [objs Hobjs].
  destruct (CreateGameObject_objects guid s objs Hobjs) as [_ HC'].
  rewrite HC' in HC. injection HC as <- <-.
  destruct (alloc_fresh s Hl) as [Hnone Hnin].
  set (a := alloc (mem s)) in *.
  assert (forall b, b ∈ m_gameObjects s ->
            (<[a := GameObject_new guid]> (mem s) : gmap addr GameObject) !! b
            = mem s !! b) as Hold.
  { intros b Hb. apply lookup_insert_ne. intros <-. contradiction. }
  split; [|split].
  - constructor; cbn [mem m_gameObjects set_caches].
    + intros b g c Hb Hg Hc. apply elem_of_app in Hb as [Hb|Hb].
      * rewrite (Hold b Hb) in Hg.
        destruct (Hch b g c Hb Hg Hc) as [Hcin Hp].
        split; [apply elem_of_app; left; exact Hcin|].
        unfold parent_is in *. rewrite (Hold c Hcin). exact Hp.
      * apply list_elem_of_singleton in Hb as ->.
        rewrite lookup_insert_eq in Hg. injection Hg as <-. inversion Hc.
    + intros b g Hb Hg. apply elem_of_app in Hb as [Hb|Hb].
      * rewrite (Hold b Hb) in Hg. eapply Hnd; eassumption.
      * apply list_elem_of_singleton in Hb as ->.
        rewrite lookup_insert_eq in Hg. injection Hg as <-. constructor.
    + intros b g q Hb Hg Hq. apply elem_of_app in Hb as [Hb|Hb].
      * rewrite (Hold b Hb) in Hg.
        destruct (Hpar b g q Hb Hg Hq) as [Hqin Hlt].
        split; [apply elem_of_app; left; exact Hqin|exact Hlt].
      * apply list_elem_of_singleton in Hb as ->.
        rewrite lookup_insert_eq in Hg. injection Hg as <-. discriminate.
  - unfold is_root. cbn [mem set_caches]. rewrite lookup_insert_eq. reflexivity.
  - unfold children_of. cbn [mem set_caches]. rewrite lookup_insert_eq. reflexivity.
Qed.

Lemma CreateGameObject_keeps_forest_witness :
  exists s' a,
    CreateGameObject "id-new" demo = Some (s', a) /\ hierarchy_wf demo_rank s'.
Proof.
  destruct (CreateGameObject_returns "id-new" demo demo_live) as [[s' a] HC].
  exists s', a. split; [exact HC|].
  apply (CreateGameObject_keeps_forest demo_rank "id-new" demo s' a demo_live
           demo_hierarchy_wf HC).
Defined.
